(** * atomic-lock: the lock coordinator, its circuit breaker and its drivers

    A shallow embedding of the classes [AtomicLock], [MemoryLockDriver],
    [FileLockDriver] and [SQLiteLockDriver], and of the multi-key
    acquisition of [RedisLockDriver].

    Conventions.
    - A JavaScript [number] that holds a timestamp, a counter, a size or a
      duration is an integer [Z]: [Date.now()] is in whole milliseconds and
      the time to live is taken in whole seconds. Where a fraction of a
      second matters, the time to live is a rational and the arithmetic
      is rounded as that of doubles is ([MemoryLockDriverNum]).
    - [Date.now()] is read from the clock of the world an operation runs in.
      One driver or coordinator operation sees one clock reading; the clock
      moves between operations (and a callback may move it at will).
    - A promise that resolves is [Return], one that rejects is [Throw]. *)

From Stdlib Require Import Ascii QArith Qround Lqa.
From stdpp Require Import gmap strings pretty list fin_maps.

Local Open Scope string_scope.
Local Open Scope list_scope.
Local Open Scope Z_scope.

(** ** Completions *)

(** What is thrown: a system error carrying a [code] (as [fs] raises them)
    or a plain [new Error(message)]. *)
Inductive JsError : Type :=
  | SysError (code : string)
  | Error (message : string).

Inductive Completion (A : Type) : Type :=
  | Return (a : A)
  | Throw (e : JsError).
Arguments Return {A} a.
Arguments Throw {A} e.

(** ** [Map] with its insertion order

    [new Map<string, V>()]: an association list, oldest insertion first.
    [set] on a key that is present keeps the position of the entry (so does
    a mutation of the stored object through the reference [get] returned);
    [set] on a new key appends. *)
Module JsMap.
Section Ops.
Context {V : Type}.

Fixpoint get (k : string) (m : list (string * V)) : option V :=
  match m with
  | [] => None
  | (k', v) :: m' => if decide (k' = k) then Some v else get k m'
  end.

Definition has (k : string) (m : list (string * V)) : bool :=
  match get k m with Some _ => true | None => false end.

Fixpoint set (k : string) (v : V) (m : list (string * V)) : list (string * V) :=
  match m with
  | [] => [(k, v)]
  | (k', v') :: m' =>
      if decide (k' = k) then (k, v) :: m' else (k', v') :: set k v m'
  end.

Fixpoint delete (k : string) (m : list (string * V)) : list (string * V) :=
  match m with
  | [] => []
  | (k', v') :: m' =>
      if decide (k' = k) then delete k m' else (k', v') :: delete k m'
  end.

Definition size (m : list (string * V)) : Z := Z.of_nat (length m).

Definition keys (m : list (string * V)) : list string := m.*1.

(** [keys.forEach(key => map.delete(key))] *)
Definition deleteAll (ks : list string) (m : list (string * V)) : list (string * V) :=
  foldl (fun acc k => delete k acc) m ks.

(** [for (const [key, v] of map.entries()) if (stale(v)) map.delete(key)] *)
Fixpoint sweep (stale : V -> bool) (m : list (string * V)) : list (string * V) :=
  match m with
  | [] => []
  | (k, v) :: m' => if stale v then sweep stale m' else (k, v) :: sweep stale m'
  end.

(** No key is stored twice. *)
Definition wf (m : list (string * V)) : Prop := NoDup (keys m).
End Ops.
End JsMap.

(** ** Lock records and the driver interface ([LockInfo], [LockDriver]) *)

(** What a driver stores for a key: the memory driver's map value and the
    file driver's [FileLock] have this one shape. *)
Record LockData : Type := mkLockData {
  value : string;
  expiresAt : Z;
  createdAt : Z;
}.

Module LockInfo.
Record t : Type := mk {
  key : string;
  value : string;
  expiresAt : Z;
  createdAt : option Z;
}.
End LockInfo.

(** [interface LockDriver], over a driver state [D]. Every method is
    asynchronous: it completes with [Return] or [Throw] and leaves a new
    driver state. The argument before the state is the reading of
    [Date.now()] the call sees. The optional members ([exists],
    [getLockInfo], [cleanup], [close]) are not used by the coordinator. *)
Module Driver.
Class LockDriver (D : Type) : Type := {
  tryAcquire : string → string → Z → Z → D → Completion bool * D;
  tryAcquireMultiple : list string → string → Z → Z → D → Completion bool * D;
  release : string → string → Z → D → Completion bool * D;
  releaseMultiple : list string → string → Z → D → Completion Z * D;
}.
End Driver.

(** ** The in-memory driver ([class MemoryLockDriver]) *)
Module MemoryLockDriver.

(** [this.locks.has(key)] *)
Definition has (key : string) (locks : gmap string LockData) : bool :=
  match locks !! key with Some _ => true | None => false end.

(** [if (existing && existing.expiresAt < now) this.locks.delete(key)] *)
Definition dropExpired (now : Z) (locks : gmap string LockData) (key : string)
  : gmap string LockData :=
  match locks !! key with
  | Some existing => if expiresAt existing <? now then delete key locks else locks
  | None => locks
  end.

Definition tryAcquire (key lockValue : string) (expiryInSeconds now : Z)
    (locks : gmap string LockData) : bool * gmap string LockData :=
  let locks := dropExpired now locks key in
  if has key locks then (false, locks)
  else (true, <[key := {| value := lockValue;
                          expiresAt := now + expiryInSeconds * 1000;
                          createdAt := now |}]> locks).

Definition tryAcquireMultiple (keys : list string) (lockValue : string)
    (expiryInSeconds now : Z) (locks : gmap string LockData)
  : bool * gmap string LockData :=
  let locks := foldl (dropExpired now) locks keys in
  if existsb (fun key => has key locks) keys then (false, locks)
  else
    let lockData := {| value := lockValue;
                       expiresAt := now + expiryInSeconds * 1000;
                       createdAt := now |} in
    (true, foldl (fun locks key => <[key := lockData]> locks) locks keys).

Definition release (key lockValue : string) (locks : gmap string LockData)
  : bool * gmap string LockData :=
  match locks !! key with
  | Some existing =>
      if decide (value existing = lockValue) then (true, delete key locks)
      else (false, locks)
  | None => (false, locks)
  end.

Definition releaseMultiple (keys : list string) (lockValue : string)
    (locks : gmap string LockData) : Z * gmap string LockData :=
  foldl (fun '(released, locks) key =>
           let '(success, locks) := release key lockValue locks in
           (if success then released + 1 else released, locks))
        (0, locks) keys.

Definition exists_ (key : string) (now : Z) (locks : gmap string LockData)
  : bool * gmap string LockData :=
  match locks !! key with
  | None => (false, locks)
  | Some existing =>
      if expiresAt existing <? now then (false, delete key locks)
      else (true, locks)
  end.

Definition getLockInfo (key : string) (now : Z) (locks : gmap string LockData)
  : option LockInfo.t * gmap string LockData :=
  match locks !! key with
  | None => (None, locks)
  | Some existing =>
      if expiresAt existing <? now then (None, delete key locks)
      else (Some {| LockInfo.key := key;
                    LockInfo.value := value existing;
                    LockInfo.expiresAt := expiresAt existing;
                    LockInfo.createdAt := Some (createdAt existing) |}, locks)
  end.

(** [cleanup()]: deleting the entry a [Map] iteration is at does not
    disturb the iteration, so every expired record goes. *)
Definition cleanup (now : Z) (locks : gmap string LockData) : gmap string LockData :=
  filter (fun kl => ¬ (expiresAt kl.2 < now)) locks.

(** [close()]: [this.locks.clear()]. *)
Definition close (locks : gmap string LockData) : gmap string LockData := ∅.

Definition getLockCount (locks : gmap string LockData) : Z :=
  Z.of_nat (size locks).

Definition getAllLocks (now : Z) (locks : gmap string LockData)
  : gmap string LockInfo.t :=
  map_imap (fun key lock =>
              if now <=? expiresAt lock
              then Some {| LockInfo.key := key;
                           LockInfo.value := value lock;
                           LockInfo.expiresAt := expiresAt lock;
                           LockInfo.createdAt := Some (createdAt lock) |}
              else None) locks.

(** The driver never rejects. *)
#[global] Instance driver : Driver.LockDriver (gmap string LockData) := {|
  Driver.tryAcquire key lockValue expiry now locks :=
    let '(r, locks) := tryAcquire key lockValue expiry now locks in (Return r, locks);
  Driver.tryAcquireMultiple keys lockValue expiry now locks :=
    let '(r, locks) := tryAcquireMultiple keys lockValue expiry now locks in
    (Return r, locks);
  Driver.release key lockValue _ locks :=
    let '(r, locks) := release key lockValue locks in (Return r, locks);
  Driver.releaseMultiple keys lockValue _ locks :=
    let '(n, locks) := releaseMultiple keys lockValue locks in (Return n, locks);
|}.

End MemoryLockDriver.

(** ** The in-memory driver on numbers that are not whole

    [expiryInSeconds] is a JavaScript number: a double. The acquisition
    and the existence check of [MemoryLockDriver] once more, with the
    time to live and the stored expiry as rationals, and with the result
    of an arithmetic operation rounded to a double by [round]. The
    theorems take from IEEE 754 that rounding to the nearest is monotone
    and leaves an integer of magnitude up to [2 ** 53] as it is; an
    overflow to [-Infinity] reads as a number below every clock reading.
    [Date.now()] is an integer below [2 ** 53]. On a whole number of
    seconds the record stored is the one [MemoryLockDriver.tryAcquire]
    stores. *)
Module JsNumber.
(** [x < y] *)
Definition ltb (x y : Q) : bool :=
  match (x ?= y)%Q with Lt => true | _ => false end.

(** [Number.MAX_SAFE_INTEGER + 1] *)
Definition safe : Z := 2 ^ 53.

(** The doubles from [2 ** 40] to [2 ** 41], where [Date.now()] lies from
    2004 to 2039, are the multiples of [2 ** -12]: rounding to the nearest
    of these, a tie upwards. *)
Definition roundGrid (x : Q) : Q :=
  (inject_Z (Qfloor (x * 4096 + (1 # 2))) / 4096)%Q.
End JsNumber.

Module MemoryLockDriverNum.
Record Lock : Type := mkLock {
  value : string;
  expiresAt : Q;
  createdAt : Z;
}.

Section Driver.
(** The double nearest to a number. *)
Variable round : Q → Q.

Definition has (key : string) (locks : gmap string Lock) : bool :=
  match locks !! key with Some _ => true | None => false end.

Definition dropExpired (now : Z) (locks : gmap string Lock) (key : string)
  : gmap string Lock :=
  match locks !! key with
  | Some existing =>
      if JsNumber.ltb (expiresAt existing) (inject_Z now) then delete key locks
      else locks
  | None => locks
  end.

Definition tryAcquire (key lockValue : string) (expiryInSeconds : Q) (now : Z)
    (locks : gmap string Lock) : bool * gmap string Lock :=
  let locks := dropExpired now locks key in
  if has key locks then (false, locks)
  else (true, <[key := {| value := lockValue;
                          expiresAt :=
                            round (inject_Z now + round (expiryInSeconds * 1000))%Q;
                          createdAt := now |}]> locks).

Definition exists_ (key : string) (now : Z) (locks : gmap string Lock)
  : bool * gmap string Lock :=
  match locks !! key with
  | None => (false, locks)
  | Some existing =>
      if JsNumber.ltb (expiresAt existing) (inject_Z now)
      then (false, delete key locks)
      else (true, locks)
  end.
End Driver.
End MemoryLockDriverNum.

(** ** The mocked driver of the coordinator's tests ([describe('AtomicLock')])

    [jest.fn()] with [mockResolvedValue] / [mockRejectedValue]: every call of
    a method completes the way the test set it up, whatever the arguments. *)
Module MockDriver.
Record t : Type := mk {
  onTryAcquire : Completion bool;
  onTryAcquireMultiple : Completion bool;
  onRelease : Completion bool;
  onReleaseMultiple : Completion Z;
}.

#[global] Instance driver : Driver.LockDriver t := {|
  Driver.tryAcquire _ _ _ _ d := (onTryAcquire d, d);
  Driver.tryAcquireMultiple _ _ _ _ d := (onTryAcquireMultiple d, d);
  Driver.release _ _ _ d := (onRelease d, d);
  Driver.releaseMultiple _ _ _ d := (onReleaseMultiple d, d);
|}.
End MockDriver.

(** ** The file driver ([class FileLockDriver]) *)

(** The lock directory: a file holds either the JSON of a lock record, as
    the driver writes it, or something [JSON.parse] makes no lock record
    of. The directory is taken to exist and to be writable, so the only
    error [writeFile] raises is [EEXIST] and the only one [readFile] and
    [unlink] raise is [ENOENT]. *)
Module Fs.
Inductive FileContent : Type :=
  | Garbage
  | Json (lock : LockData).

Definition readFile (path : string) (fs : gmap string FileContent)
  : Completion FileContent :=
  match fs !! path with
  | Some content => Return content
  | None => Throw (SysError "ENOENT")
  end.

(** [fs.writeFile(path, data, { flag: 'wx' })]: exclusive creation. *)
Definition writeFileWx (path : string) (content : FileContent)
    (fs : gmap string FileContent) : Completion unit * gmap string FileContent :=
  match fs !! path with
  | Some _ => (Throw (SysError "EEXIST"), fs)
  | None => (Return (), <[path := content]> fs)
  end.

Definition unlink (path : string) (fs : gmap string FileContent)
  : Completion unit * gmap string FileContent :=
  match fs !! path with
  | Some _ => (Return (), delete path fs)
  | None => (Throw (SysError "ENOENT"), fs)
  end.

(** The lock directory itself as the resolution of a path meets it. The
    constructor of the driver does not wait for [mkdir] and ignores its
    error, so the directory may be missing, not a directory, or not
    searchable: then every call on a path below it fails with that
    error. Of the driver's methods only [tryAcquire] lets such an error
    out; the others catch it and answer [false], [0] or [null]. *)
Inductive DirError : Type := ENOENT | ENOTDIR | EACCES.

Definition errorCode (error : DirError) : string :=
  match error with
  | ENOENT => "ENOENT"
  | ENOTDIR => "ENOTDIR"
  | EACCES => "EACCES"
  end.

Inductive Dir : Type :=
  | Usable
  | Unusable (error : DirError).

(** [fs.writeFile(path, data, { flag: 'wx' })] below a directory. *)
Definition writeFile (dir : Dir) (path : string) (content : FileContent)
    (fs : gmap string FileContent) : Completion unit * gmap string FileContent :=
  match dir with
  | Usable => writeFileWx path content fs
  | Unusable error => (Throw (SysError (errorCode error)), fs)
  end.
End Fs.

Module FileLockDriver.
Import Fs.

Definition MAX_FILENAME_LENGTH : nat := 200.

(** The character class [[a-zA-Z0-9-_]]. *)
Definition isNameChar (c : ascii) : bool :=
  let n := nat_of_ascii c in
  ((48 <=? n) && (n <=? 57) || (65 <=? n) && (n <=? 90)
   || (97 <=? n) && (n <=? 122) || (n =? 45) || (n =? 95))%nat.

(** [key.replace(/[^a-zA-Z0-9-_]/g, '_')] *)
Fixpoint sanitize (key : string) : string :=
  match key with
  | EmptyString => EmptyString
  | String c rest => String (if isNameChar c then c else "_"%char) (sanitize rest)
  end.

Section Driver.
(** [config.lockDir], and [crypto]'s SHA-256 in hexadecimal. *)
Variable lockDir : string.
Variable sha256Hex : string → string.

(** [path.join(this.lockDir, name)] *)
Definition pathJoin (name : string) : string := lockDir +:+ "/" +:+ name.

Definition getLockPath (key : string) : string :=
  let sanitized := sanitize key in
  if (MAX_FILENAME_LENGTH <? String.length sanitized)%nat then
    let hash := sha256Hex key in
    let prefix := String.substring 0 20 sanitized in
    let filename := prefix +:+ "_" +:+ hash in
    pathJoin (filename +:+ ".lock")
  else pathJoin (sanitized +:+ ".lock").

(** [readFile] then [JSON.parse]; any error gives [null]. *)
Definition readLockFile (lockPath : string) (fs : gmap string FileContent)
  : option LockData :=
  match readFile lockPath fs with
  | Return (Json lock) => Some lock
  | Return Garbage => None
  | Throw _ => None
  end.

(** The second loop of [tryAcquireMultiple]: create the files one by
    one, remembering those created, until a creation fails. *)
Fixpoint createAll (lockPaths : list string) (lockData : LockData)
    (acquired : list string) (fs : gmap string FileContent)
  : Completion unit * list string * gmap string FileContent :=
  match lockPaths with
  | [] => (Return (), acquired, fs)
  | lockPath :: rest =>
      match writeFileWx lockPath (Json lockData) fs with
      | (Return _, fs) => createAll rest lockData (acquired ++ [lockPath]) fs
      | (Throw e, fs) => (Throw e, acquired, fs)
      end
  end.

(** The rollback loop: [unlink] each created file, ignoring errors. *)
Definition rollback (acquired : list string) (fs : gmap string FileContent)
  : gmap string FileContent :=
  foldl (fun fs acquiredPath => (unlink acquiredPath fs).2) fs acquired.

Definition tryAcquireMultiple (keys : list string) (lockValue : string)
    (expiryInSeconds now : Z) (fs : gmap string FileContent)
  : bool * gmap string FileContent :=
  let lockPaths := getLockPath <$> keys in
  let lockData := {| value := lockValue;
                     expiresAt := now + expiryInSeconds * 1000;
                     createdAt := now |} in
  if existsb (fun lockPath =>
                match readLockFile lockPath fs with
                | Some existing => now <=? expiresAt existing
                | None => false
                end) lockPaths
  then (false, fs)
  else
    match createAll lockPaths lockData [] fs with
    | (Return _, _, fs) => (true, fs)
    | (Throw _, acquired, fs) => (false, rollback acquired fs)
    end.

Definition release (key lockValue : string) (fs : gmap string FileContent)
  : bool * gmap string FileContent :=
  let lockPath := getLockPath key in
  match readLockFile lockPath fs with
  | Some existing =>
      if decide (value existing = lockValue) then
        match unlink lockPath fs with
        | (Return _, fs) => (true, fs)
        | (Throw _, fs) => (false, fs)
        end
      else (false, fs)
  | None => (false, fs)
  end.

(** [tryAcquire] calls itself once it has removed an expired file;
    [fuel] bounds the depth of these calls. [dir] is the state of the
    lock directory. *)
Fixpoint tryAcquire (dir : Dir) (fuel : nat) (key lockValue : string)
    (expiryInSeconds now : Z) (fs : gmap string FileContent)
  : option (Completion bool * gmap string FileContent) :=
  match fuel with
  | O => None
  | S fuel =>
      let lockPath := getLockPath key in
      let lockData := {| value := lockValue;
                         expiresAt := now + expiryInSeconds * 1000;
                         createdAt := now |} in
      match writeFile dir lockPath (Json lockData) fs with
      | (Return _, fs) => Some (Return true, fs)
      | (Throw (SysError code), fs) =>
          if decide (code = "EEXIST") then
            match readLockFile lockPath fs with
            | Some existing =>
                if expiresAt existing <? now then
                  match unlink lockPath fs with
                  | (Return _, fs) =>
                      tryAcquire dir fuel key lockValue expiryInSeconds now fs
                  | (Throw _, fs) => Some (Return false, fs)
                  end
                else Some (Return false, fs)
            | None => Some (Return false, fs)
            end
          else Some (Throw (SysError code), fs)
      | (Throw error, fs) => Some (Throw error, fs)
      end
  end.

Definition releaseMultiple (keys : list string) (lockValue : string)
    (fs : gmap string FileContent) : Z * gmap string FileContent :=
  foldl (fun '(released, fs) key =>
           let '(success, fs) := release key lockValue fs in
           (if success then released + 1 else released, fs))
        (0, fs) keys.

Definition exists_ (key : string) (now : Z) (fs : gmap string FileContent) : bool :=
  match readLockFile (getLockPath key) fs with
  | Some existing => now <=? expiresAt existing
  | None => false
  end.

Definition getLockInfo (key : string) (fs : gmap string FileContent)
  : option LockInfo.t :=
  match readLockFile (getLockPath key) fs with
  | None => None
  | Some fileLock =>
      Some {| LockInfo.key := key;
              LockInfo.value := value fileLock;
              LockInfo.expiresAt := expiresAt fileLock;
              LockInfo.createdAt := Some (createdAt fileLock) |}
  end.
End Driver.
End FileLockDriver.

(** ** The SQLite driver ([class SQLiteLockDriver]) *)

(** The table [atomic_locks]: one row per [lock_key], its primary key. *)
Module SQLiteLockDriver.
Record Row : Type := mkRow {
  lock_value : string;
  expires_at : Z;
  created_at : Z;
}.

(** [DELETE FROM t WHERE lock_key IN (keys) AND expires_at < now] *)
Definition deleteExpiredIn (keys : list string) (now : Z) (table : gmap string Row)
  : gmap string Row :=
  filter (fun kr => ¬ (kr.1 ∈ keys ∧ expires_at kr.2 < now)) table.

(** [SELECT COUNT( * ) FROM t WHERE lock_key IN (keys) AND expires_at >= now] *)
Definition countLiveIn (keys : list string) (now : Z) (table : gmap string Row) : Z :=
  Z.of_nat (size (filter (fun kr => kr.1 ∈ keys ∧ now ≤ expires_at kr.2) table)).

(** [INSERT INTO t VALUES (...)]: a second row for a key violates the
    primary key. *)
Definition insertRow (key : string) (row : Row) (table : gmap string Row)
  : Completion unit * gmap string Row :=
  match table !! key with
  | Some _ => (Throw (SysError "SQLITE_CONSTRAINT_PRIMARYKEY"), table)
  | None => (Return (), <[key := row]> table)
  end.

Fixpoint insertAll (keys : list string) (row : Row) (table : gmap string Row)
  : Completion unit * gmap string Row :=
  match keys with
  | [] => (Return (), table)
  | key :: rest =>
      match insertRow key row table with
      | (Return _, table) => insertAll rest row table
      | (Throw e, table) => (Throw e, table)
      end
  end.

(** [db.transaction(fn)()] commits what [fn] did when it returns, and
    restores the table and rethrows when it throws. *)
Definition tryAcquireMultiple (keys : list string) (lockValue : string)
    (expiryInSeconds now : Z) (table : gmap string Row)
  : Completion bool * gmap string Row :=
  let expiresAt := now + expiryInSeconds * 1000 in
  let createdAt := now in
  let cleaned := deleteExpiredIn keys now table in
  if 0 <? countLiveIn keys now cleaned then (Return false, cleaned)
  else
    match insertAll keys (mkRow lockValue expiresAt createdAt) cleaned with
    | (Return _, table') => (Return true, table')
    | (Throw e, _) => (Throw e, table)
    end.

(** [DELETE FROM t WHERE lock_key = key AND expires_at < now] *)
Definition deleteExpiredOf (key : string) (now : Z) (table : gmap string Row)
  : gmap string Row :=
  filter (fun kr => ¬ (kr.1 = key ∧ expires_at kr.2 < now)) table.

(** The single-key acquisition runs outside any transaction: the
    clean-up stays whatever the insertion does. *)
Definition tryAcquire (key lockValue : string) (expiryInSeconds now : Z)
    (table : gmap string Row) : Completion bool * gmap string Row :=
  let expiresAt := now + expiryInSeconds * 1000 in
  let createdAt := now in
  let table := deleteExpiredOf key now table in
  match insertRow key (mkRow lockValue expiresAt createdAt) table with
  | (Return _, table) => (Return true, table)
  | (Throw (SysError code), table) =>
      if decide (code = "SQLITE_CONSTRAINT_PRIMARYKEY") then (Return false, table)
      else (Throw (SysError code), table)
  | (Throw error, table) => (Throw error, table)
  end.

(** [DELETE FROM t WHERE lock_key = key AND lock_value = lockValue];
    [result.changes] is the number of rows deleted. *)
Definition release (key lockValue : string) (table : gmap string Row)
  : bool * gmap string Row :=
  let table' := filter (fun kr => ¬ (kr.1 = key ∧ lock_value kr.2 = lockValue)) table in
  let changes := Z.of_nat (size table) - Z.of_nat (size table') in
  (0 <? changes, table').

(** [DELETE FROM t WHERE lock_key IN (keys) AND lock_value = lockValue] *)
Definition releaseMultiple (keys : list string) (lockValue : string)
    (table : gmap string Row) : Z * gmap string Row :=
  let table' := filter (fun kr => ¬ (kr.1 ∈ keys ∧ lock_value kr.2 = lockValue)) table in
  let changes := Z.of_nat (size table) - Z.of_nat (size table') in
  (changes, table').

(** The clean-up statement, then
    [SELECT 1 FROM t WHERE lock_key = key AND expires_at >= now]. *)
Definition exists_ (key : string) (now : Z) (table : gmap string Row)
  : bool * gmap string Row :=
  let table := deleteExpiredOf key now table in
  (match table !! key with
   | Some row => now <=? expires_at row
   | None => false
   end, table).

(** The row [getLockInfo] selects: its columns are aliased to [value],
    [expiresAt] and [createdAt]; the key is not among them. *)
Module Selected.
Record t : Type := mk {
  value : string;
  expiresAt : Z;
  createdAt : Z;
}.
End Selected.

Definition getLockInfo (key : string) (now : Z) (table : gmap string Row)
  : option Selected.t :=
  match table !! key with
  | Some row =>
      if now <=? expires_at row
      then Some (Selected.mk (lock_value row) (expires_at row) (created_at row))
      else None
  | None => None
  end.

(** [DELETE FROM t WHERE expires_at < now] *)
Definition cleanup (now : Z) (table : gmap string Row) : gmap string Row :=
  filter (fun kr => ¬ (expires_at kr.2 < now)) table.
End SQLiteLockDriver.

(** ** One store, two representations

    What the memory driver keeps for a key is what the SQLite driver keeps
    in the key's row: [tableOf locks] is the table that holds the records
    of [locks]. Every table is one of these. *)
Module Stored.
Definition rowOf (lock : LockData) : SQLiteLockDriver.Row :=
  SQLiteLockDriver.mkRow (value lock) (expiresAt lock) (createdAt lock).

Definition tableOf (locks : gmap string LockData) : gmap string SQLiteLockDriver.Row :=
  rowOf <$> locks.
End Stored.

(** ** The Redis driver's multi-key acquisition ([class RedisLockDriver]) *)

(** The two commands the acquisition script calls, over a keyspace that
    maps a key to its value and the instant it expires; a key past that
    instant is gone. *)
Module Redis.
Definition EXISTS (key : string) (now : Z) (db : gmap string (string * Z)) : Z :=
  match db !! key with
  | Some entry => if now <? entry.2 then 1 else 0
  | None => 0
  end.

(** [SET key value EX seconds]: a time to live must be positive. *)
Definition SET_EX (key value : string) (seconds now : Z) (db : gmap string (string * Z))
  : Completion unit * gmap string (string * Z) :=
  if seconds <=? 0
  then (Throw (Error "ERR invalid expire time in 'set' command"), db)
  else (Return (), <[key := (value, now + seconds * 1000)]> db).
End Redis.

Module RedisLockDriver.
(** The second loop of the script; an error of a command ends the script. *)
Fixpoint setAll (keys : list string) (value : string) (expiry now : Z)
    (db : gmap string (string * Z)) : Completion unit * gmap string (string * Z) :=
  match keys with
  | [] => (Return (), db)
  | key :: rest =>
      match Redis.SET_EX key value expiry now db with
      | (Return _, db) => setAll rest value expiry now db
      | (Throw e, db) => (Throw e, db)
      end
  end.

(** The Lua script of [tryAcquireMultiple]. *)
Definition acquireScript (keys : list string) (value : string) (expiry now : Z)
    (db : gmap string (string * Z)) : Completion Z * gmap string (string * Z) :=
  if existsb (fun key => Redis.EXISTS key now db =? 1) keys then (Return 0, db)
  else
    match setAll keys value expiry now db with
    | (Return _, db) => (Return 1, db)
    | (Throw e, db) => (Throw e, db)
    end.

Definition tryAcquireMultiple (keys : list string) (lockValue : string)
    (expiryInSeconds now : Z) (db : gmap string (string * Z))
  : Completion bool * gmap string (string * Z) :=
  match acquireScript keys lockValue expiryInSeconds now db with
  | (Return result, db) => (Return (result =? 1), db)
  | (Throw e, db) => (Throw e, db)
  end.
End RedisLockDriver.

(** ** The coordinator ([class AtomicLock]) *)

Module LockOptions.
Record t : Type := mk {
  expiryInSeconds : option Z;
  maxRetries : option Z;
  circuitBreakerThreshold : option Z;
  circuitBreakerResetTime : option Z;
  maxFailureEntries : option Z;
}.

(** [{}] *)
Definition none : t := mk None None None None None.
End LockOptions.

Module CircuitBreakerStats.
Record t : Type := mk {
  isOpen : bool;
  failureCount : Z;
  lastFailure : option Z;
  nextAttemptAt : option Z;
}.
End CircuitBreakerStats.

(** The value type of [lockFailures]. *)
Record Failure : Type := mkFailure {
  count : Z;
  lastFailure : Z;
}.

(** A call into the driver, as a test spy would record it. *)
Inductive DriverCall : Type :=
  | CallTryAcquire (key lockValue : string) (expiryInSeconds : Z)
  | CallRelease (key lockValue : string).

(** The tokens the driver was asked to store, oldest first. *)
Fixpoint acquireTokens (log : list DriverCall) : list string :=
  match log with
  | [] => []
  | CallTryAcquire _ lockValue _ :: log => lockValue :: acquireTokens log
  | CallRelease _ _ :: log => acquireTokens log
  end.

Module AtomicLock.

(** The fields of an [AtomicLock] over a driver with state [D], together
    with what its methods read from their environment: the clock, the
    number of identifiers [uuidv4] has handed out, and (a ghost field
    no method reads) the log of the calls made into the driver, oldest
    first. *)
Record State (D : Type) : Type := mkState {
  dateNow : Z;
  uuidDrawn : nat;
  driverCalls : list DriverCall;
  driver : D;
  lockFailures : list (string * Failure);
  circuitBreakerThreshold : Z;
  circuitBreakerResetTime : Z;
  maxFailureEntries : Z;
  lastCleanup : Z;
}.
Arguments mkState {D}.
Arguments dateNow {D}.
Arguments uuidDrawn {D}.
Arguments driverCalls {D}.
Arguments driver {D}.
Arguments lockFailures {D}.
Arguments circuitBreakerThreshold {D}.
Arguments circuitBreakerResetTime {D}.
Arguments maxFailureEntries {D}.
Arguments lastCleanup {D}.

(** What a caller does with a coordinator: one of its public methods that
    take no callback, or nothing while the clock moves to a new reading. *)
Inductive Call : Type :=
  | DoTryAcquire (key : string) (options : LockOptions.t)
  | DoAcquire (key : string) (options : LockOptions.t)
  | DoRelease (key lockValue : string)
  | DoClose
  | Tick (now : Z).

Section Coordinator.
Context {D : Type} `{!Driver.LockDriver D}.

(** [uuidv4()]: the [n]-th identifier the generator hands out. *)
Variable uuidv4 : nat → string.

Definition withClock (now : Z) (s : State D) : State D :=
  mkState now (uuidDrawn s) (driverCalls s) (driver s) (lockFailures s)
    (circuitBreakerThreshold s) (circuitBreakerResetTime s)
    (maxFailureEntries s) (lastCleanup s).

Definition withUuidDrawn (n : nat) (s : State D) : State D :=
  mkState (dateNow s) n (driverCalls s) (driver s) (lockFailures s)
    (circuitBreakerThreshold s) (circuitBreakerResetTime s)
    (maxFailureEntries s) (lastCleanup s).

(** The driver after a call, and the call logged. *)
Definition withDriver (call : DriverCall) (d : D) (s : State D) : State D :=
  mkState (dateNow s) (uuidDrawn s) (driverCalls s ++ [call]) d (lockFailures s)
    (circuitBreakerThreshold s) (circuitBreakerResetTime s)
    (maxFailureEntries s) (lastCleanup s).

Definition withLockFailures (m : list (string * Failure)) (s : State D) : State D :=
  mkState (dateNow s) (uuidDrawn s) (driverCalls s) (driver s) m
    (circuitBreakerThreshold s) (circuitBreakerResetTime s)
    (maxFailureEntries s) (lastCleanup s).

Definition withLastCleanup (t : Z) (s : State D) : State D :=
  mkState (dateNow s) (uuidDrawn s) (driverCalls s) (driver s) (lockFailures s)
    (circuitBreakerThreshold s) (circuitBreakerResetTime s)
    (maxFailureEntries s) t.

(** *** Asynchronous methods: state passing with completions *)

Definition M (A : Type) : Type := State D → Completion A * State D.

Definition ret {A} (a : A) : M A := fun s => (Return a, s).

Definition throw {A} (e : JsError) : M A := fun s => (Throw e, s).

(** [const x = await m; k x] *)
Definition bind {A B} (m : M A) (k : A → M B) : M B := fun s =>
  match m s with
  | (Return a, s') => k a s'
  | (Throw e, s') => (Throw e, s')
  end.

(** [try { body } catch (error) { handler(error) }] *)
Definition tryCatch {A} (body : M A) (handler : JsError → M A) : M A := fun s =>
  match body s with
  | (Return a, s') => (Return a, s')
  | (Throw e, s') => handler e s'
  end.

(** [try { body } finally { finalizer }]: the finalizer runs on both
    exits of the body; the body's completion stands unless the
    finalizer itself throws. *)
Definition tryFinally {A B} (body : M A) (finalizer : M B) : M A := fun s =>
  let '(completion, s') := body s in
  match finalizer s' with
  | (Return _, s'') => (completion, s'')
  | (Throw e, s'') => (Throw e, s'')
  end.

(** A synchronous, void method. *)
Definition run (f : State D → State D) : M unit := fun s => (Return (), f s).

Notation "'let*' x := m 'in' k" := (bind m (fun x => k))
  (at level 10, x name, m at level 100, k at level 200, only parsing).

(** *** Calls into [this.driver] *)

Definition driverTryAcquire (key lockValue : string) (expiryInSeconds : Z) : M bool :=
  fun s =>
    let '(completion, d) :=
      Driver.tryAcquire key lockValue expiryInSeconds (dateNow s) (driver s) in
    (completion, withDriver (CallTryAcquire key lockValue expiryInSeconds) d s).

Definition driverRelease (key lockValue : string) : M bool :=
  fun s =>
    let '(completion, d) := Driver.release key lockValue (dateNow s) (driver s) in
    (completion, withDriver (CallRelease key lockValue) d s).

(** *** The class *)

(** [new AtomicLock(config, options)], the driver [createDriver] built
    being [d] and the construction happening at [now]. *)
Definition create (d : D) (options : LockOptions.t) (now : Z) : State D :=
  {| dateNow := now;
     uuidDrawn := 0;
     driverCalls := [];
     driver := d;
     lockFailures := [];
     circuitBreakerThreshold := default 5 (LockOptions.circuitBreakerThreshold options);
     circuitBreakerResetTime := default 30000 (LockOptions.circuitBreakerResetTime options);
     maxFailureEntries := default 1000 (LockOptions.maxFailureEntries options);
     lastCleanup := now |}.

Definition generateLockValue : M string := fun s =>
  (Return (uuidv4 (uuidDrawn s)), withUuidDrawn (S (uuidDrawn s)) s).

Definition isCircuitOpen (key : string) (s : State D) : bool :=
  match JsMap.get key (lockFailures s) with
  | None => false
  | Some failure =>
      let isOverThreshold := circuitBreakerThreshold s <=? count failure in
      let isWithinResetTime :=
        dateNow s - lastFailure failure <? circuitBreakerResetTime s in
      isOverThreshold && isWithinResetTime
  end.

Definition getCircuitBreakerStatus (key : string) (s : State D)
  : CircuitBreakerStats.t :=
  let failure := JsMap.get key (lockFailures s) in
  let isOpen := isCircuitOpen key s in
  {| CircuitBreakerStats.isOpen := isOpen;
     CircuitBreakerStats.failureCount := default 0 (count <$> failure);
     CircuitBreakerStats.lastFailure := lastFailure <$> failure;
     CircuitBreakerStats.nextAttemptAt :=
       (fun f => lastFailure f + circuitBreakerResetTime s) <$> failure |}.

Definition cleanupFailureRecords (s : State D) : State D :=
  let now := dateNow s in
  withLockFailures
    (JsMap.sweep
       (fun failure => circuitBreakerResetTime s <? now - lastFailure failure)
       (lockFailures s)) s.

(** The two maintenance steps of [recordLockFailure], then the upsert. *)
Definition maybeCleanup (s : State D) : State D :=
  let now := dateNow s in
  if 60000 <? now - lastCleanup s
  then withLastCleanup now (cleanupFailureRecords s)
  else s.

Definition evictOldest (s : State D) : State D :=
  if maxFailureEntries s <=? JsMap.size (lockFailures s) then
    let oldestKeys := take 100 (JsMap.keys (lockFailures s)) in
    withLockFailures (JsMap.deleteAll oldestKeys (lockFailures s)) s
  else s.

Definition upsertFailure (key : string) (s : State D) : State D :=
  let now := dateNow s in
  match JsMap.get key (lockFailures s) with
  | Some existing =>
      let count' :=
        if circuitBreakerResetTime s <? now - lastFailure existing
        then 1 else count existing + 1 in
      withLockFailures
        (JsMap.set key {| count := count'; lastFailure := now |} (lockFailures s)) s
  | None =>
      withLockFailures
        (JsMap.set key {| count := 1; lastFailure := now |} (lockFailures s)) s
  end.

Definition recordLockFailure (key : string) (s : State D) : State D :=
  upsertFailure key (evictOldest (maybeCleanup s)).

Definition tryAcquire (key : string) (options : LockOptions.t) : M (option string) :=
  let expiryInSeconds := default 10 (LockOptions.expiryInSeconds options) in
  fun s =>
    if isCircuitOpen key s then ret None s
    else
      (let* lockValue := generateLockValue in
       tryCatch
         (let* acquired := driverTryAcquire key lockValue expiryInSeconds in
          if (acquired : bool) then
            let* _ := run (fun s => withLockFailures (JsMap.delete key (lockFailures s)) s) in
            ret (Some lockValue)
          else ret None)
         (fun error =>
            let* _ := run (recordLockFailure key) in
            ret None)) s.

(** [!lockValue] holds of [null] and of the empty string. *)
Definition acquire (key : string) (options : LockOptions.t) : M string :=
  let* lockValue := tryAcquire key options in
  match lockValue with
  | Some v =>
      if decide (v = "") then throw (Error ("Failed to acquire lock for key: " +:+ key))
      else ret v
  | None => throw (Error ("Failed to acquire lock for key: " +:+ key))
  end.

(** The handler also writes the error to the console. *)
Definition release (key lockValue : string) : M bool :=
  tryCatch (driverRelease key lockValue) (fun error => ret false).

Definition withLock {T} (key : string) (callback : string → M T)
    (options : LockOptions.t) : M T :=
  let* lockValue := acquire key options in
  tryFinally (callback lockValue) (release key lockValue).

Definition close : M unit := run (withLockFailures []).

(** A sequence of [recordLockFailure(key)] calls, the [i]-th made when
    the clock reads [now] for the [i]-th pair [(key, now)]: the states
    after each call. *)
Fixpoint recordAll (calls : list (string * Z)) (s : State D) : list (State D) :=
  match calls with
  | [] => []
  | (key, now) :: rest =>
      let s' := recordLockFailure key (withClock now s) in
      s' :: recordAll rest s'
  end.

(** The state a call leaves, whatever it returned or threw. *)
Definition call (c : Call) (s : State D) : State D :=
  match c with
  | DoTryAcquire key options => (tryAcquire key options s).2
  | DoAcquire key options => (acquire key options s).2
  | DoRelease key lockValue => (release key lockValue s).2
  | DoClose => (close s).2
  | Tick now => withClock now s
  end.

Definition calls (cs : list Call) (s : State D) : State D := foldl (fun s c => call c s) s cs.

End Coordinator.

(** *** The members the class declares *)

Inductive Visibility : Type := Public | Private.

Definition members : list (string * Visibility) :=
  [ ("withLock", Public);
    ("driver", Private);
    ("lockFailures", Private);
    ("circuitBreakerThreshold", Private);
    ("circuitBreakerResetTime", Private);
    ("maxFailureEntries", Private);
    ("lastCleanup", Private);
    ("constructor", Public);
    ("createDriver", Private);
    ("tryAcquire", Public);
    ("acquire", Public);
    ("release", Public);
    ("getCircuitBreakerStatus", Public);
    ("isCircuitOpen", Private);
    ("recordLockFailure", Private);
    ("cleanupFailureRecords", Private);
    ("generateLockValue", Private);
    ("close", Public) ].

(** Whether a caller of the class may use [lock.name]: the class declares
    the member and does not mark it [private]. *)
Definition exposes (name : string) : bool :=
  match JsMap.get name members with
  | Some Public => true
  | Some Private | None => false
  end.

End AtomicLock.

(** ** Concrete instances used below *)
Module Sample.
Import AtomicLock.

(** An identifier generator: [uuid-0], [uuid-1], ... *)
Definition uuid (n : nat) : string := "uuid-" +:+ pretty n.

Definition record (v : string) (expires created : Z) : LockData :=
  {| value := v; expiresAt := expires; createdAt := created |}.

(** A coordinator over the memory driver, built at time 1000, whose
    driver already holds ["r"] for ["T1"] until 6000. *)
Definition held : State (gmap string LockData) :=
  create {[ "r" := record "T1" 6000 1000 ]} LockOptions.none 1000.

(** A coordinator over a mocked driver whose [tryAcquire] rejects. *)
Definition failing : State MockDriver.t :=
  create (MockDriver.mk (Throw (Error "Driver error")) (Return true)
            (Return true) (Return 0))
         LockOptions.none 1000.

(** A coordinator that keeps at most two failure records. *)
Definition small : State (gmap string LockData) :=
  create ∅ (LockOptions.mk None None None None (Some 2)) 1000.

(** A coordinator with threshold 3 whose key ["k"] has failed three
    times, the last time at 1500; the clock reads 2000. *)
Definition tripped : State MockDriver.t :=
  {| dateNow := 2000;
     uuidDrawn := 3;
     driverCalls := [];
     driver := MockDriver.mk (Return true) (Return true) (Return true) (Return 0);
     lockFailures := [("k", {| count := 3; lastFailure := 1500 |})];
     circuitBreakerThreshold := 3;
     circuitBreakerResetTime := 30000;
     maxFailureEntries := 1000;
     lastCleanup := 1000 |}.

(** The file driver's configuration. *)
Definition lockDir : string := "/tmp/locks".
Definition noHash (key : string) : string := "".
End Sample.

(** * Facts about the insertion-ordered map *)
Module JsMapFacts.
Import JsMap.

Section Facts.
Context {V : Type}.
Implicit Types (m : list (string * V)) (k : string) (v : V).

Lemma get_set_eq k v m : get k (set k v m) = Some v.
Proof.
  induction m as [|[k' v'] m IH]; simpl.
  - by rewrite decide_True.
  - destruct (decide (k' = k)) as [->|Hne]; simpl.
    + by rewrite decide_True.
    + by rewrite decide_False.
Qed.

Lemma get_set_ne k k' v m : k ≠ k' → get k' (set k v m) = get k' m.
Proof.
  intros Hne. induction m as [|[k0 v0] m IH]; simpl.
  - by rewrite decide_False.
  - destruct (decide (k0 = k)) as [->|Hk0]; simpl.
    + by rewrite !decide_False.
    + destruct (decide (k0 = k')); [done | apply IH].
Qed.

Lemma get_delete_eq k m : get k (delete k m) = None.
Proof.
  induction m as [|[k' v'] m IH]; simpl; [done|].
  destruct (decide (k' = k)) as [->|Hne]; simpl; [done|].
  by rewrite decide_False.
Qed.

Lemma get_delete_ne k k' m : k ≠ k' → get k' (delete k m) = get k' m.
Proof.
  intros Hne. induction m as [|[k0 v0] m IH]; simpl; [done|].
  destruct (decide (k0 = k)) as [->|Hk0]; simpl.
  - by rewrite decide_False.
  - by rewrite IH.
Qed.

Lemma get_None_keys k m : get k m = None ↔ k ∉ keys m.
Proof.
  unfold keys. induction m as [|[k' v'] m IH]; simpl.
  - split; [intros _; apply not_elem_of_nil | done].
  - rewrite not_elem_of_cons. destruct (decide (k' = k)) as [->|Hne].
    + split; [done | intros [? _]; done].
    + rewrite IH. split; [intros ?; split; [by intros -> | done] | intros [_ ?]; done].
Qed.

Lemma get_Some_keys k v m : get k m = Some v → k ∈ keys m.
Proof.
  intros Hget. destruct (decide (k ∈ keys m)) as [|Hn]; [done|].
  apply get_None_keys in Hn. congruence.
Qed.

Lemma delete_notin k m : k ∉ keys m → delete k m = m.
Proof.
  unfold keys. induction m as [|[k' v'] m IH]; simpl; [done|].
  rewrite not_elem_of_cons. intros [Hne Hnin].
  rewrite decide_False; [|done]. by rewrite IH.
Qed.

Lemma keys_delete_subseteq k m : keys (delete k m) ⊆ keys m.
Proof.
  unfold keys. induction m as [|[k' v'] m IH]; simpl; [done|].
  destruct (decide (k' = k)); simpl.
  - by apply list_subseteq_cons.
  - by apply list_subseteq_skip.
Qed.

Lemma length_delete k m : (length (delete k m) ≤ length m)%nat.
Proof.
  induction m as [|[k' v'] m IH]; simpl; [done|].
  destruct (decide (k' = k)); simpl; lia.
Qed.

Lemma wf_delete k m : wf m → wf (delete k m).
Proof.
  unfold wf, keys. induction m as [|[k' v'] m IH]; simpl; [done|].
  rewrite NoDup_cons. intros [Hnin Hnd].
  destruct (decide (k' = k)); simpl; [by apply IH|].
  apply NoDup_cons. split; [|by apply IH].
  intros Hin. apply Hnin. by apply (keys_delete_subseteq k m).
Qed.

Lemma keys_set k v m :
  keys (set k v m) = if decide (k ∈ keys m) then keys m else keys m ++ [k].
Proof.
  unfold keys. induction m as [|[k' v'] m IH].
  - case_decide as Hin; [by apply elem_of_nil in Hin | done].
  - cbn [set]. destruct (decide (k' = k)) as [->|Hne].
    + rewrite !fmap_cons. cbn [fst]. rewrite decide_True; [done | by left].
    + rewrite !fmap_cons, IH. cbn [fst].
      destruct (decide (k ∈ m.*1)) as [Hin|Hnin].
      * rewrite decide_True; [done | by right].
      * rewrite decide_False; [done|].
        rewrite not_elem_of_cons. split; [by intros -> | done].
Qed.

Lemma wf_set k v m : wf m → wf (set k v m).
Proof.
  unfold wf. rewrite keys_set. intros Hnd.
  case_decide; [done|].
  apply NoDup_app. split_and!; [done | | apply NoDup_singleton].
  intros x Hx Hx'. apply list_elem_of_singleton in Hx'. by subst.
Qed.

Lemma length_set k v m :
  length (set k v m) = if has k m then length m else S (length m).
Proof.
  unfold has. induction m as [|[k' v'] m IH]; simpl; [done|].
  destruct (decide (k' = k)); simpl; [done|].
  rewrite IH. by destruct (get k m).
Qed.

Lemma get_sweep_Some stale k v m :
  get k (sweep stale m) = Some v → stale v = false.
Proof.
  induction m as [|[k' v'] m IH]; simpl; [done|].
  destruct (stale v') eqn:Hs; [done|]. simpl.
  destruct (decide (k' = k)); [congruence | done].
Qed.

Lemma keys_sweep_sublist stale m : keys (sweep stale m) `sublist_of` keys m.
Proof.
  unfold keys. induction m as [|[k' v'] m IH]; simpl; [done|].
  destruct (stale v'); simpl; [by apply sublist_cons | by apply sublist_skip].
Qed.

Lemma wf_sweep stale m : wf m → wf (sweep stale m).
Proof. unfold wf. intros Hnd. eapply sublist_NoDup; [done | apply keys_sweep_sublist]. Qed.

Lemma length_sweep stale m : (length (sweep stale m) ≤ length m)%nat.
Proof.
  induction m as [|[k' v'] m IH]; simpl; [done|].
  destruct (stale v'); simpl; lia.
Qed.

Lemma get_sweep_inv stale k v m :
  wf m → get k (sweep stale m) = Some v → get k m = Some v.
Proof.
  unfold wf, keys. induction m as [|[k' v'] m IH]; simpl; [done|].
  rewrite NoDup_cons. intros [Hnin Hnd] Hget.
  destruct (stale v') eqn:Hs; simpl in Hget.
  - destruct (decide (k' = k)) as [->|Hne]; [|by apply IH].
    exfalso. apply Hnin. apply (get_Some_keys _ v).
    by apply IH.
  - destruct (decide (k' = k)); [done | by apply IH].
Qed.

(** Deleting the [n] oldest keys one by one drops the first [n] entries
    and keeps the others, in their order. *)
Lemma deleteAll_oldest n m :
  wf m → deleteAll (take n (keys m)) m = drop n m.
Proof.
  unfold wf, keys, deleteAll. revert m.
  induction n as [|n IH]; intros m Hnd; [done|].
  destruct m as [|[k v] m]; simpl; [done|].
  apply NoDup_cons in Hnd as [Hnin Hnd].
  rewrite decide_True; [|done].
  rewrite delete_notin; [|done]. by apply IH.
Qed.

Lemma get_drop_inv n k v m : wf m → get k (drop n m) = Some v → get k m = Some v.
Proof.
  unfold wf, keys. revert m. induction n as [|n IH]; intros m Hnd; [done|].
  destruct m as [|[k' v'] m]; simpl; [done|].
  apply NoDup_cons in Hnd as [Hnin Hnd]. intros Hget.
  destruct (decide (k' = k)) as [->|Hne]; [|by apply IH].
  exfalso. apply Hnin. apply (get_Some_keys _ v). by apply IH.
Qed.

Lemma wf_drop n m : wf m → wf (drop n m).
Proof.
  unfold wf, keys. rewrite fmap_drop. intros Hnd.
  eapply sublist_NoDup; [done | apply sublist_drop].
Qed.
End Facts.
End JsMapFacts.

(** * The coordinator: circuit breaker, acquisition, [withLock], [close] *)
Module AtomicLockFacts.
Import AtomicLock JsMapFacts.

Section Facts.
Context {D : Type} `{!Driver.LockDriver D}.
Variable uuidv4 : nat → string.
Implicit Types (s : State D) (key : string).

(** *** What the steps of [recordLockFailure] read and write *)

Lemma lockFailures_maybeCleanup s :
  lockFailures (maybeCleanup s) =
    if 60000 <? dateNow s - lastCleanup s
    then JsMap.sweep
           (fun failure => circuitBreakerResetTime s <? dateNow s - lastFailure failure)
           (lockFailures s)
    else lockFailures s.
Proof. unfold maybeCleanup. by case_match. Qed.

Lemma frame_maybeCleanup s :
  dateNow (maybeCleanup s) = dateNow s
  ∧ circuitBreakerResetTime (maybeCleanup s) = circuitBreakerResetTime s
  ∧ maxFailureEntries (maybeCleanup s) = maxFailureEntries s
  ∧ driver (maybeCleanup s) = driver s
  ∧ driverCalls (maybeCleanup s) = driverCalls s.
Proof. unfold maybeCleanup. by case_match. Qed.

Lemma lockFailures_evictOldest s :
  JsMap.wf (lockFailures s) →
  lockFailures (evictOldest s) =
    if maxFailureEntries s <=? JsMap.size (lockFailures s)
    then drop 100 (lockFailures s)
    else lockFailures s.
Proof.
  intros Hwf. unfold evictOldest. case_match; [|done].
  simpl. by apply deleteAll_oldest.
Qed.

Lemma frame_evictOldest s :
  dateNow (evictOldest s) = dateNow s
  ∧ circuitBreakerResetTime (evictOldest s) = circuitBreakerResetTime s
  ∧ maxFailureEntries (evictOldest s) = maxFailureEntries s
  ∧ driver (evictOldest s) = driver s
  ∧ driverCalls (evictOldest s) = driverCalls s.
Proof. unfold evictOldest. by case_match. Qed.

Lemma frame_upsertFailure key s :
  dateNow (upsertFailure key s) = dateNow s
  ∧ circuitBreakerResetTime (upsertFailure key s) = circuitBreakerResetTime s
  ∧ maxFailureEntries (upsertFailure key s) = maxFailureEntries s
  ∧ driver (upsertFailure key s) = driver s
  ∧ driverCalls (upsertFailure key s) = driverCalls s.
Proof. unfold upsertFailure. by case_match. Qed.

Lemma wf_maybeCleanup s :
  JsMap.wf (lockFailures s) → JsMap.wf (lockFailures (maybeCleanup s)).
Proof.
  intros Hwf. rewrite lockFailures_maybeCleanup.
  case_match; [by apply wf_sweep | done].
Qed.

Lemma wf_evictOldest s :
  JsMap.wf (lockFailures s) → JsMap.wf (lockFailures (evictOldest s)).
Proof.
  intros Hwf. rewrite lockFailures_evictOldest by done.
  case_match; [by apply wf_drop | done].
Qed.

Lemma wf_upsertFailure key s :
  JsMap.wf (lockFailures s) → JsMap.wf (lockFailures (upsertFailure key s)).
Proof.
  intros Hwf. unfold upsertFailure. case_match; simpl; by apply wf_set.
Qed.

Lemma wf_recordLockFailure key s :
  JsMap.wf (lockFailures s) → JsMap.wf (lockFailures (recordLockFailure key s)).
Proof.
  intros Hwf. unfold recordLockFailure.
  by apply wf_upsertFailure, wf_evictOldest, wf_maybeCleanup.
Qed.

Lemma frame_recordLockFailure key s :
  dateNow (recordLockFailure key s) = dateNow s
  ∧ circuitBreakerResetTime (recordLockFailure key s) = circuitBreakerResetTime s
  ∧ maxFailureEntries (recordLockFailure key s) = maxFailureEntries s
  ∧ driver (recordLockFailure key s) = driver s
  ∧ driverCalls (recordLockFailure key s) = driverCalls s.
Proof.
  unfold recordLockFailure.
  destruct (frame_upsertFailure key (evictOldest (maybeCleanup s)))
    as (-> & -> & -> & -> & ->).
  destruct (frame_evictOldest (maybeCleanup s)) as (-> & -> & -> & -> & ->).
  apply frame_maybeCleanup.
Qed.

(** [recordLockFailure] neither reads nor writes the driver, its log or
    the identifier counter: it commutes with their updates. *)
Lemma recordLockFailure_withDriver key call d s :
  recordLockFailure key (withDriver call d s)
  = withDriver call d (recordLockFailure key s).
Proof.
  assert (∀ s0, maybeCleanup (withDriver call d s0) = withDriver call d (maybeCleanup s0))
    as Hclean.
  { intros s0. unfold maybeCleanup. cbn [dateNow lastCleanup withDriver].
    by destruct (60000 <? dateNow s0 - lastCleanup s0). }
  assert (∀ s0, evictOldest (withDriver call d s0) = withDriver call d (evictOldest s0))
    as Hevict.
  { intros s0. unfold evictOldest. cbn [maxFailureEntries lockFailures withDriver].
    by destruct (maxFailureEntries s0 <=? JsMap.size (lockFailures s0)). }
  assert (∀ s0, upsertFailure key (withDriver call d s0)
                = withDriver call d (upsertFailure key s0)) as Hupsert.
  { intros s0. unfold upsertFailure. cbn [lockFailures withDriver].
    by destruct (JsMap.get key (lockFailures s0)). }
  unfold recordLockFailure. by rewrite Hclean, Hevict, Hupsert.
Qed.

Lemma recordLockFailure_withUuidDrawn key n s :
  recordLockFailure key (withUuidDrawn n s)
  = withUuidDrawn n (recordLockFailure key s).
Proof.
  assert (∀ s0, maybeCleanup (withUuidDrawn n s0) = withUuidDrawn n (maybeCleanup s0))
    as Hclean.
  { intros s0. unfold maybeCleanup. cbn [dateNow lastCleanup withUuidDrawn].
    by destruct (60000 <? dateNow s0 - lastCleanup s0). }
  assert (∀ s0, evictOldest (withUuidDrawn n s0) = withUuidDrawn n (evictOldest s0))
    as Hevict.
  { intros s0. unfold evictOldest. cbn [maxFailureEntries lockFailures withUuidDrawn].
    by destruct (maxFailureEntries s0 <=? JsMap.size (lockFailures s0)). }
  assert (∀ s0, upsertFailure key (withUuidDrawn n s0)
                = withUuidDrawn n (upsertFailure key s0)) as Hupsert.
  { intros s0. unfold upsertFailure. cbn [lockFailures withUuidDrawn].
    by destruct (JsMap.get key (lockFailures s0)). }
  unfold recordLockFailure. by rewrite Hclean, Hevict, Hupsert.
Qed.

(** The failure records after [recordLockFailure] depend on the clock
    and on the breaker's own fields only. *)
Lemma recordLockFailure_frame key s n call d :
  lockFailures (recordLockFailure key (withDriver call d (withUuidDrawn n s)))
  = lockFailures (recordLockFailure key s).
Proof. by rewrite recordLockFailure_withDriver, recordLockFailure_withUuidDrawn. Qed.

(** An entry that survives the two maintenance steps is an entry of
    the map they started from. *)
Lemma get_maintenance_inv key failure s :
  JsMap.wf (lockFailures s) →
  JsMap.get key (lockFailures (evictOldest (maybeCleanup s))) = Some failure →
  JsMap.get key (lockFailures s) = Some failure.
Proof.
  intros Hwf.
  rewrite lockFailures_evictOldest by by apply wf_maybeCleanup.
  intros Hget.
  assert (JsMap.get key (lockFailures (maybeCleanup s)) = Some failure) as Hc.
  { case_match; [|done].
    eapply get_drop_inv; [by apply wf_maybeCleanup | done]. }
  rewrite lockFailures_maybeCleanup in Hc.
  case_match; [|done]. by eapply get_sweep_inv.
Qed.

(** After [recordLockFailure(key)] the key has a record stamped with
    the current time, whose count is 1 (a new record, or one whose
    window had elapsed) or one more than before. *)
Lemma recordLockFailure_get key s :
  JsMap.wf (lockFailures s) →
  ∃ failure,
    JsMap.get key (lockFailures (recordLockFailure key s)) = Some failure
    ∧ lastFailure failure = dateNow s
    ∧ (count failure = 1
       ∨ ∃ old, JsMap.get key (lockFailures s) = Some old
                ∧ count failure = count old + 1).
Proof.
  intros Hwf. unfold recordLockFailure.
  pose proof (get_maintenance_inv key) as Hinv.
  set (s2 := evictOldest (maybeCleanup s)) in *.
  assert (dateNow s2 = dateNow s) as Hnow.
  { unfold s2. destruct (frame_evictOldest (maybeCleanup s)) as [-> _].
    by destruct (frame_maybeCleanup s) as [-> _]. }
  unfold upsertFailure.
  destruct (JsMap.get key (lockFailures s2)) as [existing|] eqn:Hget; simpl.
  - eexists. rewrite get_set_eq. split; [done|]. simpl. split; [done|].
    case_match; [by left | right].
    exists existing. split; [by apply Hinv | done].
  - eexists. rewrite get_set_eq. split; [done|]. simpl. split; [done | by left].
Qed.

(** *** The circuit breaker *)

(** C2. The breaker of a key is open exactly when the key has a failure
    record whose count has reached the threshold and whose last failure
    is less than the reset window ago; with the same records, once the
    clock is a full window past the last failure the breaker reads
    closed. *)
Theorem circuit_open_iff s key :
  (CircuitBreakerStats.isOpen (getCircuitBreakerStatus key s) = true
   ↔ ∃ failure,
       JsMap.get key (lockFailures s) = Some failure
       ∧ circuitBreakerThreshold s ≤ count failure
       ∧ dateNow s - lastFailure failure < circuitBreakerResetTime s)
  ∧ (∀ failure later,
       JsMap.get key (lockFailures s) = Some failure →
       circuitBreakerResetTime s ≤ later - lastFailure failure →
       lockFailures (withClock later s) = lockFailures s
       ∧ CircuitBreakerStats.isOpen
           (getCircuitBreakerStatus key (withClock later s)) = false).
Proof.
  split.
  - unfold getCircuitBreakerStatus, isCircuitOpen; simpl.
    destruct (JsMap.get key (lockFailures s)) as [failure|]; simpl.
    + rewrite andb_true_iff, Z.leb_le, Z.ltb_lt. split.
      * intros [Hc Ht]. by exists failure.
      * intros (f & [= <-] & Hc & Ht). done.
    + split; [done | by intros (f & ? & _)].
  - intros failure later Hget Hlate. split; [done|].
    unfold getCircuitBreakerStatus, isCircuitOpen; simpl.
    rewrite Hget. apply andb_false_iff. right. apply Z.ltb_ge. done.
Qed.

(** *** [tryAcquire] *)

Lemma tryAcquire_unfold key options s :
  tryAcquire uuidv4 key options s =
    if isCircuitOpen key s then (Return None, s)
    else
      let lockValue := uuidv4 (uuidDrawn s) in
      let expiry := default 10 (LockOptions.expiryInSeconds options) in
      let s1 := withUuidDrawn (S (uuidDrawn s)) s in
      let call := CallTryAcquire key lockValue expiry in
      match Driver.tryAcquire key lockValue expiry (dateNow s) (driver s) with
      | (Return true, d) =>
          (Return (Some lockValue),
           withLockFailures (JsMap.delete key (lockFailures s)) (withDriver call d s1))
      | (Return false, d) => (Return None, withDriver call d s1)
      | (Throw _, d) => (Return None, recordLockFailure key (withDriver call d s1))
      end.
Proof.
  unfold tryAcquire. destruct (isCircuitOpen key s); [done|].
  unfold bind, tryCatch, generateLockValue, driverTryAcquire, run, ret; simpl.
  destruct (Driver.tryAcquire _ _ _ _ _) as [[[|]|e] d]; done.
Qed.

(** [tryAcquire] never rejects. *)
Lemma tryAcquire_returns key options s :
  ∃ token, (tryAcquire uuidv4 key options s).1 = Return token.
Proof.
  rewrite tryAcquire_unfold. case_match; [by eexists|].
  simpl. destruct (Driver.tryAcquire _ _ _ _ _) as [[[|]|e] d]; by eexists.
Qed.

(** C1, as the code has it. With the breaker of the key closed,
    [tryAcquire] never throws and asks the driver once, with a token
    it has just minted. When the driver grants the lock the key's
    failure record is deleted and the token returned. When the driver
    rejects, [null] is returned and a failure is recorded: the key
    then has a record stamped with the current time whose count is 1
    or one more than before. When the driver answers [false], [null]
    is returned and the failure records are left as they were. *)
Theorem tryAcquire_closed_circuit key options s :
  JsMap.wf (lockFailures s) →
  isCircuitOpen key s = false →
  let lockValue := uuidv4 (uuidDrawn s) in
  let expiry := default 10 (LockOptions.expiryInSeconds options) in
  let result := (tryAcquire uuidv4 key options s).1 in
  let s' := (tryAcquire uuidv4 key options s).2 in
  (∃ token, result = Return token)
  ∧ driverCalls s' = driverCalls s ++ [CallTryAcquire key lockValue expiry]
  ∧ match (Driver.tryAcquire key lockValue expiry (dateNow s) (driver s)).1 with
    | Return true =>
        result = Return (Some lockValue)
        ∧ lockFailures s' = JsMap.delete key (lockFailures s)
        ∧ JsMap.get key (lockFailures s') = None
    | Return false =>
        result = Return None
        ∧ lockFailures s' = lockFailures s
    | Throw _ =>
        result = Return None
        ∧ lockFailures s' = lockFailures (recordLockFailure key s)
        ∧ ∃ failure,
            JsMap.get key (lockFailures s') = Some failure
            ∧ lastFailure failure = dateNow s
            ∧ (count failure = 1
               ∨ ∃ old, JsMap.get key (lockFailures s) = Some old
                        ∧ count failure = count old + 1)
    end.
Proof.
  intros Hwf Hclosed lockValue expiry result s'.
  split; [apply tryAcquire_returns|].
  unfold result, s'. rewrite tryAcquire_unfold, Hclosed.
  cbv zeta. fold lockValue expiry.
  destruct (Driver.tryAcquire key lockValue expiry (dateNow s) (driver s))
    as [[[|]|e] d]; cbn [fst snd].
  - split; [done|]. split_and!; [done | done | apply get_delete_eq].
  - done.
  - destruct (frame_recordLockFailure key
                (withDriver (CallTryAcquire key lockValue expiry) d
                   (withUuidDrawn (S (uuidDrawn s)) s))) as (_ & _ & _ & _ & ->).
    split; [done|]. split; [done|].
    rewrite recordLockFailure_frame. split; [done|].
    by apply recordLockFailure_get.
Qed.

(** *** [acquire] and [withLock] *)

(** [acquire] returns the token [tryAcquire] returned, or throws the
    acquisition error; it leaves the state [tryAcquire] left. *)
Lemma acquire_cases key options s :
  let s1 := (tryAcquire uuidv4 key options s).2 in
  (∃ lockValue,
      (tryAcquire uuidv4 key options s).1 = Return (Some lockValue)
      ∧ lockValue ≠ ""
      ∧ acquire uuidv4 key options s = (Return lockValue, s1))
  ∨ acquire uuidv4 key options s
      = (Throw (Error ("Failed to acquire lock for key: " +:+ key)), s1).
Proof.
  unfold acquire, bind.
  destruct (tryAcquire_returns key options s) as [token Htok].
  destruct (tryAcquire uuidv4 key options s) as [c s1]; simpl in *. subst c.
  destruct token as [v|]; [|by right].
  destruct (decide (v = "")); [by right | left]. by exists v.
Qed.

(** [release] never rejects: it asks the driver once and answers what
    the driver answered, or [false] when the driver rejected. *)
Lemma release_unfold key lockValue s :
  release key lockValue s =
    let '(completion, d) := Driver.release key lockValue (dateNow s) (driver s) in
    (Return (match completion with Return b => b | Throw _ => false end),
     withDriver (CallRelease key lockValue) d s).
Proof.
  unfold release, tryCatch, driverRelease, ret.
  by destruct (Driver.release _ _ _ _) as [[b|e] d].
Qed.

(** C3. [withLock] first acquires. When the acquisition fails its error
    is the outcome, the callback is not run and the driver is not
    asked to release. Otherwise the callback runs on the acquired
    token and then, whether it returned or threw, the driver's
    [release] is called once with the key and that token; the outcome
    of [withLock] is the callback's result or error. *)
Theorem withLock_always_releases {T} key (callback : string → M T) options s :
  match acquire uuidv4 key options s with
  | (Throw e, s1) =>
      withLock uuidv4 key callback options s = (Throw e, s1)
      ∧ e = Error ("Failed to acquire lock for key: " +:+ key)
  | (Return lockValue, s1) =>
      (tryAcquire uuidv4 key options s).1 = Return (Some lockValue)
      ∧ let '(completion, s2) := callback lockValue s1 in
        ∃ s3,
          withLock uuidv4 key callback options s = (completion, s3)
          ∧ driverCalls s3 = driverCalls s2 ++ [CallRelease key lockValue]
          ∧ driver s3 = (Driver.release key lockValue (dateNow s2) (driver s2)).2
          ∧ lockFailures s3 = lockFailures s2
  end.
Proof.
  unfold withLock, bind.
  destruct (acquire_cases key options s) as [(v & Htry & Hne & ->)| ->].
  - split; [done|].
    unfold tryFinally.
    destruct (callback v _) as [completion s2].
    rewrite release_unfold.
    destruct (Driver.release key v (dateNow s2) (driver s2)) as [c d].
    eexists. split; [done|]. done.
  - done.
Qed.

(** *** [close] *)

(** C10. [close] empties the failure records, so that every key reads
    closed with no failure, and it makes no call into the driver: the
    driver and the log of its calls are as before. Afterwards
    [tryAcquire] still reaches the driver, with a freshly minted
    token, and succeeds exactly when the driver grants the lock, and
    [release] succeeds exactly when the driver releases. *)
Theorem close_clears_failures_only s :
  ∃ s',
    close s = (Return (), s')
    ∧ lockFailures s' = []
    ∧ (∀ key,
         getCircuitBreakerStatus key s'
         = {| CircuitBreakerStats.isOpen := false;
              CircuitBreakerStats.failureCount := 0;
              CircuitBreakerStats.lastFailure := None;
              CircuitBreakerStats.nextAttemptAt := None |})
    ∧ driver s' = driver s
    ∧ driverCalls s' = driverCalls s
    ∧ (∀ key options,
         let lockValue := uuidv4 (uuidDrawn s) in
         let expiry := default 10 (LockOptions.expiryInSeconds options) in
         driverCalls (tryAcquire uuidv4 key options s').2
         = driverCalls s ++ [CallTryAcquire key lockValue expiry]
         ∧ ((tryAcquire uuidv4 key options s').1 = Return (Some lockValue)
            ↔ (Driver.tryAcquire key lockValue expiry (dateNow s) (driver s)).1
              = Return true))
    ∧ (∀ key lockValue,
         (release key lockValue s').1 = Return true
         ↔ (Driver.release key lockValue (dateNow s) (driver s)).1 = Return true).
Proof.
  eexists. split; [done|]. simpl. split_and!; try done.
  - intros key options.
    set (lockValue := uuidv4 (uuidDrawn s)).
    set (expiry := default 10 (LockOptions.expiryInSeconds options)).
    rewrite tryAcquire_unfold. unfold isCircuitOpen.
    cbn [lockFailures withLockFailures JsMap.get dateNow uuidDrawn driver].
    cbv zeta. fold lockValue expiry.
    destruct (Driver.tryAcquire key lockValue expiry (dateNow s) (driver s))
      as [[[|]|e] d]; cbn [fst snd].
    + done.
    + split; [done|]. split; intros; simplify_eq.
    + destruct (frame_recordLockFailure key
                  (withDriver (CallTryAcquire key lockValue expiry) d
                     (withUuidDrawn (S (uuidDrawn s)) (withLockFailures [] s))))
        as (_ & _ & _ & _ & ->).
      split; [done|]. split; intros; simplify_eq.
  - intros key lockValue. rewrite release_unfold. simpl.
    destruct (Driver.release key lockValue (dateNow s) (driver s)) as [[[|]|e] d];
      simpl; split; intros; by simplify_eq.
Qed.

(** *** The bound on the failure records *)

Lemma size_maybeCleanup s :
  JsMap.size (lockFailures (maybeCleanup s)) ≤ JsMap.size (lockFailures s).
Proof.
  rewrite lockFailures_maybeCleanup. unfold JsMap.size.
  case_match; [|lia].
  pose proof (length_sweep
    (fun failure => circuitBreakerResetTime s <? dateNow s - lastFailure failure)
    (lockFailures s)). lia.
Qed.

(** Below the maximum after the eviction step, whatever the size before. *)
Lemma size_evictOldest s :
  JsMap.wf (lockFailures s) →
  1 ≤ maxFailureEntries s →
  JsMap.size (lockFailures s) ≤ maxFailureEntries s →
  JsMap.size (lockFailures (evictOldest s)) ≤ maxFailureEntries s - 1.
Proof.
  intros Hwf Hmax Hsize. rewrite lockFailures_evictOldest by done.
  unfold JsMap.size in *.
  destruct (maxFailureEntries s <=? Z.of_nat (length (lockFailures s))) eqn:Hfull.
  - apply Z.leb_le in Hfull. rewrite length_drop. lia.
  - apply Z.leb_gt in Hfull. lia.
Qed.

Lemma size_upsertFailure key s :
  JsMap.size (lockFailures (upsertFailure key s)) ≤ JsMap.size (lockFailures s) + 1.
Proof.
  unfold upsertFailure, JsMap.size.
  case_match; simpl; rewrite length_set; case_match; lia.
Qed.

Lemma size_recordLockFailure key s :
  JsMap.wf (lockFailures s) →
  1 ≤ maxFailureEntries s →
  JsMap.size (lockFailures s) ≤ maxFailureEntries s →
  JsMap.size (lockFailures (recordLockFailure key s)) ≤ maxFailureEntries s.
Proof.
  intros Hwf Hmax Hsize. unfold recordLockFailure.
  pose proof (size_upsertFailure key (evictOldest (maybeCleanup s))) as Hup.
  pose proof (size_maybeCleanup s) as Hclean.
  destruct (frame_maybeCleanup s) as (_ & _ & Hmx & _).
  pose proof (size_evictOldest (maybeCleanup s)) as Hev.
  rewrite Hmx in Hev.
  specialize (Hev (wf_maybeCleanup s Hwf) Hmax ltac:(lia)). lia.
Qed.

Lemma recordAll_bounded calls s max :
  maxFailureEntries s = max →
  1 ≤ max →
  JsMap.wf (lockFailures s) →
  JsMap.size (lockFailures s) ≤ max →
  Forall (fun s' => JsMap.size (lockFailures s') ≤ max) (recordAll calls s).
Proof.
  revert s. induction calls as [|[key now] calls IH]; intros s Hmx Hmax Hwf Hsize.
  - constructor.
  - cbn [recordAll].
    assert (JsMap.size (lockFailures (recordLockFailure key (withClock now s))) ≤ max)
      as Hstep.
    { subst max. by apply (size_recordLockFailure key (withClock now s)). }
    constructor; [done|].
    apply IH; [|done| |done].
    + by destruct (frame_recordLockFailure key (withClock now s)) as (_ & _ & -> & _).
    + by apply (wf_recordLockFailure key (withClock now s)).
Qed.

(** C7. With a maximum of at least 1, a coordinator whose failure
    records are within the maximum (as they are when it is built,
    there being none) never holds more than the maximum after any of
    a sequence of [recordLockFailure] calls. And in every such call
    that finds the map, after the periodic sweep, at or above the
    maximum, the (up to) 100 entries inserted first are removed, the
    others kept in their order, before the failure is upserted. *)
Theorem recordLockFailure_bounded calls s0 :
  1 ≤ maxFailureEntries s0 →
  JsMap.wf (lockFailures s0) →
  JsMap.size (lockFailures s0) ≤ maxFailureEntries s0 →
  Forall (fun s => JsMap.size (lockFailures s) ≤ maxFailureEntries s0)
         (recordAll calls s0)
  ∧ (∀ key s,
       JsMap.wf (lockFailures s) →
       maxFailureEntries s ≤ JsMap.size (lockFailures (maybeCleanup s)) →
       lockFailures (evictOldest (maybeCleanup s))
       = drop 100 (lockFailures (maybeCleanup s))
       ∧ recordLockFailure key s
         = upsertFailure key (evictOldest (maybeCleanup s))).
Proof.
  intros Hmax Hwf Hsize. split.
  - by apply recordAll_bounded.
  - intros key s Hwfs Hfull. split; [|done].
    rewrite lockFailures_evictOldest by by apply wf_maybeCleanup.
    destruct (frame_maybeCleanup s) as (_ & _ & -> & _).
    apply Z.leb_le in Hfull. by rewrite Hfull.
Qed.

(** A coordinator fresh from its constructor has no failure record. *)
Lemma create_bounded (d : D) options now :
  JsMap.wf (lockFailures (create d options now))
  ∧ JsMap.size (lockFailures (create d options now)) = 0.
Proof. split; [apply NoDup_nil_2 | done]. Qed.

(** *** [acquire] and [release] on their own *)

(** [acquire] makes one [tryAcquire]: it returns the token of a successful
    one and throws the acquisition error, which names the key, after any
    other; the state is the one [tryAcquire] left. *)
Lemma acquire_outcome key options s :
  (acquire uuidv4 key options s).1
  = match (tryAcquire uuidv4 key options s).1 with
    | Return (Some v) =>
        if decide (v = "")
        then Throw (Error ("Failed to acquire lock for key: " +:+ key))
        else Return v
    | Return None => Throw (Error ("Failed to acquire lock for key: " +:+ key))
    | Throw e => Throw e
    end
  ∧ (acquire uuidv4 key options s).2 = (tryAcquire uuidv4 key options s).2.
Proof.
  unfold acquire, bind.
  destruct (tryAcquire uuidv4 key options s) as [[[v|]|e] s1]; cbn [fst snd];
    [|done|done].
  by destruct (decide (v = "")).
Qed.

(** X7. [release] never throws: it calls the driver once and answers [true]
    exactly when the driver answered [true]; a rejection of the driver
    becomes [false]. It does not touch the failure records. *)
Lemma release_never_throws key lockValue s :
  ∃ released,
    (release key lockValue s).1 = Return released
    ∧ (released = true
       ↔ (Driver.release key lockValue (dateNow s) (driver s)).1 = Return true)
    ∧ driverCalls (release key lockValue s).2
      = driverCalls s ++ [CallRelease key lockValue]
    ∧ lockFailures (release key lockValue s).2 = lockFailures s.
Proof.
  rewrite release_unfold.
  destruct (Driver.release key lockValue (dateNow s) (driver s)) as [[[|]|e] d];
    eexists; (split; [done|]); cbn [fst snd];
    (split; [split; intros; by simplify_eq | done]).
Qed.

(** *** More on the breaker *)

(** With the breaker of the key open, [tryAcquire] answers [null] at once:
    no token is minted, the driver is not called, nothing changes. *)
Lemma tryAcquire_open_circuit key options s :
  isCircuitOpen key s = true →
  tryAcquire uuidv4 key options s = (Return None, s).
Proof. intros Hopen. by rewrite tryAcquire_unfold, Hopen. Qed.

(** X3. The count [recordLockFailure] leaves for the key, when the map is
    below its maximum (so that nothing is evicted): one more than before
    when the key had a record whose last failure is at most a reset
    window ago, and 1 otherwise. *)
Lemma recordLockFailure_count key s :
  JsMap.wf (lockFailures s) →
  JsMap.size (lockFailures s) < maxFailureEntries s →
  ∃ failure,
    JsMap.get key (lockFailures (recordLockFailure key s)) = Some failure
    ∧ lastFailure failure = dateNow s
    ∧ count failure =
        match JsMap.get key (lockFailures s) with
        | Some old =>
            if circuitBreakerResetTime s <? dateNow s - lastFailure old
            then 1 else count old + 1
        | None => 1
        end.
Proof.
  intros Hwf Hsize. unfold recordLockFailure.
  pose proof (size_maybeCleanup s) as Hclean.
  destruct (frame_maybeCleanup s) as (Hnow & Hrt & Hmx & _).
  assert (lockFailures (evictOldest (maybeCleanup s)) = lockFailures (maybeCleanup s)) as Hev.
  { rewrite lockFailures_evictOldest by by apply wf_maybeCleanup.
    rewrite Hmx.
    destruct (maxFailureEntries s <=? JsMap.size (lockFailures (maybeCleanup s))) eqn:Hfull;
      [|done].
    apply Z.leb_le in Hfull. lia. }
  destruct (frame_evictOldest (maybeCleanup s)) as (Hnow2 & Hrt2 & _).
  unfold upsertFailure. rewrite Hev, Hnow2, Hrt2, Hnow, Hrt.
  rewrite lockFailures_maybeCleanup.
  destruct (60000 <? dateNow s - lastCleanup s).
  - (* the sweep ran *)
    destruct (JsMap.get key (JsMap.sweep _ (lockFailures s))) as [kept|] eqn:Hkept.
    + pose proof (get_sweep_Some _ _ _ _ Hkept) as Hfresh.
      apply get_sweep_inv in Hkept; [|done]. rewrite Hkept.
      cbn beta in Hfresh. rewrite Hfresh.
      eexists. cbn [lockFailures withLockFailures]. rewrite get_set_eq.
      split; [done|]. done.
    + eexists. cbn [lockFailures withLockFailures]. rewrite get_set_eq.
      split; [done|]. split; [done|]. cbn [count].
      destruct (JsMap.get key (lockFailures s)) as [old|] eqn:Hold; [|done].
      destruct (circuitBreakerResetTime s <? dateNow s - lastFailure old) eqn:Hstale;
        [done|].
      exfalso. revert Hkept Hold Hstale. clear. generalize (lockFailures s).
      intros m. induction m as [|[k' v'] m IH]; [done|].
      cbn [JsMap.sweep JsMap.get].
      destruct (decide (k' = key)) as [->|Hne].
      * intros Hkept [= ->] Hstale. rewrite Hstale in Hkept.
        cbn [JsMap.get] in Hkept. by rewrite decide_True in Hkept.
      * intros Hkept Hold Hstale.
        destruct (circuitBreakerResetTime s <? dateNow s - lastFailure v').
        -- by apply IH.
        -- cbn [JsMap.get] in Hkept. rewrite decide_False in Hkept by done. by apply IH.
  - destruct (JsMap.get key (lockFailures s)) as [old|];
      eexists; cbn [lockFailures withLockFailures]; rewrite get_set_eq; done.
Qed.
End Facts.
End AtomicLockFacts.

(** * The in-memory driver *)
Module MemoryLockDriverFacts.
Import MemoryLockDriver.
Implicit Types (locks : gmap string LockData) (key : string) (keys : list string).

Lemma has_true key locks : has key locks = true ↔ is_Some (locks !! key).
Proof.
  unfold has. destruct (locks !! key) as [e|].
  - split; [by eexists | done].
  - split; [done | by intros [e He]].
Qed.

Lemma lookup_dropExpired now locks key k :
  dropExpired now locks key !! k =
    match locks !! k with
    | Some e => if decide (k = key) then (if expiresAt e <? now then None else Some e)
                else Some e
    | None => None
    end.
Proof.
  unfold dropExpired. destruct (decide (k = key)) as [->|Hne].
  - destruct (locks !! key) as [e|] eqn:He; [|by rewrite He].
    destruct (expiresAt e <? now); [by rewrite lookup_delete_eq | by rewrite He].
  - destruct (locks !! key) as [e|] eqn:He.
    + destruct (expiresAt e <? now).
      * rewrite lookup_delete_ne by done. by destruct (locks !! k).
      * by destruct (locks !! k).
    + by destruct (locks !! k).
Qed.

(** The first loop of [tryAcquireMultiple] deletes expired records of the
    listed keys and nothing else. *)
Lemma lookup_cleaned now keys locks k :
  foldl (dropExpired now) locks keys !! k = locks !! k
  ∨ (foldl (dropExpired now) locks keys !! k = None
     ∧ ∃ e, locks !! k = Some e ∧ expiresAt e < now).
Proof.
  revert locks. induction keys as [|key keys IH]; intros locks; [by left|].
  cbn [foldl]. destruct (IH (dropExpired now locks key)) as [->|[-> (e & He & Hexp)]].
  - rewrite lookup_dropExpired.
    destruct (locks !! k) as [e|]; [|by left].
    destruct (decide (k = key)); [|by left].
    destruct (expiresAt e <? now) eqn:Hlt; [|by left].
    right. split; [done|]. exists e. split; [done|]. by apply Z.ltb_lt.
  - right. split; [done|]. exists e. split; [|done].
    rewrite lookup_dropExpired in He.
    destruct (locks !! k) as [e'|]; [|done].
    destruct (decide (k = key)); [|done].
    by destruct (expiresAt e' <? now).
Qed.

Lemma lookup_cleaned_live now keys locks k e :
  locks !! k = Some e → now ≤ expiresAt e →
  foldl (dropExpired now) locks keys !! k = Some e.
Proof.
  intros He Hlive. destruct (lookup_cleaned now keys locks k) as [->|[_ (e' & He' & Hexp)]].
  - done.
  - rewrite He in He'. simplify_eq. lia.
Qed.

(** Whenever [tryAcquireMultiple] answers [false], no key has gained a
    record: every key reads as before, or its expired record is gone. *)
Lemma memory_tryAcquireMultiple_false keys lockValue ttl now locks :
  (tryAcquireMultiple keys lockValue ttl now locks).1 = false →
  ∀ k, (tryAcquireMultiple keys lockValue ttl now locks).2 !! k = locks !! k
       ∨ ((tryAcquireMultiple keys lockValue ttl now locks).2 !! k = None
          ∧ ∃ e, locks !! k = Some e ∧ expiresAt e < now).
Proof.
  unfold tryAcquireMultiple. case_match; [|done].
  intros _ k. apply lookup_cleaned.
Qed.

Lemma memory_tryAcquireMultiple_conflict keys b existing lockValue ttl now locks :
  b ∈ keys → locks !! b = Some existing → now ≤ expiresAt existing →
  (tryAcquireMultiple keys lockValue ttl now locks).1 = false.
Proof.
  intros Hin Hb Hlive. unfold tryAcquireMultiple.
  assert (existsb (fun key => has key (foldl (dropExpired now) locks keys)) keys = true)
    as ->; [|done].
  apply existsb_exists. exists b. split; [by apply list_elem_of_In|].
  apply has_true. rewrite (lookup_cleaned_live now keys locks b existing) by done.
  by eexists.
Qed.

(** [getLockInfo] answers with the stored record exactly when one is
    stored whose expiry is not before the clock. *)
Lemma getLockInfo_spec key now locks :
  (getLockInfo key now locks).1 =
    match locks !! key with
    | Some e =>
        if decide (now ≤ expiresAt e)
        then Some (LockInfo.mk key (value e) (expiresAt e) (Some (createdAt e)))
        else None
    | None => None
    end.
Proof.
  unfold getLockInfo. destruct (locks !! key) as [e|]; [|done].
  destruct (expiresAt e <? now) eqn:Hlt.
  - apply Z.ltb_lt in Hlt. by rewrite decide_False by lia.
  - apply Z.ltb_ge in Hlt. by rewrite decide_True by lia.
Qed.

(** X4. A key whose record has not expired cannot be acquired, and the
    attempt changes nothing. *)
Lemma tryAcquire_held key lockValue ttl now locks existing :
  locks !! key = Some existing → now ≤ expiresAt existing →
  tryAcquire key lockValue ttl now locks = (false, locks).
Proof.
  intros Hk Hlive. unfold tryAcquire, dropExpired, has. rewrite Hk.
  assert ((expiresAt existing <? now) = false) as -> by (apply Z.ltb_ge; lia).
  by rewrite Hk.
Qed.

(** X5. A key with no record, or with an expired one, is acquired: it then
    holds the caller's token until [now + ttl * 1000], and the other keys
    are untouched. *)
Lemma tryAcquire_free key lockValue ttl now locks :
  (∀ existing, locks !! key = Some existing → expiresAt existing < now) →
  ∃ locks',
    tryAcquire key lockValue ttl now locks = (true, locks')
    ∧ locks' !! key = Some {| value := lockValue;
                              expiresAt := now + ttl * 1000;
                              createdAt := now |}
    ∧ ∀ k, k ≠ key → locks' !! k = locks !! k.
Proof.
  intros Hfree. unfold tryAcquire, has.
  assert (dropExpired now locks key !! key = None) as Hnone.
  { rewrite lookup_dropExpired. destruct (locks !! key) as [e|] eqn:He; [|done].
    rewrite decide_True by done.
    specialize (Hfree e eq_refl). apply Z.ltb_lt in Hfree. by rewrite Hfree. }
  rewrite Hnone. eexists. split; [done|]. split; [apply lookup_insert_eq|].
  intros k Hne. rewrite lookup_insert_ne by done.
  rewrite lookup_dropExpired.
  destruct (locks !! k); [|done]. by rewrite decide_False.
Qed.
End MemoryLockDriverFacts.

(** * The file driver *)
Module FileLockDriverFacts.
Import Fs FileLockDriver.

Section Facts.
Variable lockDir : string.
Variable sha256Hex : string → string.
Implicit Types (fs : gmap string FileContent) (acquired : list string).

Lemma unlink_delete path fs : (unlink path fs).2 = delete path fs.
Proof.
  unfold unlink. destruct (fs !! path) eqn:Hp; [done|].
  simpl. by rewrite delete_id.
Qed.

Lemma lookup_rollback acquired fs k :
  rollback acquired fs !! k = if decide (k ∈ acquired) then None else fs !! k.
Proof.
  unfold rollback. revert fs. induction acquired as [|p acquired IH]; intros fs.
  - cbn [foldl]. rewrite decide_False; [done | apply not_elem_of_nil].
  - cbn [foldl]. rewrite IH, unlink_delete.
    destruct (decide (k ∈ acquired)) as [Hin|Hnin].
    + rewrite decide_True; [done | by right].
    + destruct (decide (k = p)) as [->|Hne].
      * rewrite decide_True; [|by left]. apply lookup_delete_eq.
      * rewrite decide_False; [by rewrite lookup_delete_ne|].
        rewrite not_elem_of_cons. done.
Qed.

(** While files are created, the directory the call started from is
    the current one without the files created so far. *)
Lemma createAll_inv lockPaths lockData acquired fs fs0 :
  (∀ k, fs0 !! k = if decide (k ∈ acquired) then None else fs !! k) →
  ∀ k, fs0 !! k =
         if decide (k ∈ (createAll lockPaths lockData acquired fs).1.2)
         then None
         else (createAll lockPaths lockData acquired fs).2 !! k.
Proof.
  revert acquired fs.
  induction lockPaths as [|p lockPaths IH]; intros acquired fs Hinv; [done|].
  cbn [createAll]. unfold writeFileWx.
  destruct (fs !! p) as [c|] eqn:Hp; [done|].
  apply IH. intros k. rewrite Hinv.
  destruct (decide (k ∈ acquired)) as [Hin|Hnin].
  - rewrite decide_True; [done | apply elem_of_app; by left].
  - destruct (decide (k = p)) as [->|Hne].
    + rewrite decide_True; [done|]. apply elem_of_app. right. by left.
    + rewrite decide_False.
      * by rewrite lookup_insert_ne.
      * rewrite elem_of_app, list_elem_of_singleton. by intros [?|?].
Qed.

(** Whenever [tryAcquireMultiple] answers [false] the directory is as
    it was: the files the call created have been removed again. *)
Lemma file_tryAcquireMultiple_false keys lockValue ttl now fs :
  (tryAcquireMultiple lockDir sha256Hex keys lockValue ttl now fs).1 = false →
  (tryAcquireMultiple lockDir sha256Hex keys lockValue ttl now fs).2 = fs.
Proof.
  unfold tryAcquireMultiple. case_match; [done|].
  set (lockData := {| value := lockValue; expiresAt := now + ttl * 1000;
                      createdAt := now |}).
  pose proof (createAll_inv (getLockPath lockDir sha256Hex <$> keys) lockData [] fs fs)
    as Hinv.
  destruct (createAll _ lockData [] fs) as [[[u|e] acquired] fs']; [done|].
  intros _. cbn [fst snd] in *. apply map_eq. intros k.
  rewrite lookup_rollback. symmetry. apply Hinv.
  intros k'. rewrite decide_False; [done | apply not_elem_of_nil].
Qed.

Lemma file_tryAcquireMultiple_conflict keys b existing lockValue ttl now fs :
  b ∈ keys →
  readLockFile (getLockPath lockDir sha256Hex b) fs = Some existing →
  now ≤ expiresAt existing →
  tryAcquireMultiple lockDir sha256Hex keys lockValue ttl now fs = (false, fs).
Proof.
  intros Hin Hb Hlive. unfold tryAcquireMultiple.
  match goal with |- (if ?c then _ else _) = _ => assert (c = true) as -> end; [|done].
  apply existsb_exists. exists (getLockPath lockDir sha256Hex b). split.
  - apply list_elem_of_In, list_elem_of_fmap. by exists b.
  - rewrite Hb. by apply Z.leb_le.
Qed.
End Facts.
End FileLockDriverFacts.

(** * The SQLite and Redis drivers *)
Module SQLiteLockDriverFacts.
Import SQLiteLockDriver.
Implicit Types (table : gmap string Row) (keys : list string).

(** The clean-up statement deletes expired rows of the listed keys and
    nothing else. *)
Lemma lookup_deleteExpiredIn keys now table k :
  deleteExpiredIn keys now table !! k = table !! k
  ∨ (deleteExpiredIn keys now table !! k = None
     ∧ ∃ r, table !! k = Some r ∧ expires_at r < now).
Proof.
  unfold deleteExpiredIn.
  destruct (table !! k) as [r|] eqn:Hk.
  - destruct (decide (k ∈ keys ∧ expires_at r < now)) as [[Hin Hexp]|Hkeep].
    + right. split; [|by exists r].
      apply map_lookup_filter_None. right. intros r' Hr'. simplify_eq.
      intros Hnot. by apply Hnot.
    + left. by apply map_lookup_filter_Some.
  - left. apply map_lookup_filter_None. by left.
Qed.

Lemma sqlite_tryAcquireMultiple_conflict keys b row lockValue ttl now table :
  b ∈ keys → table !! b = Some row → now ≤ expires_at row →
  tryAcquireMultiple keys lockValue ttl now table
  = (Return false, deleteExpiredIn keys now table).
Proof.
  intros Hin Hb Hlive. unfold tryAcquireMultiple.
  assert (deleteExpiredIn keys now table !! b = Some row) as Hclean.
  { apply map_lookup_filter_Some. split; [done|]. cbn. intros [_ Hexp]. lia. }
  assert ((0 <? countLiveIn keys now (deleteExpiredIn keys now table)) = true) as ->; [|done].
  apply Z.ltb_lt. unfold countLiveIn.
  assert (size (filter (fun kr : string * Row => kr.1 ∈ keys ∧ now ≤ expires_at kr.2)
                  (deleteExpiredIn keys now table)) ≠ 0%nat) as Hsize; [|lia].
  apply (map_size_ne_0_lookup_2 _ b). exists row.
  by apply map_lookup_filter_Some.
Qed.

(** Whenever the transaction does not answer [true], no row has been
    added: it committed the clean-up only, or it was rolled back. *)
Lemma sqlite_tryAcquireMultiple_not_true keys lockValue ttl now table :
  (tryAcquireMultiple keys lockValue ttl now table).1 ≠ Return true →
  ∀ k, (tryAcquireMultiple keys lockValue ttl now table).2 !! k = table !! k
       ∨ ((tryAcquireMultiple keys lockValue ttl now table).2 !! k = None
          ∧ ∃ r, table !! k = Some r ∧ expires_at r < now).
Proof.
  unfold tryAcquireMultiple. case_match.
  - intros _ k. apply lookup_deleteExpiredIn.
  - destruct (insertAll _ _ _) as [[u|e] table']; [done|].
    intros _ k. by left.
Qed.
End SQLiteLockDriverFacts.

Module RedisLockDriverFacts.
Import RedisLockDriver.

Lemma redis_tryAcquireMultiple_conflict keys b lockValue ttl now
    (db : gmap string (string * Z)) :
  b ∈ keys → Redis.EXISTS b now db = 1 →
  tryAcquireMultiple keys lockValue ttl now db = (Return false, db).
Proof.
  intros Hin Hb. unfold tryAcquireMultiple, acquireScript.
  assert (existsb (fun key => Redis.EXISTS key now db =? 1) keys = true) as ->; [|done].
  apply existsb_exists. exists b. split; [by apply list_elem_of_In|].
  by rewrite Hb.
Qed.

Lemma setAll_positive keys value expiry now (db : gmap string (string * Z)) :
  (expiry <=? 0) = false →
  ∃ db', setAll keys value expiry now db = (Return (), db').
Proof.
  intros Hexp. revert db. induction keys as [|key keys IH]; intros db.
  - by eexists.
  - cbn [setAll]. unfold Redis.SET_EX. rewrite Hexp. apply IH.
Qed.

Lemma setAll_Throw keys value expiry now (db : gmap string (string * Z)) e db' :
  setAll keys value expiry now db = (Throw e, db') → db' = db.
Proof.
  destruct (expiry <=? 0) eqn:Hexp.
  - destruct keys as [|key keys]; [done|].
    cbn [setAll]. unfold Redis.SET_EX. rewrite Hexp. by intros [= _ <-].
  - destruct (setAll_positive keys value expiry now db Hexp) as [db1 ->]. done.
Qed.

(** Whenever the script does not answer 1, the keyspace is untouched. *)
Lemma redis_tryAcquireMultiple_not_true keys lockValue ttl now
    (db : gmap string (string * Z)) :
  (tryAcquireMultiple keys lockValue ttl now db).1 ≠ Return true →
  (tryAcquireMultiple keys lockValue ttl now db).2 = db.
Proof.
  unfold tryAcquireMultiple, acquireScript.
  destruct (existsb _ keys); [done|].
  destruct (setAll keys lockValue ttl now db) as [[u|e] db'] eqn:Hset; [done|].
  intros _. by apply setAll_Throw in Hset.
Qed.
End RedisLockDriverFacts.

(** * Numbers that are not whole *)
Module JsNumberFacts.
Import MemoryLockDriverNum.

Lemma ltb_lt x y : JsNumber.ltb x y = true ↔ (x < y)%Q.
Proof.
  unfold JsNumber.ltb. rewrite Qlt_alt.
  destruct (x ?= y)%Q; split; congruence.
Qed.

Lemma ltb_ge x y : JsNumber.ltb x y = false ↔ (y <= x)%Q.
Proof.
  destruct (JsNumber.ltb x y) eqn:Hlt.
  - apply ltb_lt in Hlt. split; [done|]. intros Hle. lra.
  - split; [|done]. intros _.
    destruct (Qlt_le_dec x y) as [Hxy|Hyx]; [|done].
    apply ltb_lt in Hxy. congruence.
Qed.

Lemma roundGrid_mono x y :
  (x <= y)%Q → (JsNumber.roundGrid x <= JsNumber.roundGrid y)%Q.
Proof.
  intros Hle. unfold JsNumber.roundGrid.
  assert (Qfloor (x * 4096 + (1 # 2)) ≤ Qfloor (y * 4096 + (1 # 2))) as Hfl.
  { apply Qfloor_resp_le. lra. }
  rewrite Zle_Qle in Hfl. unfold Qdiv.
  apply Qmult_le_compat_r; [done|]. vm_compute. discriminate.
Qed.

Lemma roundGrid_exact n : (JsNumber.roundGrid (inject_Z n) == inject_Z n)%Q.
Proof.
  unfold JsNumber.roundGrid.
  assert (Qfloor (inject_Z n * 4096 + (1 # 2)) = n * 4096) as ->.
  { pose proof (Qfloor_le (inject_Z n * 4096 + (1 # 2))) as Hlo.
    pose proof (Qlt_floor (inject_Z n * 4096 + (1 # 2))) as Hhi.
    set (f := Qfloor (inject_Z n * 4096 + (1 # 2))) in *.
    assert (inject_Z n * 4096 == inject_Z (n * 4096))%Q as Heq.
    { rewrite inject_Z_mult. reflexivity. }
    rewrite Heq in Hlo, Hhi. rewrite inject_Z_plus in Hhi.
    assert (inject_Z f < inject_Z (n * 4096) + 1)%Q as H1 by lra.
    change (inject_Z 1) with 1%Q in Hhi.
    assert (inject_Z (n * 4096) < inject_Z f + 1)%Q as H2 by lra.
    change 1%Q with (inject_Z 1) in H1, H2.
    rewrite <- inject_Z_plus in H1, H2. rewrite <- Zlt_Qlt in H1, H2. lia. }
  rewrite inject_Z_mult. field.
Qed.

(** A monotone rounding gives equal results on equal numbers. *)
Lemma round_comp (round : Q → Q) x y :
  (∀ x y, (x <= y)%Q → (round x <= round y)%Q) →
  (x == y)%Q → (round x == round y)%Q.
Proof.
  intros Hmono Heq. apply Qle_antisym; apply Hmono; rewrite Heq; apply Qle_refl.
Qed.

(** What the calls after an acquisition see of the stored record. *)
Lemma after_acquire round key (lock : Lock) other ttl' later
    (locks : gmap string Lock) :
  let locks1 := <[key := lock]> locks in
  (JsNumber.ltb (expiresAt lock) (inject_Z later) = true →
     (exists_ key later locks1).1 = false
     ∧ (tryAcquire round key other ttl' later locks1).1 = true)
  ∧ (JsNumber.ltb (expiresAt lock) (inject_Z later) = false →
     (exists_ key later locks1).1 = true
     ∧ (tryAcquire round key other ttl' later locks1).1 = false).
Proof.
  cbv zeta. unfold exists_, tryAcquire, dropExpired, has.
  rewrite !lookup_insert_eq. split; intros ->; cbn [fst].
  - by rewrite lookup_delete_eq.
  - by rewrite lookup_insert_eq.
Qed.
End JsNumberFacts.

(** * The drivers' contract *)
Module DriverFacts.
Import Fs.

(** C4. In each of the four drivers, [tryAcquireMultiple] on keys of
    which one has a record that has not expired answers [false] and
    creates nothing: in the memory and SQLite drivers every key reads as
    before or has lost an expired record, in the file and Redis drivers
    what is stored is as before. More generally, whenever a driver does
    not answer [true], whatever the reason, no record it created is left
    (the file driver removes again the files it had created, the SQLite
    transaction is rolled back). *)
Theorem tryAcquireMultiple_all_or_nothing :
  (∀ keys b existing lockValue ttl now (locks : gmap string LockData),
     b ∈ keys → locks !! b = Some existing → now ≤ expiresAt existing →
     ∃ locks',
       MemoryLockDriver.tryAcquireMultiple keys lockValue ttl now locks = (false, locks')
       ∧ locks' !! b = Some existing
       ∧ ∀ k, locks' !! k = locks !! k
              ∨ (locks' !! k = None ∧ ∃ e, locks !! k = Some e ∧ expiresAt e < now))
  ∧ (∀ lockDir sha256Hex keys b existing lockValue ttl now
       (fs : gmap string FileContent),
       b ∈ keys →
       FileLockDriver.readLockFile (FileLockDriver.getLockPath lockDir sha256Hex b) fs
       = Some existing →
       now ≤ expiresAt existing →
       FileLockDriver.tryAcquireMultiple lockDir sha256Hex keys lockValue ttl now fs
       = (false, fs))
  ∧ (∀ keys b row lockValue ttl now (table : gmap string SQLiteLockDriver.Row),
       b ∈ keys → table !! b = Some row → now ≤ SQLiteLockDriver.expires_at row →
       ∃ table',
         SQLiteLockDriver.tryAcquireMultiple keys lockValue ttl now table
         = (Return false, table')
         ∧ ∀ k, table' !! k = table !! k
                ∨ (table' !! k = None
                   ∧ ∃ r, table !! k = Some r ∧ SQLiteLockDriver.expires_at r < now))
  ∧ (∀ keys b lockValue ttl now (db : gmap string (string * Z)),
       b ∈ keys → Redis.EXISTS b now db = 1 →
       RedisLockDriver.tryAcquireMultiple keys lockValue ttl now db = (Return false, db))
  ∧ (∀ keys lockValue ttl now (locks : gmap string LockData),
       (MemoryLockDriver.tryAcquireMultiple keys lockValue ttl now locks).1 = false →
       ∀ k, (MemoryLockDriver.tryAcquireMultiple keys lockValue ttl now locks).2 !! k
            = locks !! k
            ∨ ((MemoryLockDriver.tryAcquireMultiple keys lockValue ttl now locks).2 !! k
               = None
               ∧ ∃ e, locks !! k = Some e ∧ expiresAt e < now))
  ∧ (∀ lockDir sha256Hex keys lockValue ttl now (fs : gmap string FileContent),
       (FileLockDriver.tryAcquireMultiple lockDir sha256Hex keys lockValue ttl now fs).1
       = false →
       (FileLockDriver.tryAcquireMultiple lockDir sha256Hex keys lockValue ttl now fs).2
       = fs)
  ∧ (∀ keys lockValue ttl now (table : gmap string SQLiteLockDriver.Row),
       (SQLiteLockDriver.tryAcquireMultiple keys lockValue ttl now table).1
       ≠ Return true →
       ∀ k, (SQLiteLockDriver.tryAcquireMultiple keys lockValue ttl now table).2 !! k
            = table !! k
            ∨ ((SQLiteLockDriver.tryAcquireMultiple keys lockValue ttl now table).2 !! k
               = None
               ∧ ∃ r, table !! k = Some r ∧ SQLiteLockDriver.expires_at r < now))
  ∧ (∀ keys lockValue ttl now (db : gmap string (string * Z)),
       (RedisLockDriver.tryAcquireMultiple keys lockValue ttl now db).1 ≠ Return true →
       (RedisLockDriver.tryAcquireMultiple keys lockValue ttl now db).2 = db).
Proof.
  split_and!.
  - intros keys b existing lockValue ttl now locks Hin Hb Hlive.
    pose proof (MemoryLockDriverFacts.memory_tryAcquireMultiple_conflict
                  keys b existing lockValue ttl now locks Hin Hb Hlive) as Hfalse.
    pose proof (MemoryLockDriverFacts.memory_tryAcquireMultiple_false
                  keys lockValue ttl now locks Hfalse) as Hkeep.
    destruct (MemoryLockDriver.tryAcquireMultiple keys lockValue ttl now locks)
      as [r locks'] eqn:Hrun.
    cbn [fst snd] in *. subst r. exists locks'. split; [done|]. split; [|done].
    destruct (Hkeep b) as [->|[_ (e & He & Hexp)]]; [done|].
    rewrite Hb in He. simplify_eq. lia.
  - intros. by eapply FileLockDriverFacts.file_tryAcquireMultiple_conflict.
  - intros keys b row lockValue ttl now table Hin Hb Hlive.
    eexists. split.
    + by eapply SQLiteLockDriverFacts.sqlite_tryAcquireMultiple_conflict.
    + apply SQLiteLockDriverFacts.lookup_deleteExpiredIn.
  - intros. by eapply RedisLockDriverFacts.redis_tryAcquireMultiple_conflict.
  - intros. by apply MemoryLockDriverFacts.memory_tryAcquireMultiple_false.
  - intros. by apply FileLockDriverFacts.file_tryAcquireMultiple_false.
  - intros. by apply SQLiteLockDriverFacts.sqlite_tryAcquireMultiple_not_true.
  - intros. by apply RedisLockDriverFacts.redis_tryAcquireMultiple_not_true.
Qed.

(** C5, as the code has it. [release] answers [true] exactly when a
    record is stored for the key, expired or not, whose value is the
    token, and then deletes it; otherwise it answers [false] and leaves
    what is stored as it was. *)
Theorem release_compare_and_delete :
  (∀ key token (locks : gmap string LockData),
     ((MemoryLockDriver.release key token locks).1 = true
      ↔ ∃ existing, locks !! key = Some existing ∧ value existing = token)
     ∧ (MemoryLockDriver.release key token locks).2
       = if (MemoryLockDriver.release key token locks).1
         then delete key locks else locks)
  ∧ (∀ lockDir sha256Hex key token (fs : gmap string FileContent),
       let lockPath := FileLockDriver.getLockPath lockDir sha256Hex key in
       ((FileLockDriver.release lockDir sha256Hex key token fs).1 = true
        ↔ ∃ existing,
            FileLockDriver.readLockFile lockPath fs = Some existing
            ∧ value existing = token)
       ∧ (FileLockDriver.release lockDir sha256Hex key token fs).2
         = if (FileLockDriver.release lockDir sha256Hex key token fs).1
           then delete lockPath fs else fs).
Proof.
  split.
  - intros key token locks. unfold MemoryLockDriver.release.
    destruct (locks !! key) as [existing|]; cbn [fst snd].
    + destruct (decide (value existing = token)) as [Heq|Hne]; cbn [fst snd].
      * split; [|done]. split; [intros _; by exists existing | done].
      * split; [|done]. split; [done | intros (e & [= <-] & He); done].
    + split; [|done]. split; [done | intros (e & ? & _); done].
  - intros lockDir sha256Hex key token fs lockPath.
    unfold FileLockDriver.release. fold lockPath.
    destruct (FileLockDriver.readLockFile lockPath fs) as [existing|] eqn:Hread;
      cbn [fst snd].
    + destruct (decide (value existing = token)) as [Heq|Hne].
      * assert (is_Some (fs !! lockPath)) as [c Hc].
        { unfold FileLockDriver.readLockFile, readFile in Hread.
          destruct (fs !! lockPath); [by eexists | done]. }
        unfold unlink. rewrite Hc. cbn [fst snd].
        split; [|done]. split; [intros _; by exists existing | done].
      * cbn [fst snd]. split; [|done].
        split; [done | intros (e & [= <-] & He); done].
    + split; [|done]. split; [done | intros (e & ? & _); done].
Qed.

(** C6, as the code has it. The time to live is a number, not a whole
    one: the arithmetic is that of doubles, [round] being the rounding to
    the nearest double, which is monotone and leaves the integers up to
    [2 ** 53] as they are. On a key with no record that is still in
    force, at a clock reading below [2 ** 53], the memory driver's
    [tryAcquire] with a zero or negative time to live answers [true] and
    stores a record whose expiry is the rounded [now + ttl * 1000], which
    is never after the clock. A record is expired when its expiry is
    strictly before the clock. So at any strictly later reading [exists]
    answers [false] and another caller's [tryAcquire] answers [true]. At
    the reading of the acquisition itself the record is in force exactly
    when the stored expiry equals the clock ([exists] answers [true],
    another caller is refused), and expired otherwise. The stored expiry
    equals the clock with a zero time to live; it is at least a
    millisecond before the clock when [ttl * 1000 <= -1]; for a negative
    time to live of less than a millisecond it depends on the rounding.
    On a whole number of seconds, within the integers a double holds
    exactly, the stored expiry is [now + ttl * 1000]. *)
Theorem tryAcquire_nonpositive_ttl (round : Q → Q) key lockValue other
    (ttl ttl' : Q) (now later : Z) (locks : gmap string MemoryLockDriverNum.Lock) :
  (∀ x y, (x <= y)%Q → (round x <= round y)%Q) →
  (∀ n : Z, Z.abs n ≤ JsNumber.safe → (round (inject_Z n) == inject_Z n)%Q) →
  0 ≤ now < JsNumber.safe →
  (ttl <= 0)%Q →
  (∀ existing, locks !! key = Some existing →
     (MemoryLockDriverNum.expiresAt existing < inject_Z now)%Q) →
  let stored := round (inject_Z now + round (ttl * 1000))%Q in
  let locks1 := (MemoryLockDriverNum.tryAcquire round key lockValue ttl now locks).2 in
  (MemoryLockDriverNum.tryAcquire round key lockValue ttl now locks).1 = true
  ∧ locks1 !! key = Some {| MemoryLockDriverNum.value := lockValue;
                            MemoryLockDriverNum.expiresAt := stored;
                            MemoryLockDriverNum.createdAt := now |}
  ∧ (stored <= inject_Z now)%Q
  ∧ (now < later →
     (MemoryLockDriverNum.exists_ key later locks1).1 = false
     ∧ (MemoryLockDriverNum.tryAcquire round key other ttl' later locks1).1 = true)
  ∧ ((stored == inject_Z now)%Q →
     (MemoryLockDriverNum.exists_ key now locks1).1 = true
     ∧ (MemoryLockDriverNum.tryAcquire round key other ttl' now locks1).1 = false)
  ∧ ((stored < inject_Z now)%Q →
     (MemoryLockDriverNum.exists_ key now locks1).1 = false
     ∧ (MemoryLockDriverNum.tryAcquire round key other ttl' now locks1).1 = true)
  ∧ ((ttl == 0)%Q → (stored == inject_Z now)%Q)
  ∧ ((ttl * 1000 <= -1)%Q → (stored <= inject_Z now - 1)%Q)
  ∧ (∀ n : Z,
       (ttl == inject_Z n)%Q →
       Z.abs (n * 1000) ≤ JsNumber.safe →
       Z.abs (now + n * 1000) ≤ JsNumber.safe →
       (stored == inject_Z (now + n * 1000))%Q).
Proof.
  intros Hmono Hexact Hnow Httl Hfree stored locks1.
  assert (JsNumber.safe = 9007199254740992) as Hsafe by reflexivity.
  assert (round (inject_Z now) == inject_Z now)%Q as Hclock by (apply Hexact; lia).
  assert (round 0 == 0)%Q as Hzero by (apply (Hexact 0); lia).
  assert (round (ttl * 1000) <= 0)%Q as Hterm.
  { rewrite <- Hzero. apply Hmono. lra. }
  assert (stored <= inject_Z now)%Q as Hstored.
  { unfold stored. rewrite <- Hclock at 2. apply Hmono. lra. }
  assert (MemoryLockDriverNum.tryAcquire round key lockValue ttl now locks
          = (true, <[key := {| MemoryLockDriverNum.value := lockValue;
                               MemoryLockDriverNum.expiresAt := stored;
                               MemoryLockDriverNum.createdAt := now |}]>
                     (MemoryLockDriverNum.dropExpired now locks key))) as Hrun.
  { unfold MemoryLockDriverNum.tryAcquire.
    assert (MemoryLockDriverNum.dropExpired now locks key !! key = None) as Hnone.
    { unfold MemoryLockDriverNum.dropExpired. destruct (locks !! key) as [e|] eqn:He; [|done].
      specialize (Hfree e eq_refl). apply JsNumberFacts.ltb_lt in Hfree. rewrite Hfree.
      apply lookup_delete_eq. }
    unfold MemoryLockDriverNum.has. by rewrite Hnone. }
  unfold locks1. rewrite Hrun. cbn [fst snd].
  split; [done|]. split; [apply lookup_insert_eq|]. split; [done|].
  split; [|split; [|split; [|split; [|split]]]].
  - intros Hlater.
    apply (JsNumberFacts.after_acquire round key
             {| MemoryLockDriverNum.value := lockValue;
                MemoryLockDriverNum.expiresAt := stored;
                MemoryLockDriverNum.createdAt := now |}).
    cbn [MemoryLockDriverNum.expiresAt]. apply JsNumberFacts.ltb_lt. rewrite Zlt_Qlt in Hlater. lra.
  - intros Heq.
    apply (JsNumberFacts.after_acquire round key
             {| MemoryLockDriverNum.value := lockValue;
                MemoryLockDriverNum.expiresAt := stored;
                MemoryLockDriverNum.createdAt := now |}).
    cbn [MemoryLockDriverNum.expiresAt]. apply JsNumberFacts.ltb_ge. rewrite Heq. apply Qle_refl.
  - intros Hlt.
    apply (JsNumberFacts.after_acquire round key
             {| MemoryLockDriverNum.value := lockValue;
                MemoryLockDriverNum.expiresAt := stored;
                MemoryLockDriverNum.createdAt := now |}).
    cbn [MemoryLockDriverNum.expiresAt]. by apply JsNumberFacts.ltb_lt.
  - intros Hz. unfold stored. rewrite <- Hclock at 2.
    apply JsNumberFacts.round_comp; [done|].
    assert (round (ttl * 1000) == round 0)%Q as ->; [|lra].
    apply JsNumberFacts.round_comp; [done|]. lra.
  - intros Hms.
    assert (round (-1) == -1)%Q as Hm1 by (apply (Hexact (-1)); lia).
    assert (round (ttl * 1000) <= -1)%Q as Hterm1.
    { rewrite <- Hm1. by apply Hmono. }
    assert (round (inject_Z (now - 1)) == inject_Z (now - 1))%Q as Hprev
      by (apply Hexact; lia).
    assert (inject_Z (now - 1) == inject_Z now - 1)%Q as Hsub.
    { unfold Z.sub. rewrite inject_Z_plus. reflexivity. }
    rewrite <- Hsub, <- Hprev. apply Hmono. rewrite Hsub. lra.
  - intros n Hn Hn1 Hn2.
    assert (ttl * 1000 == inject_Z (n * 1000))%Q as Hprod.
    { rewrite inject_Z_mult, Hn. reflexivity. }
    assert (round (ttl * 1000) == inject_Z (n * 1000))%Q as Hr1.
    { rewrite <- (Hexact (n * 1000) Hn1). by apply JsNumberFacts.round_comp. }
    unfold stored. rewrite <- (Hexact (now + n * 1000) Hn2).
    apply JsNumberFacts.round_comp; [done|]. rewrite inject_Z_plus, Hr1. reflexivity.
Qed.
End DriverFacts.

(** * The statements above at concrete inputs *)
Module Cases.
Import AtomicLock Fs.

(** C1, the driver answering [false]: the coordinator of [Sample.held]
    asks for the key the driver already holds. The breaker is closed,
    the driver answers [false], [null] is returned, and no failure is
    recorded for the key. *)
Lemma tryAcquire_contention_records_nothing :
  isCircuitOpen "r" Sample.held = false
  ∧ (Driver.tryAcquire "r" (Sample.uuid 0) 10 1000 (driver Sample.held)).1
    = Return false
  ∧ (tryAcquire Sample.uuid "r" LockOptions.none Sample.held).1 = Return None
  ∧ ¬ (∃ failure,
         JsMap.get "r"
           (lockFailures (tryAcquire Sample.uuid "r" LockOptions.none Sample.held).2)
         = Some failure)
  ∧ CircuitBreakerStats.failureCount
      (getCircuitBreakerStatus "r"
         (tryAcquire Sample.uuid "r" LockOptions.none Sample.held).2) = 0.
Proof.
  split_and!; try (vm_compute; reflexivity).
  intros [failure Hget]. vm_compute in Hget. discriminate.
Qed.

(** C1 at a driver that rejects. *)
Lemma tryAcquire_closed_circuit_rejecting_driver :
  (tryAcquire Sample.uuid "r" LockOptions.none Sample.failing).1 = Return None
  ∧ ∃ failure,
      JsMap.get "r"
        (lockFailures (tryAcquire Sample.uuid "r" LockOptions.none Sample.failing).2)
      = Some failure
      ∧ lastFailure failure = 1000.
Proof.
  pose proof (AtomicLockFacts.tryAcquire_closed_circuit Sample.uuid "r"
                LockOptions.none Sample.failing (NoDup_nil_2) eq_refl) as H.
  cbv zeta in H. destruct H as (_ & _ & H).
  change ((Driver.tryAcquire "r" (Sample.uuid (uuidDrawn Sample.failing))
             (default 10 (LockOptions.expiryInSeconds LockOptions.none))
             (dateNow Sample.failing) (driver Sample.failing)).1)
    with (@Throw bool (Error "Driver error")) in H.
  destruct H as (Hres & _ & failure & Hget & Hlast & _).
  split; [exact Hres|]. exists failure. split; [exact Hget | exact Hlast].
Defined.

(** C5, a token that matches an expired record (the memory driver's
    test of releasing an expired lock): the record expired at 1001000,
    the clock reads 1002000, and [release] answers [true] and deletes. *)
Lemma release_of_expired_record :
  let locks : gmap string LockData :=
    {[ "test-key" := Sample.record "value" 1001000 1000000 ]} in
  let now := 1002000 in
  MemoryLockDriver.release "test-key" "value" locks = (true, ∅)
  ∧ ¬ (∃ existing,
         locks !! "test-key" = Some existing
         ∧ now < expiresAt existing
         ∧ value existing = "value").
Proof.
  split; [vm_compute; reflexivity|].
  intros (existing & Hget & Hlive & _).
  vm_compute in Hget. injection Hget as <-. vm_compute in Hlive. discriminate.
Qed.

(** C6, a zero time to live (the memory driver's test of a zero
    expiry): at the reading the lock was taken [exists] answers [true]
    and another caller is refused. *)
Lemma zero_ttl_record_is_in_force_at_once :
  let locks1 := (MemoryLockDriver.tryAcquire "zero-expiry" "value" 0 1000 ∅).2 in
  (MemoryLockDriver.tryAcquire "zero-expiry" "value" 0 1000 ∅).1 = true
  ∧ (MemoryLockDriver.exists_ "zero-expiry" 1000 locks1).1 ≠ false
  ∧ (MemoryLockDriver.tryAcquire "zero-expiry" "other" 30 1000 locks1).1 ≠ true.
Proof. split_and!; vm_compute; congruence. Qed.

(** C6 at a time to live of minus a nanosecond, the clock at a reading of
    the year 2026 and the doubles near it the multiples of [2 ** -12]: the
    product [-0.000001] rounds to 0 on that grid, the stored expiry is
    the clock itself, so in the same millisecond [exists] answers [true]
    and another caller is refused; a millisecond later the record has
    expired. *)
Lemma tryAcquire_nonpositive_ttl_tiny :
  let now := 1790000000000 in
  let ttl := (-1 # 1000000000)%Q in
  let locks1 := (MemoryLockDriverNum.tryAcquire JsNumber.roundGrid "negative-expiry" "value" ttl now ∅).2 in
  (MemoryLockDriverNum.tryAcquire JsNumber.roundGrid "negative-expiry" "value" ttl now ∅).1 = true
  ∧ (MemoryLockDriverNum.exists_ "negative-expiry" now locks1).1 = true
  ∧ (MemoryLockDriverNum.tryAcquire JsNumber.roundGrid "negative-expiry" "other" 30 now locks1).1 = false
  ∧ (MemoryLockDriverNum.exists_ "negative-expiry" (now + 1) locks1).1 = false
  ∧ (MemoryLockDriverNum.tryAcquire JsNumber.roundGrid "negative-expiry" "other" 30 (now + 1) locks1).1 = true.
Proof.
  intros now ttl locks1.
  destruct (DriverFacts.tryAcquire_nonpositive_ttl JsNumber.roundGrid "negative-expiry"
              "value" "other" ttl 30 now (now + 1) ∅)
    as (Hacq & _ & _ & Hlater & Hsame & _).
  - apply JsNumberFacts.roundGrid_mono.
  - intros n _. apply JsNumberFacts.roundGrid_exact.
  - vm_compute. split; [discriminate | reflexivity].
  - vm_compute. discriminate.
  - intros existing Hget. rewrite lookup_empty in Hget. discriminate.
  - split; [exact Hacq|].
    destruct Hsame as [Hex Hother]; [vm_compute; reflexivity|].
    destruct Hlater as [Hex' Hother']; [vm_compute; reflexivity|].
    split; [exact Hex|]. split; [exact Hother|]. split; [exact Hex' | exact Hother'].
Defined.

(** C6 at the time to live of the driver's test of a negative expiry,
    ten seconds: the record has expired in the very millisecond it was
    stored. *)
Lemma negative_ttl_of_whole_seconds :
  let locks1 :=
    (MemoryLockDriverNum.tryAcquire JsNumber.roundGrid "negative-expiry" "value"
       (-10) 1000 ∅).2 in
  (MemoryLockDriverNum.tryAcquire JsNumber.roundGrid "negative-expiry" "value"
     (-10) 1000 ∅).1 = true
  ∧ (MemoryLockDriverNum.exists_ "negative-expiry" 1000 locks1).1 = false
  ∧ (MemoryLockDriverNum.tryAcquire JsNumber.roundGrid "negative-expiry" "other"
       30 1000 locks1).1 = true.
Proof. split_and!; vm_compute; reflexivity. Qed.

(** C7 at a coordinator that keeps at most two records: after each of
    three failures on three keys it holds at most two. *)
Lemma recordLockFailure_bounded_small :
  Forall (fun s => JsMap.size (lockFailures s) ≤ 2)
    (recordAll [("a", 1001); ("b", 1002); ("c", 1003)] Sample.small).
Proof.
  pose proof (AtomicLockFacts.recordLockFailure_bounded
                [("a", 1001); ("b", 1002); ("c", 1003)] Sample.small) as H.
  destruct H as [Hall _].
  - vm_compute. discriminate.
  - apply NoDup_nil_2.
  - vm_compute. discriminate.
  - exact Hall.
Defined.

(** C4 at the keys of the drivers' tests: [key2] is held, and neither
    [key1] nor [key3] has a record afterwards. *)
Lemma tryAcquireMultiple_all_or_nothing_key2_held :
  (let locks : gmap string LockData :=
     {[ "key2" := Sample.record "existing-value" 31000 1000 ]} in
   ∃ locks',
     MemoryLockDriver.tryAcquireMultiple ["key1"; "key2"; "key3"] "multi-lock-value"
       15 1000 locks = (false, locks')
     ∧ locks' !! "key1" = None ∧ locks' !! "key3" = None)
  ∧ (let path := FileLockDriver.getLockPath Sample.lockDir Sample.noHash in
     let fs : gmap string FileContent :=
       {[ path "key2" := Json (Sample.record "existing" 61000 1000) ]} in
     FileLockDriver.tryAcquireMultiple Sample.lockDir Sample.noHash
       ["key1"; "key2"; "key3"] "value1" 60 1000 fs = (false, fs)).
Proof.
  destruct DriverFacts.tryAcquireMultiple_all_or_nothing as (Hmem & Hfile & _).
  split.
  - intros locks.
    destruct (Hmem ["key1"; "key2"; "key3"] "key2"
                (Sample.record "existing-value" 31000 1000) "multi-lock-value"
                15 1000 locks) as (locks' & Hrun & _ & Hkeep).
    + apply list_elem_of_In. vm_compute. tauto.
    + vm_compute. reflexivity.
    + vm_compute. discriminate.
    + exists locks'. split; [exact Hrun|]. split.
      * destruct (Hkeep "key1") as [->|[-> _]]; [vm_compute|]; reflexivity.
      * destruct (Hkeep "key3") as [->|[-> _]]; [vm_compute|]; reflexivity.
  - intros path fs.
    apply (Hfile Sample.lockDir Sample.noHash ["key1"; "key2"; "key3"] "key2"
             (Sample.record "existing" 61000 1000)).
    + apply list_elem_of_In. vm_compute. tauto.
    + vm_compute. reflexivity.
    + vm_compute. discriminate.
Defined.

(** C8 in the file driver: the lock file of ["k"] holds a record that
    expired at 1000 and the clock reads 2000. [exists] answers [false],
    the memory driver's [getLockInfo] answers [null] for the same
    record, and the file driver's [getLockInfo] answers with the expired
    record. *)
Lemma file_getLockInfo_returns_expired_record :
  let path := FileLockDriver.getLockPath Sample.lockDir Sample.noHash in
  let fs : gmap string FileContent := {[ path "k" := Json (Sample.record "v" 1000 0) ]} in
  let locks : gmap string LockData := {[ "k" := Sample.record "v" 1000 0 ]} in
  FileLockDriver.exists_ Sample.lockDir Sample.noHash "k" 2000 fs = false
  ∧ (MemoryLockDriver.getLockInfo "k" 2000 locks).1 = None
  ∧ FileLockDriver.getLockInfo Sample.lockDir Sample.noHash "k" fs
    = Some (LockInfo.mk "k" "v" 1000 (Some 0)).
Proof. split_and!; vm_compute; reflexivity. Qed.

(** C9: the class has no member [tryAcquireMultiple] (nor
    [releaseMultiple]); what it exposes for acquisition is [tryAcquire],
    [acquire] and [withLock]. *)
Lemma atomicLock_has_no_tryAcquireMultiple :
  JsMap.get "tryAcquireMultiple" members = None
  ∧ exposes "tryAcquireMultiple" = false
  ∧ exposes "releaseMultiple" = false
  ∧ exposes "tryAcquire" = true
  ∧ exposes "acquire" = true
  ∧ exposes "withLock" = true.
Proof. split_and!; vm_compute; reflexivity. Qed.

(** At the tripped breaker the driver would grant the lock,
    and is not asked. *)
Lemma tryAcquire_open_circuit_tripped :
  tryAcquire Sample.uuid "k" LockOptions.none Sample.tripped
  = (Return None, Sample.tripped).
Proof.
  apply (AtomicLockFacts.tryAcquire_open_circuit Sample.uuid "k" LockOptions.none
           Sample.tripped).
  vm_compute. reflexivity.
Defined.

(** X3: a fourth failure of the tripped key within the window counts 4. *)
Lemma recordLockFailure_count_tripped :
  ∃ failure,
    JsMap.get "k" (lockFailures (recordLockFailure "k" Sample.tripped)) = Some failure
    ∧ lastFailure failure = 2000
    ∧ count failure = 4.
Proof.
  destruct (AtomicLockFacts.recordLockFailure_count "k" Sample.tripped)
    as (failure & Hget & Hlast & Hcount).
  - apply NoDup_cons. split; [apply not_elem_of_nil | apply NoDup_nil_2].
  - vm_compute. reflexivity.
  - exists failure. split; [exact Hget|]. split; [exact Hlast | exact Hcount].
Defined.

(** X4: ["r"] is held by [T1]; a second acquisition is refused. *)
Lemma tryAcquire_held_r :
  MemoryLockDriver.tryAcquire "r" "T2" 5 1000
    ({[ "r" := Sample.record "T1" 6000 1000 ]} : gmap string LockData)
  = (false, {[ "r" := Sample.record "T1" 6000 1000 ]}).
Proof.
  apply (MemoryLockDriverFacts.tryAcquire_held "r" "T2" 5 1000 _
           (Sample.record "T1" 6000 1000)).
  - vm_compute. reflexivity.
  - vm_compute. discriminate.
Defined.

(** X5: once released the key is free, and [T2] acquires it. *)
Lemma tryAcquire_free_r :
  ∃ locks',
    MemoryLockDriver.tryAcquire "r" "T2" 5 1000 (∅ : gmap string LockData) = (true, locks')
    ∧ locks' !! "r" = Some (Sample.record "T2" 6000 1000).
Proof.
  destruct (MemoryLockDriverFacts.tryAcquire_free "r" "T2" 5 1000 ∅)
    as (locks' & Hrun & Hget & _).
  - intros existing Hget. rewrite lookup_empty in Hget. discriminate.
  - exists locks'. split; [exact Hrun | exact Hget].
Defined.
End Cases.

(** * The breaker over several calls *)
Module BreakerFacts.
Import AtomicLock JsMapFacts AtomicLockFacts.

Section Sweep.
Context {V : Type}.
Implicit Types (m : list (string * V)) (k : string).

(** What a key reads after a sweep: its entry, unless that was stale. *)
Lemma get_sweep (stale : V → bool) k m :
  JsMap.wf m →
  JsMap.get k (JsMap.sweep stale m)
  = match JsMap.get k m with
    | Some v => if stale v then None else Some v
    | None => None
    end.
Proof.
  unfold JsMap.wf, JsMap.keys. induction m as [|[k' v'] m IH]; [done|].
  rewrite fmap_cons, NoDup_cons. cbn [fst]. intros [Hnin Hnd].
  cbn [JsMap.sweep JsMap.get].
  destruct (decide (k' = k)) as [->|Hne].
  - destruct (stale v') eqn:Hs.
    + rewrite IH by done.
      apply (proj2 (get_None_keys k m)) in Hnin. by rewrite Hnin.
    + cbn [JsMap.get]. by rewrite decide_True.
  - destruct (stale v'); [by apply IH|].
    cbn [JsMap.get]. rewrite decide_False by done. by apply IH.
Qed.
End Sweep.

Section Facts.
Context {D : Type} `{!Driver.LockDriver D}.
Variable uuidv4 : nat → string.
Implicit Types (s : State D) (key : string).

(** [recordLockFailure] when the map is below its maximum: the sweep (if
    due), then the upsert; nothing is evicted. *)
Lemma recordLockFailure_below_max key s :
  JsMap.wf (lockFailures s) →
  JsMap.size (lockFailures s) < maxFailureEntries s →
  lockFailures (recordLockFailure key s)
  = JsMap.set key
      {| count := match JsMap.get key (lockFailures (maybeCleanup s)) with
                  | Some existing =>
                      if circuitBreakerResetTime s <? dateNow s - lastFailure existing
                      then 1 else count existing + 1
                  | None => 1
                  end;
         lastFailure := dateNow s |}
      (lockFailures (maybeCleanup s)).
Proof.
  intros Hwf Hsize. unfold recordLockFailure.
  pose proof (size_maybeCleanup s) as Hclean.
  destruct (frame_maybeCleanup s) as (Hnow & Hrt & Hmx & _).
  assert (evictOldest (maybeCleanup s) = maybeCleanup s) as ->.
  { unfold evictOldest. rewrite Hmx.
    destruct (maxFailureEntries s <=? JsMap.size (lockFailures (maybeCleanup s))) eqn:Hfull;
      [|done].
    apply Z.leb_le in Hfull. lia. }
  unfold upsertFailure. rewrite Hnow, Hrt.
  by destruct (JsMap.get key (lockFailures (maybeCleanup s))).
Qed.

(** A failure of a key that has a fresh record: the count goes up by one
    and the map does not grow. *)
Lemma recordLockFailure_again key s old :
  JsMap.wf (lockFailures s) →
  JsMap.size (lockFailures s) < maxFailureEntries s →
  JsMap.get key (lockFailures s) = Some old →
  dateNow s - lastFailure old ≤ circuitBreakerResetTime s →
  JsMap.get key (lockFailures (recordLockFailure key s))
  = Some {| count := count old + 1; lastFailure := dateNow s |}
  ∧ JsMap.size (lockFailures (recordLockFailure key s)) ≤ JsMap.size (lockFailures s).
Proof.
  intros Hwf Hsize Hold Hfresh.
  rewrite recordLockFailure_below_max by done.
  assert ((circuitBreakerResetTime s <? dateNow s - lastFailure old) = false) as Hnot
    by (apply Z.ltb_ge; lia).
  assert (JsMap.get key (lockFailures (maybeCleanup s)) = Some old) as Hkept.
  { rewrite lockFailures_maybeCleanup. case_match; [|done].
    rewrite get_sweep by done. by rewrite Hold, Hnot. }
  rewrite Hkept, Hnot, get_set_eq. split; [done|].
  pose proof (size_maybeCleanup s) as Hclean. unfold JsMap.size in *.
  rewrite length_set. unfold JsMap.has. rewrite Hkept. lia.
Qed.

(** The first failure of a key: a record with count 1, and at most one
    entry more. *)
Lemma recordLockFailure_first key s :
  JsMap.wf (lockFailures s) →
  JsMap.size (lockFailures s) < maxFailureEntries s →
  JsMap.get key (lockFailures s) = None →
  JsMap.get key (lockFailures (recordLockFailure key s))
  = Some {| count := 1; lastFailure := dateNow s |}
  ∧ JsMap.size (lockFailures (recordLockFailure key s)) ≤ JsMap.size (lockFailures s) + 1.
Proof.
  intros Hwf Hsize Hnone.
  rewrite recordLockFailure_below_max by done.
  assert (JsMap.get key (lockFailures (maybeCleanup s)) = None) as Hstill.
  { rewrite lockFailures_maybeCleanup. case_match; [|done].
    rewrite get_sweep by done. by rewrite Hnone. }
  rewrite Hstill, get_set_eq. split; [done|].
  pose proof (size_maybeCleanup s) as Hclean. unfold JsMap.size in *.
  rewrite length_set. unfold JsMap.has. rewrite Hstill. lia.
Qed.

(** The state a rejected attempt leaves: the failure recorded, the driver
    as the call left it, the call logged, one identifier more handed out. *)
Lemma tryAcquire_rejected key options s e d :
  isCircuitOpen key s = false →
  Driver.tryAcquire key (uuidv4 (uuidDrawn s))
    (default 10 (LockOptions.expiryInSeconds options)) (dateNow s) (driver s)
  = (Throw e, d) →
  (tryAcquire uuidv4 key options s).2
  = withDriver (CallTryAcquire key (uuidv4 (uuidDrawn s))
                  (default 10 (LockOptions.expiryInSeconds options))) d
      (withUuidDrawn (S (uuidDrawn s)) (recordLockFailure key s)).
Proof.
  intros Hclosed Hrej. rewrite tryAcquire_unfold, Hclosed. cbv zeta. rewrite Hrej.
  cbn [snd]. by rewrite recordLockFailure_withDriver, recordLockFailure_withUuidDrawn.
Qed.

(** What [n] attempts in a row on one key leave, when the driver rejects
    every call and the clock stands still. *)
Lemma rejected_attempts (Rejecting : D → Prop) key options s n :
  (∀ d, Rejecting d → ∀ lockValue expiry now,
     ∃ e d', Driver.tryAcquire key lockValue expiry now d = (Throw e, d')
             ∧ Rejecting d') →
  Rejecting (driver s) →
  JsMap.wf (lockFailures s) →
  JsMap.get key (lockFailures s) = None →
  JsMap.size (lockFailures s) + 1 < maxFailureEntries s →
  0 < circuitBreakerResetTime s →
  1 ≤ circuitBreakerThreshold s →
  let s' := Nat.iter n (fun s0 => (tryAcquire uuidv4 key options s0).2) s in
  dateNow s' = dateNow s
  ∧ circuitBreakerThreshold s' = circuitBreakerThreshold s
  ∧ circuitBreakerResetTime s' = circuitBreakerResetTime s
  ∧ maxFailureEntries s' = maxFailureEntries s
  ∧ Rejecting (driver s')
  ∧ JsMap.wf (lockFailures s')
  ∧ JsMap.get key (lockFailures s')
    = match n with
      | O => None
      | S _ => Some {| count := Z.min (Z.of_nat n) (circuitBreakerThreshold s);
                       lastFailure := dateNow s |}
      end
  ∧ JsMap.size (lockFailures s') + (match n with O => 1 | S _ => 0 end)
    < maxFailureEntries s
  ∧ Z.of_nat (length (driverCalls s'))
    = Z.of_nat (length (driverCalls s))
      + Z.min (Z.of_nat n) (circuitBreakerThreshold s).
Proof.
  intros Hrej Hdrv Hwf Hnone Hsize Hrt Hth.
  induction n as [|n IH]; cbv zeta.
  { unfold Nat.iter. cbn [nat_rect]. split_and!; try done. lia. }
  cbv zeta in IH. rewrite Nat.iter_succ.
  set (sn := Nat.iter n (fun s0 => (tryAcquire uuidv4 key options s0).2) s) in *.
  destruct IH as (Hnow & Hthn & Hrtn & Hmxn & Hdrvn & Hwfn & Hget & Hsz & Hcalls).
  destruct (decide (circuitBreakerThreshold s ≤ Z.of_nat n)) as [Hopen|Hclosed].
  - (* the breaker is open: nothing happens *)
    destruct n as [|n]; [lia|].
    assert (isCircuitOpen key sn = true) as Hisopen.
    { unfold isCircuitOpen. rewrite Hget. cbn [count lastFailure].
      rewrite Hthn, Hrtn, Hnow. apply andb_true_iff. split.
      - apply Z.leb_le. lia.
      - apply Z.ltb_lt. lia. }
    rewrite tryAcquire_unfold, Hisopen. cbn [snd].
    split_and!; try done.
    + rewrite Hget. f_equal. f_equal. lia.
    + lia.
  - (* the breaker is closed: the driver is asked, and rejects *)
    assert (isCircuitOpen key sn = false) as Hisclosed.
    { unfold isCircuitOpen. rewrite Hget. destruct n as [|n]; [done|].
      cbn [count]. rewrite Hthn. apply andb_false_iff. left.
      apply Z.leb_gt. lia. }
    destruct (Hrej (driver sn) Hdrvn (uuidv4 (uuidDrawn sn))
                (default 10 (LockOptions.expiryInSeconds options))
                (dateNow sn)) as (e & d & Hthrow & Hd).
    rewrite (tryAcquire_rejected key options sn e d Hisclosed Hthrow).
    cbn [dateNow circuitBreakerThreshold circuitBreakerResetTime maxFailureEntries
         lockFailures driverCalls driver withDriver withUuidDrawn].
    destruct (frame_recordLockFailure key sn) as (Hf1 & Hf2 & Hf3 & _ & Hf5).
    assert (circuitBreakerThreshold (recordLockFailure key sn)
            = circuitBreakerThreshold sn) as Hf0.
    { unfold recordLockFailure, upsertFailure, evictOldest, maybeCleanup.
      repeat case_match; done. }
    rewrite Hf1, Hf0, Hf2, Hf3, Hf5, length_app. cbn [length].
    assert (JsMap.size (lockFailures sn) < maxFailureEntries sn) as Hbelow.
    { rewrite Hmxn. destruct n; lia. }
    split_and!; try done.
    + by apply wf_recordLockFailure.
    + destruct n as [|n].
      * destruct (recordLockFailure_first key sn Hwfn Hbelow Hget) as [-> _].
        rewrite Hnow. f_equal. f_equal. lia.
      * destruct (recordLockFailure_again key sn _ Hwfn Hbelow Hget) as [-> _].
        { cbn [lastFailure]. rewrite Hnow, Hrtn. lia. }
        cbn [count]. rewrite Hnow. f_equal. f_equal. lia.
    + destruct n as [|n].
      * destruct (recordLockFailure_first key sn Hwfn Hbelow Hget) as [_ Hle]. lia.
      * destruct (recordLockFailure_again key sn _ Hwfn Hbelow Hget) as [_ Hle].
        { cbn [lastFailure]. rewrite Hnow, Hrtn. lia. }
        lia.
    + lia.
Qed.

(** X8. The breaker trips at the threshold. After [n] attempts in a row
    on a key that had no failure record, made while the driver rejects
    every call, the clock stands still and the map is below its maximum,
    the key's failure count is [min n threshold], its breaker is open
    exactly when [n] has reached the threshold, and the driver has been
    called [min n threshold] times: the attempts past the threshold never
    reach it. *)
Theorem breaker_trips_at_threshold (Rejecting : D → Prop) key options s n :
  (∀ d, Rejecting d → ∀ lockValue expiry now,
     ∃ e d', Driver.tryAcquire key lockValue expiry now d = (Throw e, d')
             ∧ Rejecting d') →
  Rejecting (driver s) →
  JsMap.wf (lockFailures s) →
  JsMap.get key (lockFailures s) = None →
  JsMap.size (lockFailures s) + 1 < maxFailureEntries s →
  0 < circuitBreakerResetTime s →
  1 ≤ circuitBreakerThreshold s →
  let s' := Nat.iter n (fun s0 => (tryAcquire uuidv4 key options s0).2) s in
  CircuitBreakerStats.failureCount (getCircuitBreakerStatus key s')
  = Z.min (Z.of_nat n) (circuitBreakerThreshold s)
  ∧ CircuitBreakerStats.isOpen (getCircuitBreakerStatus key s')
    = bool_decide (circuitBreakerThreshold s ≤ Z.of_nat n)
  ∧ Z.of_nat (length (driverCalls s'))
    = Z.of_nat (length (driverCalls s))
      + Z.min (Z.of_nat n) (circuitBreakerThreshold s).
Proof.
  intros Hrej Hdrv Hwf Hnone Hsize Hrt Hth s'.
  destruct (rejected_attempts Rejecting key options s n Hrej Hdrv Hwf Hnone Hsize Hrt Hth)
    as (Hnow & Hthn & Hrtn & _ & _ & _ & Hget & _ & Hcalls).
  fold s' in Hnow, Hthn, Hrtn, Hget, Hcalls.
  unfold getCircuitBreakerStatus, isCircuitOpen. cbn. rewrite Hget.
  split_and!; [| |done].
  - destruct n; cbn; lia.
  - destruct n as [|n]; cbn [count lastFailure].
    + symmetry. apply bool_decide_eq_false. lia.
    + rewrite Hthn, Hrtn, Hnow.
      assert ((dateNow s - dateNow s <? circuitBreakerResetTime s) = true) as ->
        by (apply Z.ltb_lt; lia).
      rewrite andb_true_r.
      destruct (decide (circuitBreakerThreshold s ≤ Z.of_nat (S n))) as [Hge|Hlt].
      * rewrite bool_decide_eq_true_2 by done. apply Z.leb_le. lia.
      * rewrite bool_decide_eq_false_2 by done. apply Z.leb_gt. lia.
Qed.

(** A closed breaker lets the attempt through to the driver. *)
Lemma tryAcquire_reaches_driver key options s :
  isCircuitOpen key s = false →
  driverCalls (tryAcquire uuidv4 key options s).2
  = driverCalls s ++ [CallTryAcquire key (uuidv4 (uuidDrawn s))
                        (default 10 (LockOptions.expiryInSeconds options))].
Proof.
  intros Hclosed. rewrite tryAcquire_unfold, Hclosed. cbv zeta.
  destruct (Driver.tryAcquire _ _ _ _ _) as [[[|]|e] d]; cbn [snd]; [done|done|].
  by destruct (frame_recordLockFailure key
                 (withDriver (CallTryAcquire key (uuidv4 (uuidDrawn s))
                                (default 10 (LockOptions.expiryInSeconds options))) d
                    (withUuidDrawn (S (uuidDrawn s)) s))) as (_ & _ & _ & _ & ->).
Qed.

(** X2. [nextAttemptAt] is the instant the breaker closes. When the
    status of a key reports an open breaker it reports a [nextAttemptAt]
    that lies after the clock, and at any clock reading (the failure
    records staying as they are) the breaker is open exactly before that
    instant: before it [tryAcquire] answers [null] and changes nothing,
    from it on [tryAcquire] calls the driver. *)
Theorem breaker_closes_at_nextAttemptAt key options s :
  CircuitBreakerStats.isOpen (getCircuitBreakerStatus key s) = true →
  ∃ t,
    CircuitBreakerStats.nextAttemptAt (getCircuitBreakerStatus key s) = Some t
    ∧ dateNow s < t
    ∧ ∀ now,
        let s' := withClock now s in
        CircuitBreakerStats.isOpen (getCircuitBreakerStatus key s')
        = bool_decide (now < t)
        ∧ (now < t → tryAcquire uuidv4 key options s' = (Return None, s'))
        ∧ (t ≤ now →
           driverCalls (tryAcquire uuidv4 key options s').2
           = driverCalls s ++ [CallTryAcquire key (uuidv4 (uuidDrawn s))
                                 (default 10 (LockOptions.expiryInSeconds options))]).
Proof.
  unfold getCircuitBreakerStatus. cbv zeta.
  cbn [CircuitBreakerStats.isOpen CircuitBreakerStats.nextAttemptAt].
  unfold isCircuitOpen at 1.
  destruct (JsMap.get key (lockFailures s)) as [f|] eqn:Hget; [|done].
  cbv zeta. intros Hopen. apply andb_true_iff in Hopen as [Hover Hwithin].
  apply Z.ltb_lt in Hwithin.
  exists (lastFailure f + circuitBreakerResetTime s). split; [done|]. split; [lia|].
  intros now. set (s' := withClock now s).
  assert (isCircuitOpen key s'
          = bool_decide (now < lastFailure f + circuitBreakerResetTime s)) as Hiff.
  { unfold isCircuitOpen, s'. cbn [lockFailures withClock circuitBreakerThreshold
      circuitBreakerResetTime dateNow]. rewrite Hget, Hover. cbn [andb].
    destruct (decide (now < lastFailure f + circuitBreakerResetTime s)).
    - rewrite bool_decide_eq_true_2 by done. apply Z.ltb_lt. lia.
    - rewrite bool_decide_eq_false_2 by done. apply Z.ltb_ge. lia. }
  split; [done|]. split.
  - intros Hlt. rewrite tryAcquire_unfold, Hiff. by rewrite bool_decide_eq_true_2.
  - intros Hge. rewrite tryAcquire_reaches_driver; [done|].
    rewrite Hiff. apply bool_decide_eq_false_2. lia.
Qed.

(** X9. [cleanupFailureRecords] deletes exactly the records whose last
    failure is more than a reset window ago and keeps the others as they
    are; it neither opens nor closes the breaker of any key. *)
Theorem cleanupFailureRecords_keeps_breakers key s :
  JsMap.wf (lockFailures s) →
  JsMap.get key (lockFailures (cleanupFailureRecords s))
  = match JsMap.get key (lockFailures s) with
    | Some failure =>
        if decide (dateNow s - lastFailure failure ≤ circuitBreakerResetTime s)
        then Some failure else None
    | None => None
    end
  ∧ isCircuitOpen key (cleanupFailureRecords s) = isCircuitOpen key s
  ∧ JsMap.wf (lockFailures (cleanupFailureRecords s))
  ∧ JsMap.size (lockFailures (cleanupFailureRecords s)) ≤ JsMap.size (lockFailures s).
Proof.
  intros Hwf. unfold cleanupFailureRecords, isCircuitOpen.
  cbn [lockFailures withLockFailures circuitBreakerThreshold circuitBreakerResetTime
       dateNow].
  rewrite get_sweep by done.
  destruct (JsMap.get key (lockFailures s)) as [f|] eqn:Hget.
  - destruct (circuitBreakerResetTime s <? dateNow s - lastFailure f) eqn:Hstale.
    + apply Z.ltb_lt in Hstale. rewrite decide_False by lia.
      split; [done|]. split.
      * symmetry. apply andb_false_iff. right. apply Z.ltb_ge. lia.
      * split; [by apply wf_sweep|]. unfold JsMap.size.
        pose proof (length_sweep (fun failure => circuitBreakerResetTime s <? dateNow s - lastFailure failure) (lockFailures s)). lia.
    + apply Z.ltb_ge in Hstale. rewrite decide_True by lia.
      split; [done|]. split; [done|].
      split; [by apply wf_sweep|]. unfold JsMap.size.
      pose proof (length_sweep (fun failure => circuitBreakerResetTime s <? dateNow s - lastFailure failure) (lockFailures s)). lia.
  - split; [done|]. split; [done|].
    split; [by apply wf_sweep|]. unfold JsMap.size.
    pose proof (length_sweep (fun failure => circuitBreakerResetTime s <? dateNow s - lastFailure failure) (lockFailures s)). lia.
Qed.

(** What every call keeps: the configured maximum, and a failure map
    without duplicates that holds at most that many records. *)
Lemma bounded_tryAcquire max key options s :
  1 ≤ max →
  maxFailureEntries s = max ∧ JsMap.wf (lockFailures s)
  ∧ JsMap.size (lockFailures s) ≤ max →
  let s' := (tryAcquire uuidv4 key options s).2 in
  maxFailureEntries s' = max ∧ JsMap.wf (lockFailures s')
  ∧ JsMap.size (lockFailures s') ≤ max.
Proof.
  intros Hmax (Hmx & Hwf & Hsize). cbv zeta. rewrite tryAcquire_unfold.
  destruct (isCircuitOpen key s); [done|]. cbv zeta.
  destruct (Driver.tryAcquire _ _ _ _ _) as [[[|]|e] d]; cbn [snd].
  - split; [done|]. cbn [lockFailures withLockFailures]. split.
    + by apply wf_delete.
    + pose proof (length_delete key (lockFailures s)). unfold JsMap.size in *.
      cbn [lockFailures withDriver withUuidDrawn]. lia.
  - done.
  - rewrite recordLockFailure_withDriver, recordLockFailure_withUuidDrawn.
    cbn [maxFailureEntries lockFailures withDriver withUuidDrawn].
    destruct (frame_recordLockFailure key s) as (_ & _ & Hf & _).
    split; [by rewrite Hf|]. split; [by apply wf_recordLockFailure|].
    rewrite <- Hmx. apply size_recordLockFailure; [done|lia|lia].
Qed.

Lemma bounded_call max c s :
  1 ≤ max →
  maxFailureEntries s = max ∧ JsMap.wf (lockFailures s)
  ∧ JsMap.size (lockFailures s) ≤ max →
  maxFailureEntries (call uuidv4 c s) = max
  ∧ JsMap.wf (lockFailures (call uuidv4 c s))
  ∧ JsMap.size (lockFailures (call uuidv4 c s)) ≤ max.
Proof.
  intros Hmax Hb. destruct c as [key options|key options|key lockValue| |now];
    cbn [call].
  - by apply bounded_tryAcquire.
  - destruct (acquire_cases uuidv4 key options s) as [(v & _ & _ & ->)| ->];
      by apply bounded_tryAcquire.
  - rewrite release_unfold.
    by destruct (Driver.release key lockValue (dateNow s) (driver s)) as [c d].
  - destruct Hb as (Hmx & _ & _). split; [done|]. split; [apply NoDup_nil_2|].
    unfold JsMap.size. cbn. lia.
  - done.
Qed.

(** X10. Whatever a caller does with the public methods that take no
    callback ([tryAcquire], [acquire], [release], [close]), in any order,
    on any keys, with the clock moving at will and whatever the driver
    answers, the failure map never holds a key twice nor more than
    [maxFailureEntries] records, and the configured maximum stays. *)
Theorem calls_keep_failures_bounded cs s :
  1 ≤ maxFailureEntries s →
  JsMap.wf (lockFailures s) →
  JsMap.size (lockFailures s) ≤ maxFailureEntries s →
  let s' := calls uuidv4 cs s in
  maxFailureEntries s' = maxFailureEntries s
  ∧ JsMap.wf (lockFailures s')
  ∧ JsMap.size (lockFailures s') ≤ maxFailureEntries s.
Proof.
  intros Hmax Hwf Hsize. cbv zeta.
  assert (∀ max, 1 ≤ max →
            maxFailureEntries s = max ∧ JsMap.wf (lockFailures s)
            ∧ JsMap.size (lockFailures s) ≤ max →
            maxFailureEntries (calls uuidv4 cs s) = max
            ∧ JsMap.wf (lockFailures (calls uuidv4 cs s))
            ∧ JsMap.size (lockFailures (calls uuidv4 cs s)) ≤ max) as Hall.
  { clear. revert s. induction cs as [|c cs IH]; intros s max Hmax Hb; [done|].
    unfold calls. cbn [foldl]. apply IH; [done|]. by apply bounded_call. }
  by apply Hall.
Qed.

End Facts.
End BreakerFacts.

(** * The coordinator over the in-memory driver *)
Module MemoryCoordinatorFacts.
Import AtomicLock JsMapFacts AtomicLockFacts.

Section Memory.
Variable uuidv4 : nat → string.
Implicit Types (s : State (gmap string LockData)) (key : string).

(** X11. [withLock] over the in-memory driver, on a key that is free (no
    record, or an expired one) whose breaker is closed, the minted token
    being a non-empty string. The acquisition succeeds; the callback runs
    in a state where the key holds the token until [now + ttl * 1000] and
    the other keys are as before; until that instant any [tryAcquire] of
    the key answers [null]; and afterwards the completion of the callback
    is the outcome and the key's record is gone, unless the callback
    replaced it by one with another token or removed it itself. *)
Theorem withLock_memory {T} key (callback : string → M T) options s :
  isCircuitOpen key s = false →
  (∀ existing, driver s !! key = Some existing → expiresAt existing < dateNow s) →
  uuidv4 (uuidDrawn s) ≠ "" →
  let token := uuidv4 (uuidDrawn s) in
  let ttl := default 10 (LockOptions.expiryInSeconds options) in
  ∃ s1,
    acquire uuidv4 key options s = (Return token, s1)
    ∧ dateNow s1 = dateNow s
    ∧ driver s1 !! key = Some {| value := token;
                                 expiresAt := dateNow s + ttl * 1000;
                                 createdAt := dateNow s |}
    ∧ (∀ k, k ≠ key → driver s1 !! k = driver s !! k)
    ∧ (∀ now options',
         now ≤ dateNow s + ttl * 1000 →
         (tryAcquire uuidv4 key options' (withClock now s1)).1 = Return None)
    ∧ let '(completion, s2) := callback token s1 in
      ∃ s3,
        withLock uuidv4 key callback options s = (completion, s3)
        ∧ driver s3 = match driver s2 !! key with
                      | Some held =>
                          if decide (value held = token)
                          then delete key (driver s2) else driver s2
                      | None => driver s2
                      end.
Proof.
  intros Hclosed Hfree Huuid token ttl.
  assert (MemoryLockDriver.dropExpired (dateNow s) (driver s) key !! key = None)
    as Hnone.
  { rewrite MemoryLockDriverFacts.lookup_dropExpired.
    destruct (driver s !! key) as [e|] eqn:He; [|done].
    rewrite decide_True by done.
    specialize (Hfree e eq_refl). apply Z.ltb_lt in Hfree. by rewrite Hfree. }
  assert (tryAcquire uuidv4 key options s
          = (Return (Some token),
             withLockFailures (JsMap.delete key (lockFailures s))
               (withDriver (CallTryAcquire key token ttl)
                  (<[key := {| value := token;
                               expiresAt := dateNow s + ttl * 1000;
                               createdAt := dateNow s |}]>
                     (MemoryLockDriver.dropExpired (dateNow s) (driver s) key))
                  (withUuidDrawn (S (uuidDrawn s)) s)))) as Htry.
  { rewrite tryAcquire_unfold, Hclosed. cbv zeta. fold token ttl.
    cbn [Driver.tryAcquire MemoryLockDriver.driver].
    unfold MemoryLockDriver.tryAcquire, MemoryLockDriver.has. by rewrite Hnone. }
  eexists. split.
  { unfold acquire, bind. rewrite Htry. fold token.
    rewrite decide_False by done. reflexivity. }
  cbn [dateNow driver withLockFailures withDriver withUuidDrawn].
  split; [done|]. split; [apply lookup_insert_eq|]. split.
  { intros k Hne. rewrite lookup_insert_ne by done.
    rewrite MemoryLockDriverFacts.lookup_dropExpired.
    destruct (driver s !! k); [|done]. by rewrite decide_False. }
  split.
  { intros now options' Hnow. rewrite tryAcquire_unfold.
    match goal with |- context [if ?c then _ else _] => destruct c end; [done|].
    cbv zeta.
    cbn [Driver.tryAcquire MemoryLockDriver.driver dateNow driver withClock
         withLockFailures withDriver withUuidDrawn].
    match goal with |- context [<[key := ?r]> ?m] =>
      pose proof (lookup_insert_eq m key r) as Hheld;
      set (locks1 := <[key := r]> m) in *; clearbody locks1 end.
    unfold MemoryLockDriver.tryAcquire, MemoryLockDriver.dropExpired,
      MemoryLockDriver.has.
    rewrite Hheld. cbn [expiresAt].
    assert ((dateNow s + ttl * 1000 <? now) = false) as -> by (apply Z.ltb_ge; lia).
    by rewrite Hheld. }
  unfold withLock, bind.
  match goal with |- context [acquire uuidv4 key options s] =>
    assert (acquire uuidv4 key options s
            = (Return token,
               withLockFailures (JsMap.delete key (lockFailures s))
               (withDriver (CallTryAcquire key token ttl)
                  (<[key := {| value := token;
                               expiresAt := dateNow s + ttl * 1000;
                               createdAt := dateNow s |}]>
                     (MemoryLockDriver.dropExpired (dateNow s) (driver s) key))
                  (withUuidDrawn (S (uuidDrawn s)) s)))) as ->
  end.
  { unfold acquire, bind. rewrite Htry. fold token.
    by rewrite decide_False by done. }
  unfold tryFinally.
  destruct (callback token _) as [completion s2].
  rewrite release_unfold.
  cbn [Driver.release MemoryLockDriver.driver]. unfold MemoryLockDriver.release.
  destruct (driver s2 !! key) as [held|]; [|by eexists].
  destruct (decide (value held = token)); by eexists.
Qed.
End Memory.
End MemoryCoordinatorFacts.

(** * The in-memory driver: batches, clean-up and listing *)
Module MemoryMoreFacts.
Import MemoryLockDriver MemoryLockDriverFacts.
Implicit Types (locks : gmap string LockData) (key : string) (keys : list string).

(** What the first loop of [tryAcquireMultiple] leaves of a key. *)
Lemma lookup_foldl_dropExpired now keys locks k :
  foldl (dropExpired now) locks keys !! k
  = match locks !! k with
    | Some e => if decide (k ∈ keys ∧ expiresAt e < now) then None else Some e
    | None => None
    end.
Proof.
  revert locks. induction keys as [|key keys IH]; intros locks.
  - cbn [foldl]. destruct (locks !! k); [|done].
    rewrite decide_False; [done|]. intros [Hin _]. by apply not_elem_of_nil in Hin.
  - cbn [foldl]. rewrite IH, lookup_dropExpired.
    destruct (locks !! k) as [e|]; [|done].
    destruct (decide (k = key)) as [->|Hne].
    + destruct (expiresAt e <? now) eqn:Hlt.
      * apply Z.ltb_lt in Hlt. rewrite decide_True; [done|]. split; [by left|done].
      * apply Z.ltb_ge in Hlt. rewrite !decide_False; [done| |]; intros [_ ?]; lia.
    + destruct (decide (k ∈ keys ∧ expiresAt e < now)) as [[Hin Hlt]|Hnot].
      * rewrite decide_True; [done|]. split; [by right|done].
      * rewrite decide_False; [done|]. intros [Hin Hlt]. apply Hnot.
        apply elem_of_cons in Hin as [->|Hin]; done.
Qed.

(** What the third loop leaves of a key. *)
Lemma lookup_foldl_insert (lockData : LockData) keys locks k :
  foldl (fun locks key => <[key := lockData]> locks) locks keys !! k
  = if decide (k ∈ keys) then Some lockData else locks !! k.
Proof.
  revert locks. induction keys as [|key keys IH]; intros locks.
  - cbn [foldl]. rewrite decide_False; [done | apply not_elem_of_nil].
  - cbn [foldl]. rewrite IH.
    destruct (decide (k ∈ keys)) as [Hin|Hnin].
    + rewrite decide_True; [done | by right].
    + destruct (decide (k = key)) as [->|Hne].
      * rewrite decide_True; [|by left]. apply lookup_insert_eq.
      * rewrite decide_False; [by rewrite lookup_insert_ne|].
        rewrite not_elem_of_cons. done.
Qed.

(** X12. [tryAcquireMultiple] of the in-memory driver answers [true]
    exactly when no listed key has a record in force ([now <= expiresAt]).
    Then every listed key holds the caller's record and every other key
    is as before; otherwise the expired records of the listed keys are
    gone and nothing else has changed. *)
Theorem memory_tryAcquireMultiple_iff keys lockValue ttl now locks :
  let r := tryAcquireMultiple keys lockValue ttl now locks in
  (r.1 = true ↔ ∀ k e, k ∈ keys → locks !! k = Some e → expiresAt e < now)
  ∧ (r.1 = true →
     ∀ k, r.2 !! k = if decide (k ∈ keys)
                     then Some {| value := lockValue;
                                  expiresAt := now + ttl * 1000;
                                  createdAt := now |}
                     else locks !! k)
  ∧ (r.1 = false →
     ∀ k, r.2 !! k = match locks !! k with
                     | Some e =>
                         if decide (k ∈ keys ∧ expiresAt e < now) then None else Some e
                     | None => None
                     end).
Proof.
  cbv zeta. unfold tryAcquireMultiple.
  destruct (existsb _ keys) eqn:Hany; cbn [fst snd].
  - split; [|split; [done|]].
    + split; [done|]. intros Hfree. exfalso.
      apply existsb_exists in Hany as (k & Hin & Hhas).
      apply list_elem_of_In in Hin. apply has_true in Hhas as [e He].
      rewrite lookup_foldl_dropExpired in He.
      destruct (locks !! k) as [e'|] eqn:Hk; [|done].
      specialize (Hfree k e' Hin Hk). by rewrite decide_True in He.
    + intros _ k. apply lookup_foldl_dropExpired.
  - split; [|split; [|done]].
    + split; [|done]. intros _ k e Hin Hk.
      destruct (decide (expiresAt e < now)) as [|Hlive]; [done|]. exfalso.
      assert (existsb (fun key => has key (foldl (dropExpired now) locks keys)) keys
              = true) as Habs; [|by rewrite Habs in Hany].
      apply existsb_exists. exists k. split; [by apply list_elem_of_In|].
      apply has_true. rewrite lookup_foldl_dropExpired, Hk.
      rewrite decide_False; [by eexists|]. by intros [_ ?].
    + intros _ k. rewrite lookup_foldl_insert.
      destruct (decide (k ∈ keys)) as [Hin|Hnin]; [done|].
      rewrite lookup_foldl_dropExpired. destruct (locks !! k); [|done].
      rewrite decide_False; [done|]. by intros [? _].
Qed.

(** One round of the loop of [releaseMultiple]. *)
Lemma release_spec key lockValue locks :
  (∀ k, (release key lockValue locks).2 !! k
        = match locks !! k with
          | Some e => if decide (k = key ∧ value e = lockValue) then None else Some e
          | None => None
          end)
  ∧ Z.of_nat (size locks)
    = (if (release key lockValue locks).1 then 1 else 0)
      + Z.of_nat (size (release key lockValue locks).2).
Proof.
  unfold release. destruct (locks !! key) as [e|] eqn:He.
  - destruct (decide (value e = lockValue)) as [Hv|Hv]; cbn [fst snd].
    + split.
      * intros k. destruct (decide (k = key)) as [->|Hne].
        -- rewrite lookup_delete_eq, He. by rewrite decide_True.
        -- rewrite lookup_delete_ne by done. destruct (locks !! k); [|done].
           rewrite decide_False; [done|]. by intros [? _].
      * rewrite map_size_delete, He.
        assert (size locks ≠ 0%nat); [|lia].
        by apply (map_size_ne_0_lookup_2 _ key).
    + split; [|lia]. intros k. destruct (locks !! k) as [e'|] eqn:Hk; [|done].
      rewrite decide_False; [done|]. intros [-> Hv']. by simplify_eq.
  - cbn [fst snd]. split; [|lia]. intros k.
    destruct (locks !! k) as [e'|] eqn:Hk; [|done].
    rewrite decide_False; [done|]. intros [-> _]. by simplify_eq.
Qed.

Lemma releaseMultiple_from keys lockValue released locks :
  let r := foldl (fun '(released, locks) key =>
                    let '(success, locks) := release key lockValue locks in
                    (if success then released + 1 else released, locks))
             (released, locks) keys in
  (∀ k, r.2 !! k
        = match locks !! k with
          | Some e => if decide (k ∈ keys ∧ value e = lockValue) then None else Some e
          | None => None
          end)
  ∧ released + Z.of_nat (size locks) = r.1 + Z.of_nat (size r.2)
  ∧ released ≤ r.1 ≤ released + Z.of_nat (length keys).
Proof.
  cbv zeta. revert released locks.
  induction keys as [|key keys IH]; intros released locks.
  - cbn [foldl fst snd length]. split; [|lia]. intros k.
    destruct (locks !! k); [|done].
    rewrite decide_False; [done|]. intros [Hin _]. by apply not_elem_of_nil in Hin.
  - cbn [foldl]. destruct (release_spec key lockValue locks) as [Hlook Hsize].
    destruct (release key lockValue locks) as [success locks1]. cbn [fst snd] in *.
    destruct (IH (if success then released + 1 else released) locks1)
      as (IHlook & IHsize & IHle).
    split; [|split].
    + intros k. rewrite IHlook, Hlook.
      destruct (locks !! k) as [e|]; [|done].
      destruct (decide (k = key ∧ value e = lockValue)) as [[-> Hv]|Hnot].
      * rewrite decide_True; [done|]. split; [by left|done].
      * destruct (decide (k ∈ keys ∧ value e = lockValue)) as [[Hin Hv]|Hnot'].
        -- rewrite decide_True; [done|]. split; [by right|done].
        -- rewrite decide_False; [done|]. intros [Hin Hv].
           apply elem_of_cons in Hin as [->|Hin]; [by apply Hnot | by apply Hnot'].
    + destruct success; lia.
    + cbn [length]. destruct success; lia.
Qed.

(** X13. [releaseMultiple] of the in-memory driver deletes exactly the
    records of the listed keys that hold the given token, expired or not,
    and returns how many records it deleted: a key listed twice counts
    once, so the number is at most the length of the list. *)
Theorem memory_releaseMultiple_counts keys lockValue locks :
  let r := releaseMultiple keys lockValue locks in
  (∀ k, r.2 !! k
        = match locks !! k with
          | Some e => if decide (k ∈ keys ∧ value e = lockValue) then None else Some e
          | None => None
          end)
  ∧ Z.of_nat (size locks) = r.1 + Z.of_nat (size r.2)
  ∧ 0 ≤ r.1 ≤ Z.of_nat (length keys).
Proof.
  cbv zeta. unfold releaseMultiple.
  destruct (releaseMultiple_from keys lockValue 0 locks) as (Hlook & Hsize & Hle).
  cbv zeta in *. split; [done|]. split; lia.
Qed.

Lemma lookup_cleanup now locks k :
  cleanup now locks !! k
  = match locks !! k with
    | Some e => if decide (now ≤ expiresAt e) then Some e else None
    | None => None
    end.
Proof.
  unfold cleanup. destruct (locks !! k) as [e|] eqn:Hk.
  - destruct (decide (now ≤ expiresAt e)) as [Hlive|Hexp].
    + apply map_lookup_filter_Some. split; [done|]. cbn. lia.
    + apply map_lookup_filter_None. right. intros e' He'. simplify_eq. cbn.
      intros Hnot. apply Hnot. lia.
  - apply map_lookup_filter_None. by left.
Qed.

(** X14. [cleanup] of the in-memory driver deletes exactly the records
    with [expiresAt < now]. At the same clock reading it changes no answer
    of [exists], [getLockInfo] or [tryAcquire], and a later clean-up makes
    an earlier one redundant. *)
Theorem memory_cleanup_transparent now locks :
  (∀ k, cleanup now locks !! k
        = match locks !! k with
          | Some e => if decide (now ≤ expiresAt e) then Some e else None
          | None => None
          end)
  ∧ (∀ key, (exists_ key now (cleanup now locks)).1 = (exists_ key now locks).1)
  ∧ (∀ key, (getLockInfo key now (cleanup now locks)).1
            = (getLockInfo key now locks).1)
  ∧ (∀ key lockValue ttl,
       (tryAcquire key lockValue ttl now (cleanup now locks)).1
       = (tryAcquire key lockValue ttl now locks).1)
  ∧ (∀ later, now ≤ later → cleanup later (cleanup now locks) = cleanup later locks).
Proof.
  split; [apply lookup_cleanup|]. split; [|split; [|split]].
  - intros key. unfold exists_. rewrite lookup_cleanup.
    destruct (locks !! key) as [e|]; [|done].
    destruct (decide (now ≤ expiresAt e)) as [Hlive|Hexp].
    + by destruct (expiresAt e <? now).
    + assert ((expiresAt e <? now) = true) as -> by (apply Z.ltb_lt; lia). done.
  - intros key. unfold getLockInfo. rewrite lookup_cleanup.
    destruct (locks !! key) as [e|]; [|done].
    destruct (decide (now ≤ expiresAt e)) as [Hlive|Hexp].
    + by destruct (expiresAt e <? now).
    + assert ((expiresAt e <? now) = true) as -> by (apply Z.ltb_lt; lia). done.
  - intros key lockValue ttl. unfold tryAcquire, has.
    rewrite !lookup_dropExpired, lookup_cleanup.
    destruct (locks !! key) as [e|]; [|done].
    destruct (decide (now ≤ expiresAt e)) as [Hlive|Hexp];
      rewrite !decide_True by done.
    + assert ((expiresAt e <? now) = false) as -> by (apply Z.ltb_ge; lia). done.
    + assert ((expiresAt e <? now) = true) as -> by (apply Z.ltb_lt; lia). done.
  - intros later Hle. apply map_eq. intros k. rewrite !lookup_cleanup.
    destruct (locks !! k) as [e|]; [|done].
    destruct (decide (now ≤ expiresAt e)) as [Hlive|Hexp]; [done|].
    rewrite decide_False by lia. done.
Qed.

Lemma lookup_getAllLocks now locks key :
  getAllLocks now locks !! key = (getLockInfo key now locks).1.
Proof.
  unfold getAllLocks, getLockInfo. rewrite map_lookup_imap.
  destruct (locks !! key) as [e|]; [|done]. cbn.
  destruct (expiresAt e <? now) eqn:Hlt.
  - apply Z.ltb_lt in Hlt.
    assert ((now <=? expiresAt e) = false) as -> by (apply Z.leb_gt; lia). done.
  - apply Z.ltb_ge in Hlt.
    assert ((now <=? expiresAt e) = true) as -> by (apply Z.leb_le; lia). done.
Qed.

(** X15. [getAllLocks] lists for each key what [getLockInfo] answers for
    it, that is, the keys for which [exists] answers [true]; it has as
    many entries as [getLockCount] counts after a [cleanup], and never
    more than [getLockCount] counts. *)
Theorem getAllLocks_agrees now locks :
  (∀ key, getAllLocks now locks !! key = (getLockInfo key now locks).1)
  ∧ (∀ key, is_Some (getAllLocks now locks !! key)
            ↔ (exists_ key now locks).1 = true)
  ∧ Z.of_nat (size (getAllLocks now locks)) = getLockCount (cleanup now locks)
  ∧ Z.of_nat (size (getAllLocks now locks)) ≤ getLockCount locks.
Proof.
  split; [apply lookup_getAllLocks|].
  assert (dom (getAllLocks now locks) = dom (cleanup now locks)) as Hdom.
  { apply set_eq. intros k. rewrite !elem_of_dom, lookup_getAllLocks, lookup_cleanup.
    unfold getLockInfo. destruct (locks !! k) as [e|]; cbn [fst]; [|done].
    destruct (expiresAt e <? now) eqn:Hlt; cbn [fst].
    - apply Z.ltb_lt in Hlt. rewrite decide_False by lia. done.
    - apply Z.ltb_ge in Hlt. rewrite decide_True by lia.
      split; intros _; by eexists. }
  split; [|split].
  - intros key. rewrite lookup_getAllLocks. unfold getLockInfo, exists_.
    destruct (locks !! key) as [e|]; cbn [fst].
    + destruct (expiresAt e <? now); cbn [fst].
      * split; [by intros [? ?]|done].
      * split; [done|]. intros _. by eexists.
    + split; [by intros [? ?]|done].
  - unfold getLockCount. by rewrite <- !size_dom, Hdom.
  - unfold getLockCount. rewrite <- !size_dom, Hdom.
    apply inj_le, subseteq_size. intros k. rewrite !elem_of_dom, lookup_cleanup.
    destruct (locks !! k) as [e|]; [|by intros [? ?]]. intros _. by eexists.
Qed.
End MemoryMoreFacts.

(** * The file driver: paths, acquisition and release *)
Module FileMoreFacts.
Import Fs FileLockDriver FileLockDriverFacts.

(** A character the sanitizer writes is one it keeps. *)
Lemma isNameChar_sanitized c :
  isNameChar (if isNameChar c then c else "_"%char) = true.
Proof. by destruct (isNameChar c) eqn:Hc. Qed.

Lemma sanitize_length key : String.length (sanitize key) = String.length key.
Proof. induction key as [|c key IH]; [done|]. cbn. by rewrite IH. Qed.

Lemma sanitize_idemp key : sanitize (sanitize key) = sanitize key.
Proof.
  induction key as [|c key IH]; [done|].
  cbn [sanitize]. rewrite IH. by rewrite isNameChar_sanitized.
Qed.

Section Facts.
Variable lockDir : string.
Variable sha256Hex : string → string.
Implicit Types (fs : gmap string FileContent) (acquired : list string).

(** X16. The sanitizer keeps the length of a key and changes nothing in
    a key it has written. Hence a key of at most 200 characters shares
    its lock file with its sanitized form and with every key that has the
    same sanitized form: [exists] and [release] cannot tell such keys
    apart. *)
Theorem getLockPath_collisions key :
  String.length (sanitize key) = String.length key
  ∧ sanitize (sanitize key) = sanitize key
  ∧ ((String.length key ≤ MAX_FILENAME_LENGTH)%nat →
     getLockPath lockDir sha256Hex (sanitize key) = getLockPath lockDir sha256Hex key
     ∧ ∀ key' fs now,
         sanitize key' = sanitize key →
         getLockPath lockDir sha256Hex key' = getLockPath lockDir sha256Hex key
         ∧ exists_ lockDir sha256Hex key' now fs = exists_ lockDir sha256Hex key now fs
         ∧ ∀ lockValue,
             release lockDir sha256Hex key' lockValue fs
             = release lockDir sha256Hex key lockValue fs).
Proof.
  split; [apply sanitize_length|]. split; [apply sanitize_idemp|].
  intros Hshort.
  assert (∀ key', sanitize key' = sanitize key →
            getLockPath lockDir sha256Hex key' = getLockPath lockDir sha256Hex key)
    as Hsame.
  { intros key' Heq. unfold getLockPath. rewrite Heq.
    assert ((MAX_FILENAME_LENGTH <? String.length (sanitize key))%nat = false) as ->; [|done].
    apply Nat.ltb_ge. rewrite sanitize_length. done. }
  split; [apply Hsame, sanitize_idemp|].
  intros key' fs now Heq. split; [by apply Hsame|].
  unfold exists_, release. rewrite (Hsame key' Heq). done.
Qed.


Lemma createAll_Return_inv lockPaths lockData acquired fs acquired' fs' :
  createAll lockPaths lockData acquired fs = (Return (), acquired', fs') →
  NoDup lockPaths ∧ ∀ p, p ∈ lockPaths → fs !! p = None.
Proof.
  revert acquired fs. induction lockPaths as [|q lockPaths IH]; intros acquired fs.
  - intros _. split; [apply NoDup_nil_2|]. intros p Hp. by apply not_elem_of_nil in Hp.
  - cbn [createAll]. unfold writeFileWx.
    destruct (fs !! q) as [c|] eqn:Hq; [done|]. intros Hrun.
    destruct (IH _ _ Hrun) as [Hnd Hfree].
    assert (q ∉ lockPaths) as Hnin.
    { intros Hin. specialize (Hfree q Hin). by rewrite lookup_insert_eq in Hfree. }
    split; [by apply NoDup_cons|].
    intros p Hp. apply elem_of_cons in Hp as [->|Hp]; [done|].
    specialize (Hfree p Hp). rewrite lookup_insert_ne in Hfree; [done|].
    intros ->. done.
Qed.


(** X18. [tryAcquire] of the file driver, run alone, returns after at most
    one call of itself (fuel 2 is enough). Below a lock directory that is
    missing, not a directory or not searchable, the creation fails with
    an error other than [EEXIST], and [tryAcquire] rejects with that very
    error and changes nothing. Below a usable directory it does not
    throw: a free path is taken; a file with an expired record
    ([expiresAt < now]) is replaced by the caller's record; a file with a
    record in force, or one that holds no record, makes it answer [false]
    and is left as it is. *)
Theorem file_tryAcquire_spec dir fuel key lockValue ttl now fs :
  (2 ≤ fuel)%nat →
  let lockPath := getLockPath lockDir sha256Hex key in
  let lockData := {| value := lockValue;
                     expiresAt := now + ttl * 1000;
                     createdAt := now |} in
  tryAcquire lockDir sha256Hex dir fuel key lockValue ttl now fs
  = Some (match dir with
          | Unusable error => (Throw (SysError (errorCode error)), fs)
          | Usable =>
              match fs !! lockPath with
              | None => (Return true, <[lockPath := Json lockData]> fs)
              | Some (Json existing) =>
                  if expiresAt existing <? now
                  then (Return true, <[lockPath := Json lockData]> fs)
                  else (Return false, fs)
              | Some Garbage => (Return false, fs)
              end
          end).
Proof.
  intros Hfuel lockPath lockData.
  destruct fuel as [|[|fuel]]; [lia|lia|clear Hfuel].
  destruct dir as [|error].
  - cbn [tryAcquire writeFile]. fold lockPath lockData. unfold writeFileWx at 1.
    destruct (fs !! lockPath) as [[|existing]|] eqn:Hp; [| |done].
    + rewrite decide_True by done. unfold readLockFile, readFile. by rewrite Hp.
    + rewrite decide_True by done. unfold readLockFile, readFile. rewrite Hp.
      destruct (expiresAt existing <? now); [|done].
      unfold unlink. rewrite Hp. unfold writeFileWx. rewrite lookup_delete_eq.
      by rewrite insert_delete_eq.
  - cbn [tryAcquire writeFile]. by destruct error.
Qed.

(** One round of the loop of [releaseMultiple]. *)
Lemma file_release_spec key lockValue fs :
  (∀ p, (release lockDir sha256Hex key lockValue fs).2 !! p
        = match fs !! p with
          | Some (Json e) =>
              if decide (p = getLockPath lockDir sha256Hex key ∧ value e = lockValue)
              then None else Some (Json e)
          | other => other
          end)
  ∧ Z.of_nat (size fs)
    = (if (release lockDir sha256Hex key lockValue fs).1 then 1 else 0)
      + Z.of_nat (size (release lockDir sha256Hex key lockValue fs).2).
Proof.
  unfold release, readLockFile, readFile, unlink.
  set (lockPath := getLockPath lockDir sha256Hex key).
  destruct (fs !! lockPath) as [[|e]|] eqn:Hp; cbn [fst snd].
  - split; [|lia]. intros p. destruct (fs !! p) as [[|e]|] eqn:Hq; [done| |done].
    rewrite decide_False; [done|]. intros [-> _]. by simplify_eq.
  - destruct (decide (value e = lockValue)) as [Hv|Hv]; cbn [fst snd].
    + split.
      * intros p. destruct (decide (p = lockPath)) as [->|Hne].
        -- rewrite lookup_delete_eq, Hp. by rewrite decide_True.
        -- rewrite lookup_delete_ne by done.
           destruct (fs !! p) as [[|e']|]; [done| |done].
           rewrite decide_False; [done|]. by intros [? _].
      * rewrite map_size_delete, Hp.
        assert (size fs ≠ 0%nat); [|lia].
        by apply (map_size_ne_0_lookup_2 _ lockPath).
    + split; [|lia]. intros p. destruct (fs !! p) as [[|e']|] eqn:Hq; [done| |done].
      rewrite decide_False; [done|]. intros [-> Hv']. by simplify_eq.
  - split; [|lia]. intros p. destruct (fs !! p) as [[|e]|] eqn:Hq; [done| |done].
    rewrite decide_False; [done|]. intros [-> _]. by simplify_eq.
Qed.

Lemma file_releaseMultiple_from keys lockValue released fs :
  let r := foldl (fun '(released, fs) key =>
                    let '(success, fs) := release lockDir sha256Hex key lockValue fs in
                    (if success then released + 1 else released, fs))
             (released, fs) keys in
  (∀ p, r.2 !! p
        = match fs !! p with
          | Some (Json e) =>
              if decide (p ∈ getLockPath lockDir sha256Hex <$> keys
                         ∧ value e = lockValue)
              then None else Some (Json e)
          | other => other
          end)
  ∧ released + Z.of_nat (size fs) = r.1 + Z.of_nat (size r.2)
  ∧ released ≤ r.1 ≤ released + Z.of_nat (length keys).
Proof.
  cbv zeta. revert released fs.
  induction keys as [|key keys IH]; intros released fs.
  - cbn [foldl fst snd length fmap list_fmap]. split; [|lia]. intros p.
    destruct (fs !! p) as [[|e]|]; [done| |done].
    rewrite decide_False; [done|]. intros [Hin _]. by apply not_elem_of_nil in Hin.
  - cbn [foldl]. destruct (file_release_spec key lockValue fs) as [Hlook Hsize].
    destruct (release lockDir sha256Hex key lockValue fs) as [success fs1].
    cbn [fst snd] in *.
    destruct (IH (if success then released + 1 else released) fs1)
      as (IHlook & IHsize & IHle).
    split; [|split].
    + intros p. rewrite IHlook, Hlook, fmap_cons.
      destruct (fs !! p) as [[|e]|]; [done| |done].
      destruct (decide (p = getLockPath lockDir sha256Hex key ∧ value e = lockValue))
        as [[-> Hv]|Hnot].
      * rewrite decide_True; [done|]. split; [by left|done].
      * destruct (decide (p ∈ getLockPath lockDir sha256Hex <$> keys
                          ∧ value e = lockValue)) as [[Hin Hv]|Hnot'].
        -- rewrite decide_True; [done|]. split; [by right|done].
        -- rewrite decide_False; [done|]. intros [Hin Hv].
           apply elem_of_cons in Hin as [->|Hin]; [by apply Hnot | by apply Hnot'].
    + destruct success; lia.
    + cbn [length]. destruct success; lia.
Qed.

(** X19. [releaseMultiple] of the file driver deletes exactly the files
    at the lock paths of the listed keys that hold a record with the
    given token, and returns how many files it deleted. *)
Theorem file_releaseMultiple_counts keys lockValue fs :
  let r := releaseMultiple lockDir sha256Hex keys lockValue fs in
  (∀ p, r.2 !! p
        = match fs !! p with
          | Some (Json e) =>
              if decide (p ∈ getLockPath lockDir sha256Hex <$> keys
                         ∧ value e = lockValue)
              then None else Some (Json e)
          | other => other
          end)
  ∧ Z.of_nat (size fs) = r.1 + Z.of_nat (size r.2)
  ∧ 0 ≤ r.1 ≤ Z.of_nat (length keys).
Proof.
  cbv zeta. unfold releaseMultiple.
  destruct (file_releaseMultiple_from keys lockValue 0 fs) as (Hlook & Hsize & Hle).
  cbv zeta in *. split; [done|]. split; lia.
Qed.

(** X20. Acquire, then release. On a key that has no record (no lock
    file), [tryAcquire] succeeds, a [release] with the same token then
    succeeds and restores the store exactly, and a [release] with any
    other token fails and changes nothing: in the in-memory driver and in
    the file driver (below a usable lock directory). *)
Theorem acquire_release_round_trip key lockValue ttl now fuel :
  (∀ locks : gmap string LockData,
     locks !! key = None →
     ∃ locks1,
       MemoryLockDriver.tryAcquire key lockValue ttl now locks = (true, locks1)
       ∧ MemoryLockDriver.release key lockValue locks1 = (true, locks)
       ∧ ∀ other, other ≠ lockValue →
           MemoryLockDriver.release key other locks1 = (false, locks1))
  ∧ (∀ fs,
       fs !! getLockPath lockDir sha256Hex key = None →
       ∃ fs1,
         tryAcquire lockDir sha256Hex Usable (S fuel) key lockValue ttl now fs
         = Some (Return true, fs1)
         ∧ release lockDir sha256Hex key lockValue fs1 = (true, fs)
         ∧ ∀ other, other ≠ lockValue →
             release lockDir sha256Hex key other fs1 = (false, fs1)).
Proof.
  split.
  - intros locks Hnone. eexists. split.
    + unfold MemoryLockDriver.tryAcquire, MemoryLockDriver.dropExpired,
        MemoryLockDriver.has. rewrite Hnone. cbv beta iota zeta. by rewrite Hnone.
    + unfold MemoryLockDriver.release. rewrite lookup_insert_eq. cbn [value]. split.
      * rewrite decide_True by done. by rewrite delete_insert_id.
      * intros other Hne. by rewrite decide_False.
  - intros fs Hnone. eexists. split.
    + cbn [tryAcquire writeFile]. unfold writeFileWx. by rewrite Hnone.
    + unfold release, readLockFile, readFile, unlink. rewrite lookup_insert_eq.
      cbn [value]. split.
      * rewrite decide_True by done. by rewrite delete_insert_id.
      * intros other Hne. by rewrite decide_False.
Qed.
End Facts.
End FileMoreFacts.

(** * The SQLite driver against the in-memory driver *)
Module SQLiteMoreFacts.
Import SQLiteLockDriver SQLiteLockDriverFacts Stored.
Implicit Types (table : gmap string Row) (locks : gmap string LockData)
  (key : string) (keys : list string).

(** What a [DELETE ... WHERE P] leaves of a key. *)
Lemma lookup_filter_not {A} (P : string * A → Prop) `{!∀ x, Decision (P x)}
    (m : gmap string A) k :
  filter (fun ka => ¬ P ka) m !! k
  = match m !! k with
    | Some a => if decide (P (k, a)) then None else Some a
    | None => None
    end.
Proof.
  destruct (m !! k) as [a|] eqn:Hk.
  - destruct (decide (P (k, a))) as [HP|HP].
    + apply map_lookup_filter_None. right. intros a' Ha'. simplify_eq.
      intros Hnot. by apply Hnot.
    + by apply map_lookup_filter_Some.
  - apply map_lookup_filter_None. by left.
Qed.

Lemma deleteExpiredOf_tableOf key now locks :
  deleteExpiredOf key now (tableOf locks)
  = tableOf (MemoryLockDriver.dropExpired now locks key).
Proof.
  apply map_eq. intros k. unfold deleteExpiredOf, tableOf.
  rewrite lookup_filter_not, !lookup_fmap, MemoryLockDriverFacts.lookup_dropExpired.
  destruct (locks !! k) as [e|]; [|done]. cbn.
  destruct (decide (k = key)) as [->|Hne].
  - destruct (expiresAt e <? now) eqn:Hlt.
    + apply Z.ltb_lt in Hlt. by rewrite decide_True.
    + apply Z.ltb_ge in Hlt. rewrite decide_False; [done|]. intros [_ ?]. lia.
  - rewrite decide_False; [done|]. by intros [? _].
Qed.

Lemma sqlite_tryAcquire_tableOf key lockValue ttl now locks :
  tryAcquire key lockValue ttl now (tableOf locks)
  = (Return (MemoryLockDriver.tryAcquire key lockValue ttl now locks).1,
     tableOf (MemoryLockDriver.tryAcquire key lockValue ttl now locks).2).
Proof.
  unfold tryAcquire, MemoryLockDriver.tryAcquire, MemoryLockDriver.has.
  rewrite deleteExpiredOf_tableOf. unfold insertRow, tableOf at 1.
  rewrite lookup_fmap.
  destruct (MemoryLockDriver.dropExpired now locks key !! key) as [e|]; cbn; [done|].
  unfold tableOf. by rewrite fmap_insert.
Qed.

Lemma sqlite_release_table key lockValue locks :
  filter (fun kr => ¬ (kr.1 = key ∧ lock_value kr.2 = lockValue)) (tableOf locks)
  = tableOf (MemoryLockDriver.release key lockValue locks).2.
Proof.
  apply map_eq. intros k. unfold tableOf.
  rewrite lookup_filter_not, !lookup_fmap.
  unfold MemoryLockDriver.release.
  destruct (decide (k = key)) as [->|Hne].
  - destruct (locks !! key) as [e|] eqn:He; cbn.
    + destruct (decide (value e = lockValue)) as [Hv|Hv]; cbn.
      * rewrite lookup_delete_eq. by rewrite decide_True.
      * rewrite He. cbn. rewrite decide_False; [done|]. by intros [_ ?].
    + by rewrite He.
  - assert ((match locks !! key with
             | Some existing =>
                 if decide (value existing = lockValue)
                 then (true, delete key locks) else (false, locks)
             | None => (false, locks)
             end).2 !! k = locks !! k) as ->.
    { destruct (locks !! key) as [e|]; [|done].
      destruct (decide (value e = lockValue)); [|done].
      cbn. by rewrite lookup_delete_ne. }
    destruct (locks !! k) as [e|]; [|done]. cbn.
    rewrite decide_False; [done|]. by intros [? _].
Qed.

Lemma sqlite_release_tableOf key lockValue locks :
  release key lockValue (tableOf locks)
  = ((MemoryLockDriver.release key lockValue locks).1,
     tableOf (MemoryLockDriver.release key lockValue locks).2).
Proof.
  unfold release. rewrite sqlite_release_table. f_equal.
  unfold tableOf. rewrite !map_size_fmap.
  unfold MemoryLockDriver.release.
  destruct (locks !! key) as [e|] eqn:He; cbn [fst snd].
  - destruct (decide (value e = lockValue)); cbn [fst snd].
    + rewrite map_size_delete, He.
      assert (size locks ≠ 0%nat) by by apply (map_size_ne_0_lookup_2 _ key).
      apply Z.ltb_lt. lia.
    + apply Z.ltb_ge. lia.
  - apply Z.ltb_ge. lia.
Qed.

Lemma sqlite_releaseMultiple_tableOf keys lockValue locks :
  releaseMultiple keys lockValue (tableOf locks)
  = ((MemoryLockDriver.releaseMultiple keys lockValue locks).1,
     tableOf (MemoryLockDriver.releaseMultiple keys lockValue locks).2).
Proof.
  unfold releaseMultiple, MemoryLockDriver.releaseMultiple.
  destruct (MemoryMoreFacts.releaseMultiple_from keys lockValue 0 locks)
    as (Hlook & Hsize & _). cbv zeta in *.
  match goal with |- context [foldl ?f (0, locks) keys] =>
    set (r := foldl f (0, locks) keys) in * end.
  assert (filter (fun kr => ¬ (kr.1 ∈ keys ∧ lock_value kr.2 = lockValue)) (tableOf locks)
          = tableOf r.2) as ->.
  { apply map_eq. intros k. unfold tableOf.
    rewrite lookup_filter_not, !lookup_fmap, Hlook.
    destruct (locks !! k) as [e|]; [|done]. cbn.
    destruct (decide (k ∈ keys ∧ value e = lockValue)); done. }
  f_equal. unfold tableOf. rewrite !map_size_fmap. lia.
Qed.

Lemma sqlite_exists_tableOf key now locks :
  exists_ key now (tableOf locks)
  = ((MemoryLockDriver.exists_ key now locks).1,
     tableOf (MemoryLockDriver.exists_ key now locks).2).
Proof.
  unfold exists_. rewrite deleteExpiredOf_tableOf.
  unfold tableOf at 1. rewrite lookup_fmap.
  unfold MemoryLockDriver.exists_, MemoryLockDriver.dropExpired.
  destruct (locks !! key) as [e|] eqn:He; cbn [fst snd].
  - destruct (expiresAt e <? now) eqn:Hlt; cbn [fst snd].
    + by rewrite lookup_delete_eq.
    + rewrite He. cbn. f_equal. apply Z.leb_le. apply Z.ltb_ge in Hlt. lia.
  - by rewrite He.
Qed.

Lemma sqlite_getLockInfo_tableOf key now locks :
  getLockInfo key now (tableOf locks)
  = (fun info => Selected.mk (LockInfo.value info) (LockInfo.expiresAt info)
                   (default 0 (LockInfo.createdAt info)))
    <$> (MemoryLockDriver.getLockInfo key now locks).1.
Proof.
  unfold getLockInfo, tableOf, MemoryLockDriver.getLockInfo. rewrite lookup_fmap.
  destruct (locks !! key) as [e|]; [|done]. cbn.
  destruct (expiresAt e <? now) eqn:Hlt.
  - apply Z.ltb_lt in Hlt.
    assert ((now <=? expiresAt e) = false) as -> by (apply Z.leb_gt; lia). done.
  - apply Z.ltb_ge in Hlt.
    assert ((now <=? expiresAt e) = true) as -> by (apply Z.leb_le; lia). done.
Qed.

Lemma sqlite_cleanup_tableOf now locks :
  cleanup now (tableOf locks) = tableOf (MemoryLockDriver.cleanup now locks).
Proof.
  apply map_eq. intros k. unfold cleanup, tableOf.
  rewrite lookup_filter_not, !lookup_fmap, MemoryMoreFacts.lookup_cleanup.
  destruct (locks !! k) as [e|]; [|done]. cbn.
  destruct (decide (now ≤ expiresAt e)).
  - rewrite decide_False by lia. done.
  - rewrite decide_True by lia. done.
Qed.

Lemma deleteExpiredIn_tableOf keys now locks :
  deleteExpiredIn keys now (tableOf locks)
  = tableOf (foldl (MemoryLockDriver.dropExpired now) locks keys).
Proof.
  apply map_eq. intros k. unfold deleteExpiredIn, tableOf.
  rewrite lookup_filter_not, !lookup_fmap, MemoryMoreFacts.lookup_foldl_dropExpired.
  destruct (locks !! k) as [e|]; [|done]. cbn.
  destruct (decide (k ∈ keys ∧ expiresAt e < now)); done.
Qed.

(** The insertion loop succeeds exactly on distinct keys that have no
    row; the only error it raises is the violation of the primary key. *)
Lemma insertAll_tableOf keys (lock : LockData) locks :
  NoDup keys → (∀ k, k ∈ keys → locks !! k = None) →
  insertAll keys (rowOf lock) (tableOf locks)
  = (Return (), tableOf (foldl (fun locks key => <[key := lock]> locks) locks keys)).
Proof.
  revert locks. induction keys as [|key keys IH]; intros locks Hnd Hfree; [done|].
  apply NoDup_cons in Hnd as [Hkey Hnd]. cbn [insertAll foldl]. unfold insertRow.
  unfold tableOf at 1. rewrite lookup_fmap, (Hfree key) by by left. cbn.
  assert (<[key := rowOf lock]> (tableOf locks) = tableOf (<[key := lock]> locks)) as ->.
  { unfold tableOf. by rewrite fmap_insert. }
  apply IH; [done|]. intros k Hk. rewrite lookup_insert_ne; [apply Hfree; by right|].
  intros ->. done.
Qed.

Lemma insertAll_duplicate keys row table :
  ¬ NoDup keys →
  ∃ table', insertAll keys row table
            = (Throw (SysError "SQLITE_CONSTRAINT_PRIMARYKEY"), table').
Proof.
  revert table. induction keys as [|key keys IH]; intros table Hdup.
  - destruct Hdup. apply NoDup_nil_2.
  - cbn [insertAll]. unfold insertRow.
    destruct (table !! key) as [r|] eqn:Hkey; [by eexists|].
    destruct (decide (key ∈ keys)) as [Hin|Hnin].
    + clear IH Hdup Hkey.
      assert (∀ table0 : gmap string Row, is_Some (table0 !! key) →
                ∃ table', insertAll keys row table0
                          = (Throw (SysError "SQLITE_CONSTRAINT_PRIMARYKEY"), table'))
        as Hhit.
      { clear table. induction keys as [|k keys IH]; intros table0 Hsome.
        - by apply not_elem_of_nil in Hin.
        - cbn [insertAll]. unfold insertRow.
          destruct (table0 !! k) as [r|] eqn:Hk; [by eexists|].
          apply elem_of_cons in Hin as [->|Hin].
          + rewrite Hk in Hsome. by destruct Hsome.
          + apply IH; [done|]. rewrite lookup_insert_ne; [done|].
            intros ->. rewrite Hk in Hsome. by destruct Hsome. }
      apply Hhit. rewrite lookup_insert_eq. by eexists.
    + apply IH. intros Hnd. apply Hdup. by apply NoDup_cons.
Qed.

Lemma countLiveIn_cleaned keys now locks :
  (0 <? countLiveIn keys now
          (tableOf (foldl (MemoryLockDriver.dropExpired now) locks keys)))
  = existsb (fun key => MemoryLockDriver.has key
                          (foldl (MemoryLockDriver.dropExpired now) locks keys)) keys.
Proof.
  set (cleaned := foldl (MemoryLockDriver.dropExpired now) locks keys).
  destruct (existsb _ keys) eqn:Hany.
  - apply existsb_exists in Hany as (k & Hin & Hhas).
    apply list_elem_of_In in Hin. apply MemoryLockDriverFacts.has_true in Hhas as [e He].
    apply Z.ltb_lt. unfold countLiveIn.
    assert (size (filter (fun kr : string * Row => kr.1 ∈ keys ∧ now ≤ expires_at kr.2)
                    (tableOf cleaned)) ≠ 0%nat) as Hsize; [|lia].
    apply (map_size_ne_0_lookup_2 _ k). exists (rowOf e).
    apply map_lookup_filter_Some. unfold tableOf. rewrite lookup_fmap, He.
    split; [done|]. split; [done|]. cbn.
    unfold cleaned in He. rewrite MemoryMoreFacts.lookup_foldl_dropExpired in He.
    destruct (locks !! k) as [e'|]; [|done].
    destruct (decide (k ∈ keys ∧ expiresAt e' < now)) as [|Hnot]; [done|].
    simplify_eq. destruct (decide (now ≤ expiresAt e)); [done|].
    destruct Hnot. split; [done|lia].
  - apply Z.ltb_ge. unfold countLiveIn.
    assert (size (filter (fun kr : string * Row => kr.1 ∈ keys ∧ now ≤ expires_at kr.2)
                    (tableOf cleaned)) = 0%nat) as ->; [|lia].
    apply map_size_empty_iff, map_empty. intros k.
    apply map_lookup_filter_None. unfold tableOf. rewrite lookup_fmap.
    destruct (cleaned !! k) as [e|] eqn:He; [|by left]. right.
    intros r Hr [Hin _]. cbn in Hin.
    assert (existsb (fun key => MemoryLockDriver.has key cleaned) keys = true) as Habs;
      [|by rewrite Habs in Hany].
    apply existsb_exists. exists k. split; [by apply list_elem_of_In|].
    apply MemoryLockDriverFacts.has_true. by eexists.
Qed.

Lemma existsb_has_false keys locks :
  existsb (fun key => MemoryLockDriver.has key locks) keys = false →
  ∀ k, k ∈ keys → locks !! k = None.
Proof.
  intros Hnone k Hin. destruct (locks !! k) as [e|] eqn:He; [|done]. exfalso.
  assert (existsb (fun key => MemoryLockDriver.has key locks) keys = true) as Habs;
    [|by rewrite Habs in Hnone].
  apply existsb_exists. exists k. split; [by apply list_elem_of_In|].
  apply MemoryLockDriverFacts.has_true. by eexists.
Qed.

(** X21. The SQLite driver against the in-memory driver. On the table
    that holds the records of [locks], each of [tryAcquire], [release],
    [releaseMultiple], [exists] and [cleanup] answers what the in-memory
    driver answers on [locks] and leaves the table that holds the records
    the in-memory driver leaves; so does [tryAcquireMultiple] on a list
    without repetition. [getLockInfo] answers the same record (its value
    and its two instants; the row it selects has no key), but the two
    drivers do not leave the same store: the SQLite driver only reads,
    while the in-memory driver deletes the key's record when it has
    expired, which leaves it with the records of the table less that
    row. *)
Theorem sqlite_simulates_memory locks :
  (∀ key lockValue ttl now,
     tryAcquire key lockValue ttl now (tableOf locks)
     = (Return (MemoryLockDriver.tryAcquire key lockValue ttl now locks).1,
        tableOf (MemoryLockDriver.tryAcquire key lockValue ttl now locks).2))
  ∧ (∀ keys lockValue ttl now,
       NoDup keys →
       tryAcquireMultiple keys lockValue ttl now (tableOf locks)
       = (Return (MemoryLockDriver.tryAcquireMultiple keys lockValue ttl now locks).1,
          tableOf (MemoryLockDriver.tryAcquireMultiple keys lockValue ttl now locks).2))
  ∧ (∀ key lockValue,
       release key lockValue (tableOf locks)
       = ((MemoryLockDriver.release key lockValue locks).1,
          tableOf (MemoryLockDriver.release key lockValue locks).2))
  ∧ (∀ keys lockValue,
       releaseMultiple keys lockValue (tableOf locks)
       = ((MemoryLockDriver.releaseMultiple keys lockValue locks).1,
          tableOf (MemoryLockDriver.releaseMultiple keys lockValue locks).2))
  ∧ (∀ key now,
       exists_ key now (tableOf locks)
       = ((MemoryLockDriver.exists_ key now locks).1,
          tableOf (MemoryLockDriver.exists_ key now locks).2))
  ∧ (∀ key now,
       getLockInfo key now (tableOf locks)
       = (fun info => Selected.mk (LockInfo.value info) (LockInfo.expiresAt info)
                        (default 0 (LockInfo.createdAt info)))
         <$> (MemoryLockDriver.getLockInfo key now locks).1
       ∧ tableOf (MemoryLockDriver.getLockInfo key now locks).2
         = deleteExpiredOf key now (tableOf locks))
  ∧ (∀ now, cleanup now (tableOf locks) = tableOf (MemoryLockDriver.cleanup now locks)).
Proof.
  split_and!.
  - intros. apply sqlite_tryAcquire_tableOf.
  - intros keys lockValue ttl now Hnd.
    unfold tryAcquireMultiple, MemoryLockDriver.tryAcquireMultiple.
    rewrite deleteExpiredIn_tableOf, countLiveIn_cleaned.
    destruct (existsb _ keys) eqn:Hany; [done|].
    change (mkRow lockValue (now + ttl * 1000) now)
      with (rowOf {| value := lockValue; expiresAt := now + ttl * 1000;
                     createdAt := now |}).
    rewrite insertAll_tableOf; [done|done|]. by apply existsb_has_false.
  - intros. apply sqlite_release_tableOf.
  - intros. apply sqlite_releaseMultiple_tableOf.
  - intros. apply sqlite_exists_tableOf.
  - intros key now. split; [apply sqlite_getLockInfo_tableOf|].
    rewrite deleteExpiredOf_tableOf. f_equal.
    unfold MemoryLockDriver.getLockInfo, MemoryLockDriver.dropExpired.
    destruct (locks !! key) as [e|]; [|done]. by destruct (expiresAt e <? now).
  - intros. apply sqlite_cleanup_tableOf.
Qed.

(** X22. A key listed twice. When no listed key has a record in force,
    [tryAcquireMultiple] of the in-memory driver answers [true], that of
    the SQLite driver throws the violation of the primary key and leaves
    the table as it was, expired rows included; that of the file driver
    answers [false] whatever the directory holds, and leaves it as it
    was. *)
Theorem tryAcquireMultiple_duplicate_key keys lockValue ttl now :
  ¬ NoDup keys →
  (∀ locks,
     (∀ k e, k ∈ keys → locks !! k = Some e → expiresAt e < now) →
     (MemoryLockDriver.tryAcquireMultiple keys lockValue ttl now locks).1 = true
     ∧ tryAcquireMultiple keys lockValue ttl now (tableOf locks)
       = (Throw (SysError "SQLITE_CONSTRAINT_PRIMARYKEY"), tableOf locks))
  ∧ (∀ lockDir sha256Hex fs,
       FileLockDriver.tryAcquireMultiple lockDir sha256Hex keys lockValue ttl now fs
       = (false, fs)).
Proof.
  intros Hdup. split.
  - intros locks Hfree.
    assert (existsb (fun key => MemoryLockDriver.has key
                       (foldl (MemoryLockDriver.dropExpired now) locks keys)) keys
            = false) as Hnone.
    { destruct (existsb _ keys) eqn:Hany; [|done]. exfalso.
      apply existsb_exists in Hany as (k & Hin & Hhas).
      apply list_elem_of_In in Hin.
      apply MemoryLockDriverFacts.has_true in Hhas as [e He].
      rewrite MemoryMoreFacts.lookup_foldl_dropExpired in He.
      destruct (locks !! k) as [e'|] eqn:Hk; [|done].
      specialize (Hfree k e' Hin Hk). by rewrite decide_True in He. }
    split.
    + unfold MemoryLockDriver.tryAcquireMultiple. by rewrite Hnone.
    + unfold tryAcquireMultiple.
      rewrite deleteExpiredIn_tableOf, countLiveIn_cleaned, Hnone.
      destruct (insertAll_duplicate keys (mkRow lockValue (now + ttl * 1000) now)
                  (tableOf (foldl (MemoryLockDriver.dropExpired now) locks keys)) Hdup)
        as [table' ->]. done.
  - intros lockDir sha256Hex fs.
    pose proof (FileLockDriverFacts.file_tryAcquireMultiple_false lockDir sha256Hex
                  keys lockValue ttl now fs) as Hfalse.
    destruct (FileLockDriver.tryAcquireMultiple lockDir sha256Hex keys lockValue ttl
                now fs) as [[|] fs'] eqn:Hrun; cbn [fst snd] in Hfalse.
    + exfalso. apply Hdup. revert Hrun. unfold FileLockDriver.tryAcquireMultiple.
      destruct (existsb _ _); [done|].
      destruct (FileLockDriver.createAll _ _ _ _) as [[[[]|e] acquired] fs''] eqn:Hc;
        [|done].
      intros _. apply FileMoreFacts.createAll_Return_inv in Hc as [Hnd _].
      by apply NoDup_fmap_1 in Hnd.
    + by rewrite Hfalse.
Qed.
End SQLiteMoreFacts.

(** * The tokens handed to the driver *)
Module TokenFacts.
Import AtomicLock JsMapFacts AtomicLockFacts.
Section Facts.
Context {D : Type} `{!Driver.LockDriver D}.
Variable uuidv4 : nat → string.
Implicit Types (s : State D) (key : string).

Lemma acquireTokens_app log1 log2 :
  acquireTokens (log1 ++ log2) = acquireTokens log1 ++ acquireTokens log2.
Proof.
  induction log1 as [|[k v e|k v] log1 IH]; [done| |done].
  cbn [app acquireTokens]. by rewrite IH.
Qed.

(** What a call mints: nothing, or the next identifier, which it hands to
    the driver. *)
Lemma tokens_call c s :
  (uuidDrawn (call uuidv4 c s) = uuidDrawn s
   ∧ acquireTokens (driverCalls (call uuidv4 c s)) = acquireTokens (driverCalls s))
  ∨ (uuidDrawn (call uuidv4 c s) = S (uuidDrawn s)
     ∧ acquireTokens (driverCalls (call uuidv4 c s))
       = acquireTokens (driverCalls s) ++ [uuidv4 (uuidDrawn s)]).
Proof.
  assert (∀ key options,
            (uuidDrawn (tryAcquire uuidv4 key options s).2 = uuidDrawn s
             ∧ acquireTokens (driverCalls (tryAcquire uuidv4 key options s).2)
               = acquireTokens (driverCalls s))
            ∨ (uuidDrawn (tryAcquire uuidv4 key options s).2 = S (uuidDrawn s)
               ∧ acquireTokens (driverCalls (tryAcquire uuidv4 key options s).2)
                 = acquireTokens (driverCalls s) ++ [uuidv4 (uuidDrawn s)])) as Htry.
  { intros key options. rewrite tryAcquire_unfold.
    destruct (isCircuitOpen key s); [by left|]. right. cbv zeta.
    destruct (Driver.tryAcquire _ _ _ _ _) as [[[|]|e] d]; cbn [snd].
    - cbn [uuidDrawn driverCalls withLockFailures withDriver withUuidDrawn].
      by rewrite acquireTokens_app.
    - cbn [uuidDrawn driverCalls withLockFailures withDriver withUuidDrawn].
      by rewrite acquireTokens_app.
    - rewrite recordLockFailure_withDriver, recordLockFailure_withUuidDrawn.
      cbn [uuidDrawn driverCalls withLockFailures withDriver withUuidDrawn].
      destruct (frame_recordLockFailure key s) as (_ & _ & _ & _ & ->).
      by rewrite acquireTokens_app. }
  destruct c as [key options|key options|key lockValue| |now]; cbn [call].
  - apply Htry.
  - destruct (acquire_cases uuidv4 key options s) as [(v & _ & _ & ->)| ->]; apply Htry.
  - left. rewrite release_unfold.
    destruct (Driver.release key lockValue (dateNow s) (driver s)) as [c d].
    cbn [snd uuidDrawn driverCalls withDriver]. rewrite acquireTokens_app.
    cbn [acquireTokens]. by rewrite app_nil_r.
  - by left.
  - by left.
Qed.

(** X23. Every attempt that reaches the driver carries a token of its
    own. Over any sequence of public calls, a call mints at most one
    identifier, and only to hand it to the driver's [tryAcquire]: the
    tokens the driver has been asked to store are, in order, the
    identifiers minted. Hence, on a coordinator that starts with an empty
    log and a generator that never repeats itself, no two acquisition
    attempts ever share a token, whatever [release] is called with. *)
Theorem tokens_are_fresh cs s :
  let s' := calls uuidv4 cs s in
  (uuidDrawn s ≤ uuidDrawn s')%nat
  ∧ acquireTokens (driverCalls s')
    = acquireTokens (driverCalls s)
      ++ (uuidv4 <$> seq (uuidDrawn s) (uuidDrawn s' - uuidDrawn s))
  ∧ ((∀ i j, uuidv4 i = uuidv4 j → i = j) →
     acquireTokens (driverCalls s) = uuidv4 <$> seq 0 (uuidDrawn s) →
     NoDup (acquireTokens (driverCalls s'))).
Proof.
  cbv zeta.
  assert ((uuidDrawn s ≤ uuidDrawn (calls uuidv4 cs s))%nat
          ∧ acquireTokens (driverCalls (calls uuidv4 cs s))
            = acquireTokens (driverCalls s)
              ++ (uuidv4 <$> seq (uuidDrawn s)
                               (uuidDrawn (calls uuidv4 cs s) - uuidDrawn s))) as [Hle Hlog].
  { revert s. induction cs as [|c cs IH]; intros s.
    - unfold calls. cbn [foldl]. rewrite Nat.sub_diag. cbn. by rewrite app_nil_r.
    - unfold calls. cbn [foldl]. fold (calls uuidv4 cs (call uuidv4 c s)).
      destruct (IH (call uuidv4 c s)) as [IHle IHlog].
      destruct (tokens_call c s) as [[Hn Hl]|[Hn Hl]];
        rewrite Hn in IHle, IHlog; rewrite Hl in IHlog.
      + done.
      + split; [lia|]. rewrite IHlog, <- app_assoc. f_equal.
        replace (uuidDrawn (calls uuidv4 cs (call uuidv4 c s)) - uuidDrawn s)%nat
          with (S (uuidDrawn (calls uuidv4 cs (call uuidv4 c s)) - S (uuidDrawn s)))
          by lia.
        done. }
  split; [done|]. split; [done|].
  intros Hinj Hstart. rewrite Hlog, Hstart, <- fmap_app, <- seq_app.
  apply NoDup_fmap_2; [|apply NoDup_seq]. intros i j. apply Hinj.
Qed.
End Facts.
End TokenFacts.

(** * The in-memory driver: reading back what was stored *)
Module ReadBackFacts.
Import MemoryLockDriver MemoryLockDriverFacts.
Implicit Types (locks : gmap string LockData) (key : string) (keys : list string).

(** X1. What is stored is what is read. After [tryAcquire] has taken a
    key that was free, [getLockInfo], [exists] and [getAllLocks] show the
    caller's record (its token, its expiry [now + ttl * 1000], its
    creation time) at every clock reading up to that expiry and change
    nothing; past the expiry they show nothing and the first two delete
    the record; once released with the token the key shows nothing; and
    what the other keys show is as before the acquisition. *)
Theorem getLockInfo_after_tryAcquire key lockValue ttl now later locks :
  (∀ existing, locks !! key = Some existing → expiresAt existing < now) →
  let locks1 := (tryAcquire key lockValue ttl now locks).2 in
  let info := {| LockInfo.key := key;
                 LockInfo.value := lockValue;
                 LockInfo.expiresAt := now + ttl * 1000;
                 LockInfo.createdAt := Some now |} in
  (later ≤ now + ttl * 1000 →
     getLockInfo key later locks1 = (Some info, locks1)
     ∧ exists_ key later locks1 = (true, locks1)
     ∧ getAllLocks later locks1 !! key = Some info)
  ∧ (now + ttl * 1000 < later →
     getLockInfo key later locks1 = (None, delete key locks1)
     ∧ exists_ key later locks1 = (false, delete key locks1)
     ∧ getAllLocks later locks1 !! key = None)
  ∧ (getLockInfo key later (release key lockValue locks1).2).1 = None
  ∧ (∀ k, k ≠ key →
       (getLockInfo k later locks1).1 = (getLockInfo k later locks).1).
Proof.
  intros Hfree locks1 info.
  assert (dropExpired now locks key !! key = None) as Hnone.
  { rewrite lookup_dropExpired. destruct (locks !! key) as [e|] eqn:He; [|done].
    rewrite decide_True by done.
    specialize (Hfree e eq_refl). apply Z.ltb_lt in Hfree. by rewrite Hfree. }
  assert (locks1 = <[key := {| value := lockValue; expiresAt := now + ttl * 1000;
                               createdAt := now |}]> (dropExpired now locks key))
    as Hlocks1.
  { unfold locks1, tryAcquire, has. by rewrite Hnone. }
  assert (locks1 !! key = Some {| value := lockValue; expiresAt := now + ttl * 1000;
                                  createdAt := now |}) as Hget.
  { rewrite Hlocks1. apply lookup_insert_eq. }
  clearbody locks1. split; [|split; [|split]].
  - intros Hlive.
    assert ((now + ttl * 1000 <? later) = false) as Hnot by (apply Z.ltb_ge; lia).
    assert ((later <=? now + ttl * 1000) = true) as Hle by (apply Z.leb_le; lia).
    unfold getLockInfo, exists_, getAllLocks.
    rewrite map_lookup_imap, Hget. cbn. by rewrite Hnot, Hle.
  - intros Hpast.
    assert ((now + ttl * 1000 <? later) = true) as Hexp by (apply Z.ltb_lt; lia).
    assert ((later <=? now + ttl * 1000) = false) as Hle by (apply Z.leb_gt; lia).
    unfold getLockInfo, exists_, getAllLocks.
    rewrite map_lookup_imap, Hget. cbn. by rewrite Hexp, Hle.
  - unfold release. rewrite Hget. cbn [value]. rewrite decide_True by done.
    cbn [snd]. unfold getLockInfo. by rewrite lookup_delete_eq.
  - intros k Hne. unfold getLockInfo. rewrite Hlocks1, lookup_insert_ne by done.
    rewrite lookup_dropExpired. destruct (locks !! k) as [e|]; [|done].
    rewrite decide_False by done. by destruct (expiresAt e <? later).
Qed.
End ReadBackFacts.

(** * When the acquisition succeeds *)
Module AcquireFacts.
Import AtomicLock JsMapFacts AtomicLockFacts.
Section Facts.
Context {D : Type} `{!Driver.LockDriver D}.
Variable uuidv4 : nat → string.
Implicit Types (s : State D) (key : string).

(** X6. When [acquire] succeeds. It returns a token, the one just minted,
    exactly when the breaker of the key is closed, the driver grants the
    lock and the token is not the empty string; in every other case it
    throws [Failed to acquire lock for key: <key>]. With the breaker open
    it throws without minting a token or calling the driver; with the
    breaker closed it calls the driver once, and when the driver granted
    the lock the driver keeps it even if [acquire] throws (the token
    being empty). Of its options only [expiryInSeconds] matters:
    [maxRetries] and the breaker settings given per call change
    nothing. *)
Theorem acquire_succeeds_iff key options s :
  let lockValue := uuidv4 (uuidDrawn s) in
  let expiry := default 10 (LockOptions.expiryInSeconds options) in
  let granted :=
    (Driver.tryAcquire key lockValue expiry (dateNow s) (driver s)).1 in
  let failed := Error ("Failed to acquire lock for key: " +:+ key) in
  (isCircuitOpen key s = false ∧ granted = Return true ∧ lockValue ≠ "" →
     (acquire uuidv4 key options s).1 = Return lockValue)
  ∧ (¬ (isCircuitOpen key s = false ∧ granted = Return true ∧ lockValue ≠ "") →
     (acquire uuidv4 key options s).1 = Throw failed)
  ∧ (isCircuitOpen key s = true → acquire uuidv4 key options s = (Throw failed, s))
  ∧ (isCircuitOpen key s = false →
     driverCalls (acquire uuidv4 key options s).2
     = driverCalls s ++ [CallTryAcquire key lockValue expiry]
     ∧ (granted = Return true →
        driver (acquire uuidv4 key options s).2
        = (Driver.tryAcquire key lockValue expiry (dateNow s) (driver s)).2))
  ∧ (∀ options',
       LockOptions.expiryInSeconds options' = LockOptions.expiryInSeconds options →
       acquire uuidv4 key options' s = acquire uuidv4 key options s).
Proof.
  intros lockValue expiry granted failed.
  assert (acquire uuidv4 key options s
          = if isCircuitOpen key s then (Throw failed, s)
            else
              match Driver.tryAcquire key lockValue expiry (dateNow s) (driver s) with
              | (Return true, d) =>
                  (if decide (lockValue = "") then Throw failed else Return lockValue,
                   withLockFailures (JsMap.delete key (lockFailures s))
                     (withDriver (CallTryAcquire key lockValue expiry) d
                        (withUuidDrawn (S (uuidDrawn s)) s)))
              | (Return false, d) =>
                  (Throw failed,
                   withDriver (CallTryAcquire key lockValue expiry) d
                     (withUuidDrawn (S (uuidDrawn s)) s))
              | (Throw _, d) =>
                  (Throw failed,
                   recordLockFailure key
                     (withDriver (CallTryAcquire key lockValue expiry) d
                        (withUuidDrawn (S (uuidDrawn s)) s)))
              end) as Hunfold.
  { unfold acquire, bind. rewrite tryAcquire_unfold.
    destruct (isCircuitOpen key s); [done|]. cbv zeta. fold lockValue expiry.
    destruct (Driver.tryAcquire key lockValue expiry (dateNow s) (driver s))
      as [[[|]|e] d]; [|done|done].
    unfold throw, ret. by destruct (decide (lockValue = "")). }
  split_and!.
  - intros (Hclosed & Hgranted & Hne). rewrite Hunfold, Hclosed.
    unfold granted in Hgranted.
    destruct (Driver.tryAcquire key lockValue expiry (dateNow s) (driver s))
      as [c d]. cbn [fst] in Hgranted. subst c. cbn [fst].
    by rewrite decide_False.
  - intros Hnot. rewrite Hunfold.
    destruct (isCircuitOpen key s) eqn:Hopen; [done|].
    unfold granted in Hnot.
    destruct (Driver.tryAcquire key lockValue expiry (dateNow s) (driver s))
      as [[[|]|e] d]; cbn [fst] in *; [|done|done].
    destruct (decide (lockValue = "")) as [|Hne]; [done|].
    destruct Hnot. done.
  - intros Hopen. by rewrite Hunfold, Hopen.
  - intros Hclosed. rewrite Hunfold, Hclosed. unfold granted.
    destruct (Driver.tryAcquire key lockValue expiry (dateNow s) (driver s))
      as [[[|]|e] d]; cbn [fst snd].
    + done.
    + split; [done|]. intros [=].
    + split; [|intros [=]].
      rewrite recordLockFailure_withDriver, recordLockFailure_withUuidDrawn.
      cbn [driverCalls withDriver withUuidDrawn].
      by destruct (frame_recordLockFailure key s) as (_ & _ & _ & _ & ->).
  - intros options' Heq. unfold acquire, bind.
    rewrite !tryAcquire_unfold, Heq. done.
Qed.
End Facts.
End AcquireFacts.

(** * More concrete cases *)
Module MoreCases.
Import AtomicLock Fs.

(** X8 at a driver that rejects every call: seven attempts, threshold 5. *)
Lemma breaker_trips_at_threshold_failing :
  let s' := Nat.iter 7 (fun s0 => (tryAcquire Sample.uuid "k" LockOptions.none s0).2)
              Sample.failing in
  CircuitBreakerStats.failureCount (getCircuitBreakerStatus "k" s') = 5
  ∧ CircuitBreakerStats.isOpen (getCircuitBreakerStatus "k" s') = true
  ∧ length (driverCalls s') = 5%nat.
Proof.
  destruct (BreakerFacts.breaker_trips_at_threshold Sample.uuid
              (fun d => MockDriver.onTryAcquire d = Throw (Error "Driver error"))
              "k" LockOptions.none Sample.failing 7) as (Hcount & Hopen & Hcalls).
  - intros d Hd lockValue expiry now. exists (Error "Driver error"), d.
    cbn. rewrite Hd. split; reflexivity.
  - reflexivity.
  - apply NoDup_nil_2.
  - reflexivity.
  - vm_compute. reflexivity.
  - vm_compute. reflexivity.
  - vm_compute. discriminate.
  - split; [exact Hcount|]. split.
    + rewrite Hopen. apply bool_decide_eq_true_2. vm_compute. discriminate.
    + apply Nat2Z.inj. rewrite Hcalls. reflexivity.
Defined.

(** X2 at the tripped breaker: one millisecond before [nextAttemptAt] the
    attempt is refused, at [nextAttemptAt] it reaches the driver. *)
Lemma breaker_closes_at_nextAttemptAt_tripped :
  CircuitBreakerStats.nextAttemptAt (getCircuitBreakerStatus "k" Sample.tripped)
  = Some 31500
  ∧ tryAcquire Sample.uuid "k" LockOptions.none (withClock 31499 Sample.tripped)
    = (Return None, withClock 31499 Sample.tripped)
  ∧ driverCalls
      (tryAcquire Sample.uuid "k" LockOptions.none (withClock 31500 Sample.tripped)).2
    = [CallTryAcquire "k" (Sample.uuid 3) 10].
Proof.
  destruct (BreakerFacts.breaker_closes_at_nextAttemptAt Sample.uuid "k"
              LockOptions.none Sample.tripped) as (t & Hnext & _ & Hall).
  - vm_compute. reflexivity.
  - split; [reflexivity|].
    assert (t = 31500) as -> by (vm_compute in Hnext; congruence).
    split.
    + apply (Hall 31499). vm_compute. reflexivity.
    + apply (Hall 31500). vm_compute. discriminate.
Defined.

(** X9: at 40000 the record of the tripped key is stale and is swept; its
    breaker was closed already. *)
Lemma cleanupFailureRecords_keeps_breakers_tripped :
  JsMap.get "k" (lockFailures (cleanupFailureRecords (withClock 40000 Sample.tripped)))
  = None
  ∧ isCircuitOpen "k" (cleanupFailureRecords (withClock 40000 Sample.tripped))
    = isCircuitOpen "k" (withClock 40000 Sample.tripped).
Proof.
  destruct (BreakerFacts.cleanupFailureRecords_keeps_breakers "k"
              (withClock 40000 Sample.tripped)) as (Hget & Hopen & _).
  - apply NoDup_cons. split; [apply not_elem_of_nil | apply NoDup_nil_2].
  - split; [|exact Hopen]. rewrite Hget. vm_compute. reflexivity.
Defined.

(** X10 at a coordinator that keeps at most two records. *)
Lemma calls_keep_failures_bounded_small :
  let s' := calls Sample.uuid
              [DoTryAcquire "a" LockOptions.none; DoRelease "a" "x"; Tick 5000;
               DoAcquire "a" LockOptions.none; DoClose] Sample.small in
  maxFailureEntries s' = 2
  ∧ JsMap.wf (lockFailures s')
  ∧ JsMap.size (lockFailures s') ≤ 2.
Proof.
  apply (BreakerFacts.calls_keep_failures_bounded Sample.uuid
           [DoTryAcquire "a" LockOptions.none; DoRelease "a" "x"; Tick 5000;
            DoAcquire "a" LockOptions.none; DoClose] Sample.small).
  - vm_compute. discriminate.
  - apply NoDup_nil_2.
  - vm_compute. discriminate.
Defined.

(** X11: a callback that returns its token; afterwards the key is free. *)
Lemma withLock_memory_job :
  let s := create (∅ : gmap string LockData) LockOptions.none 1000 in
  ∃ s3,
    withLock Sample.uuid "job" (fun lockValue => ret lockValue) LockOptions.none s
    = (Return (Sample.uuid 0), s3)
    ∧ driver s3 !! "job" = None.
Proof.
  intros s.
  destruct (MemoryCoordinatorFacts.withLock_memory Sample.uuid "job"
              (fun lockValue => ret lockValue) LockOptions.none s)
    as (s1 & _ & _ & Hheld & _ & _ & Hrun).
  - reflexivity.
  - intros existing Hget. vm_compute in Hget. discriminate.
  - cbn. discriminate.
  - unfold ret in Hrun. destruct Hrun as (s3 & Hwith & Hdriver).
    exists s3. split; [exact Hwith|].
    rewrite Hdriver, Hheld. cbn [value]. rewrite decide_True by reflexivity.
    apply lookup_delete_eq.
Defined.

(** X18: the file of ["k"] holds a record that expired at 1000; at 2000
    the key is taken over. Below a path that is not a directory the call
    rejects with [ENOTDIR]. *)
Lemma file_tryAcquire_spec_expired :
  let path := FileLockDriver.getLockPath Sample.lockDir Sample.noHash "k" in
  let fs : gmap string FileContent := {[ path := Json (Sample.record "v" 1000 0) ]} in
  FileLockDriver.tryAcquire Sample.lockDir Sample.noHash Usable 2 "k" "T2" 5 2000 fs
  = Some (Return true, <[path := Json (Sample.record "T2" 7000 2000)]> fs)
  ∧ FileLockDriver.tryAcquire Sample.lockDir Sample.noHash (Unusable ENOTDIR) 2
      "k" "T2" 5 2000 ∅
    = Some (Throw (SysError "ENOTDIR"), ∅).
Proof.
  intros path fs. split.
  - rewrite (FileMoreFacts.file_tryAcquire_spec Sample.lockDir Sample.noHash Usable 2
               "k" "T2" 5 2000 fs (le_n 2)).
    fold path. unfold fs. rewrite lookup_singleton_eq. reflexivity.
  - rewrite (FileMoreFacts.file_tryAcquire_spec Sample.lockDir Sample.noHash
               (Unusable ENOTDIR) 2 "k" "T2" 5 2000 ∅ (le_n 2)).
    reflexivity.
Defined.

(** X22 at the list [a, a] on empty stores. *)
Lemma tryAcquireMultiple_duplicate_key_twice :
  (MemoryLockDriver.tryAcquireMultiple ["a"; "a"] "v" 10 1000 ∅).1 = true
  ∧ SQLiteLockDriver.tryAcquireMultiple ["a"; "a"] "v" 10 1000 (Stored.tableOf ∅)
    = (Throw (SysError "SQLITE_CONSTRAINT_PRIMARYKEY"), Stored.tableOf ∅)
  ∧ ∀ fs, FileLockDriver.tryAcquireMultiple Sample.lockDir Sample.noHash
            ["a"; "a"] "v" 10 1000 fs = (false, fs).
Proof.
  destruct (SQLiteMoreFacts.tryAcquireMultiple_duplicate_key ["a"; "a"] "v" 10 1000)
    as [Hdb Hfile].
  - intros Hnd. apply NoDup_cons in Hnd as [Hnin _]. apply Hnin. left.
  - destruct (Hdb ∅) as [Hmem Hsql].
    + intros k e _ Hget. rewrite lookup_empty in Hget. discriminate.
    + split; [exact Hmem|]. split; [exact Hsql|]. intros fs. apply Hfile.
Defined.

(** X23 at the generator [uuid-0], [uuid-1], ... *)
Lemma tokens_are_fresh_failing :
  NoDup (acquireTokens
           (driverCalls
              (calls Sample.uuid
                 [DoTryAcquire "a" LockOptions.none; DoRelease "a" "x";
                  DoAcquire "b" LockOptions.none; DoTryAcquire "a" LockOptions.none]
                 Sample.failing))).
Proof.
  destruct (TokenFacts.tokens_are_fresh Sample.uuid
              [DoTryAcquire "a" LockOptions.none; DoRelease "a" "x";
               DoAcquire "b" LockOptions.none; DoTryAcquire "a" LockOptions.none]
              Sample.failing) as (_ & _ & Hfresh).
  apply Hfresh; [|reflexivity].
  intros i j Heq. unfold Sample.uuid in Heq.
  apply String.app_inj in Heq. by apply pretty_nat_inj in Heq.
Defined.

(** X1: ["r"] is taken at 1000 for five seconds; at 6000 it still shows,
    at 6001 it does not. *)
Lemma getLockInfo_after_tryAcquire_r :
  let locks1 := (MemoryLockDriver.tryAcquire "r" "T1" 5 1000 ∅).2 in
  (MemoryLockDriver.getLockInfo "r" 6000 locks1).1
  = Some (LockInfo.mk "r" "T1" 6000 (Some 1000))
  ∧ (MemoryLockDriver.getLockInfo "r" 6001 locks1).1 = None.
Proof.
  intros locks1.
  destruct (ReadBackFacts.getLockInfo_after_tryAcquire "r" "T1" 5 1000 6000 ∅)
    as (Hlive & _).
  { intros existing Hget. rewrite lookup_empty in Hget. discriminate. }
  destruct (ReadBackFacts.getLockInfo_after_tryAcquire "r" "T1" 5 1000 6001 ∅)
    as (_ & Hpast & _).
  { intros existing Hget. rewrite lookup_empty in Hget. discriminate. }
  destruct Hlive as (Hinfo & _); [vm_compute; discriminate|].
  destruct Hpast as (Hnone & _); [vm_compute; reflexivity|].
  fold locks1 in Hinfo, Hnone. split.
  - rewrite Hinfo. reflexivity.
  - rewrite Hnone. reflexivity.
Defined.
End MoreCases.
